(** * Lightbulb: status synchronisation and dependency-impact graph

    A shallow embedding of the core of the lightbulb frontend, and the
    properties proved of it.

    Part I, the model:
    - [Graph]: the dependency traversals [get_downstream_dependents] and
      [get_upstream_dependencies] and the outage-affected set computed by
      [getElementLayout] (components/DetailedFlowView);
    - [Tally]: the per-type status summary [statusSummaryByType]
      (components/ServiceList.tsx);
    - [Status]: the [StatusManager] class (statusManager.tsx) on an explicit
      object heap and browser runtime (timers, sockets, requests in flight).

    Part II, the properties: [GraphTheory], [TallyTheory], [StatusTheory]. *)

From Stdlib Require Import ZArith Lia.
From stdpp Require Import base option list gmap sets strings fin_maps relations.

Local Open Scope string_scope.
Local Open Scope nat_scope.
Set Warnings "-clear-no-such-hyp".

(** * Part I: the model *)

(** ** model.tsx: the topology records shared by every component *)

(** [service_type] is declared [string], but every reader guards it with
    [??]; the absent case is kept as [None]. *)
Record ServiceNode := {
  service_id : string;
  label : string;
  service_type : option string
}.

Record ServiceRelation := {
  relation_id : string;
  rel_source : string;
  rel_target : string
}.

(** [forEach] over an array with a body that threads the mutable state it
    closes over; the body may fail to return (fuel exhausted), which aborts
    the loop. *)
Fixpoint forEach {A S : Type} (body : A → S → option S) (l : list A) (s : S)
  : option S :=
  match l with
  | [] => Some s
  | a :: l' =>
      match body a s with
      | Some s' => forEach body l' s'
      | None => None
      end
  end.

(** [array.sort(compare)]: a stable sort; [compare a b] is negative when
    [a] goes first, as a JavaScript comparator. Each element is inserted in
    front of the first element it does not come after. *)
Fixpoint insertBy {A : Type} (compare : A → A → Z) (x : A) (sorted : list A) : list A :=
  match sorted with
  | [] => [x]
  | y :: rest =>
      if decide (compare x y ≤ 0)%Z then x :: y :: rest
      else y :: insertBy compare x rest
  end.

Definition sortWith {A : Type} (compare : A → A → Z) (l : list A) : list A :=
  foldr (insertBy compare) [] l.

(** The property names every plain JavaScript object inherits from
    [Object.prototype] (the standard ones and those of Annex B). Reading
    [obj[key]] for one of them on an object with no own property of that
    name yields the built-in value, which is truthy. *)
Definition objectPrototypeKeys : list string :=
  [ "constructor"; "hasOwnProperty"; "isPrototypeOf"; "propertyIsEnumerable";
    "toLocaleString"; "toString"; "valueOf"; "__proto__";
    "__defineGetter__"; "__defineSetter__"; "__lookupGetter__"; "__lookupSetter__" ].

Module Graph.

(** *** Data: the @xyflow/react [Node] and [Edge] shapes the traversals read *)

Record Position := { pos_x : Z; pos_y : Z }.

Record NodeData := {
  data_service_id : string;
  data_label : string;
  data_type : option string
}.

Record Node := {
  id : string;
  position : Position;
  data : NodeData
}.

Record Edge := {
  edge_id : string;
  source : string;
  target : string
}.

(** The two sets the traversal closures capture and mutate. *)
Record Walk := {
  visited : gset string;
  found : gset string
}.

Definition emptyWalk : Walk := {| visited := ∅; found := ∅ |}.

(** *** get_downstream_dependents

    [findDownstream] is the recursive closure. The source recursion is not
    structural, so the embedding carries a recursion budget; [None] means the
    budget ran out (see [findDownstream_returns] for why it never does with
    [walkBudget]). *)
Fixpoint findDownstream (fuel : nat) (edges : list Edge) (serviceId : string)
  (w : Walk) : option Walk :=
  match fuel with
  | O => None
  | S fuel' =>
      if decide (serviceId ∈ visited w) then Some w
      else
        let w1 := {| visited := {[serviceId]} ∪ visited w; found := found w |} in
        let dependentEdges := filter (λ edge, source edge = serviceId) edges in
        forEach
          (λ edge w',
             let dependentId := target edge in
             findDownstream fuel' edges dependentId
               {| visited := visited w'; found := {[dependentId]} ∪ found w' |})
          dependentEdges w1
  end.

(** One frame per vertex that can still be visited, plus the outermost call
    and the innermost call that returns at the guard. *)
Definition walkBudget (edges : list Edge) : nat := S (S (length edges)).

Definition get_downstream_dependents (target_service_id : string)
  (nodes : list Node) (edges : list Edge) : option (list Node) :=
  w ← findDownstream (walkBudget edges) edges target_service_id emptyWalk;
  Some (filter (λ node, id node ∈ found w) nodes).

(** *** get_upstream_dependencies *)
Fixpoint findUpstream (fuel : nat) (edges : list Edge) (serviceId : string)
  (w : Walk) : option Walk :=
  match fuel with
  | O => None
  | S fuel' =>
      if decide (serviceId ∈ visited w) then Some w
      else
        let w1 := {| visited := {[serviceId]} ∪ visited w; found := found w |} in
        let dependencyEdges := filter (λ edge, target edge = serviceId) edges in
        forEach
          (λ edge w',
             let dependencyId := source edge in
             findUpstream fuel' edges dependencyId
               {| visited := visited w'; found := {[dependencyId]} ∪ found w' |})
          dependencyEdges w1
  end.

Definition get_upstream_dependencies (target_service_id : string)
  (nodes : list Node) (edges : list Edge) : option (list Node) :=
  w ← findUpstream (walkBudget edges) edges target_service_id emptyWalk;
  Some (filter (λ node, id node ∈ found w) nodes).

(** *** getElementLayout: the outage-affected id set

    Only the part of [getElementLayout] that builds [outageAffectedIds] is
    embedded; the dagre layout and styling are not. *)
Definition tempNode (i : ServiceNode) : Node :=
  {| id := service_id i;
     position := {| pos_x := 0; pos_y := 0 |};
     data := {| data_service_id := service_id i;
                data_label := label i;
                data_type := service_type i |} |}.

Definition tempEdge (i : ServiceRelation) : Edge :=
  {| edge_id := relation_id i; source := rel_source i; target := rel_target i |}.

Definition outageAffectedIds (serviceNodes : list ServiceNode)
  (serviceEdges : list ServiceRelation) (outageService : list string)
  : option (gset string) :=
  let tempNodes := tempNode <$> serviceNodes in
  let tempEdges := tempEdge <$> serviceEdges in
  forEach
    (λ outageServiceId affected,
       let affected1 := {[outageServiceId]} ∪ affected in
       dependents ← get_downstream_dependents outageServiceId tempNodes tempEdges;
       forEach (λ dep acc, Some ({[id dep]} ∪ acc)) dependents affected1)
    outageService ∅.

(** [isOutageDependent] as computed per node inside [getElementLayout]. *)
Definition isOutageDependent (affected : gset string)
  (outageService : list string) (i : ServiceNode) : bool :=
  bool_decide (service_id i ∈ affected) && negb (bool_decide (service_id i ∈ outageService)).

(** *** Specification vocabulary *)

(** One dependency step along an edge of the list. *)
Definition edgeStep (edges : list Edge) (a b : string) : Prop :=
  ∃ e, e ∈ edges ∧ source e = a ∧ target e = b.

Definition nodeIds (ns : list Node) : list string := id <$> ns.

Definition mkNode (s : string) : Node := tempNode {| service_id := s; label := s; service_type := None |}.
Definition mkEdge (a b : string) : Edge := {| edge_id := a +:+ "->" +:+ b; source := a; target := b |}.

(** Every out-edge of [v] leads to a vertex already visited and recorded. *)
Definition closedIn (edges : list Edge) (w : Walk) (v : string) : Prop :=
  ∀ e, e ∈ edges → source e = v → target e ∈ visited w ∧ target e ∈ found w.

Definition extends (w w' : Walk) : Prop :=
  visited w ⊆ visited w' ∧ found w ⊆ found w'.

(** What one call [findDownstream x] guarantees about the state it leaves. *)
Record callPost (edges : list Edge) (x : string) (w w' : Walk) : Prop := {
  post_ext : extends w w';
  post_self : x ∈ visited w';
  post_closed : ∀ v, v ∈ visited w' → v ∉ visited w → closedIn edges w' v;
  post_visited : ∀ v, v ∈ visited w' → v ∈ visited w ∨ rtc (edgeStep edges) x v;
  post_found : ∀ d, d ∈ found w' → d ∈ found w ∨ tc (edgeStep edges) x d
}.

(** *** Upstream is downstream on the reversed edges *)

Definition flipEdge (e : Edge) : Edge :=
  {| edge_id := edge_id e; source := target e; target := source e |}.

(** *** The queries as membership predicates

    [inDownstream nodes edges x z]: the call [get_downstream_dependents x]
    returns, and [z] is the id of one of the nodes it returns. *)
Definition inDownstream (nodes : list Node) (edges : list Edge) (x z : string) : Prop :=
  ∃ r, get_downstream_dependents x nodes edges = Some r ∧ z ∈ nodeIds r.

Definition inUpstream (nodes : list Node) (edges : list Edge) (x z : string) : Prop :=
  ∃ r, get_upstream_dependencies x nodes edges = Some r ∧ z ∈ nodeIds r.

(** *** Concrete graphs used below *)

Definition cycleNodes : list Node := [mkNode "A"; mkNode "B"].
Definition cycleEdges : list Edge := [mkEdge "A" "B"; mkEdge "B" "A"].
Definition chainServices : list ServiceNode :=
  [ {| service_id := "A"; label := "a"; service_type := Some "api" |};
    {| service_id := "B"; label := "b"; service_type := Some "api" |};
    {| service_id := "C"; label := "c"; service_type := Some "db" |} ].
Definition chainRelations : list ServiceRelation :=
  [ {| relation_id := "r1"; rel_source := "A"; rel_target := "B" |};
    {| relation_id := "r2"; rel_source := "B"; rel_target := "C" |} ].
Definition chainNodes : list Node := tempNode <$> chainServices.
Definition chainEdges : list Edge := tempEdge <$> chainRelations.

(** *** getElementLayout: class names of nodes and edges

    [selectedNodeId] is [string | null]. *)
Definition nodeClassName (affected : gset string) (outageService : list string)
  (highlightedNodeIds : gset string) (selectedNodeId : option string)
  (i : ServiceNode) : string :=
  let isHighlighted := bool_decide (service_id i ∈ highlightedNodeIds) in
  let isSelected := bool_decide (selectedNodeId = Some (service_id i)) in
  let isInOutage := bool_decide (service_id i ∈ outageService) in
  let isOutageDependent :=
    bool_decide (service_id i ∈ affected) && negb isInOutage in
  if isInOutage then "outage-node"
  else if isOutageDependent then "outage-dependent-node"
  else if isSelected then "selected-node"
  else if isHighlighted then "highlighted-node"
  else "".

Definition edgeClassName (affected : gset string) (outageService : list string)
  (highlightedNodeIds : gset string) (i : ServiceRelation) : string :=
  let isOutage := bool_decide (rel_source i ∈ outageService) in
  let isHighlighted :=
    bool_decide (rel_source i ∈ highlightedNodeIds)
    && bool_decide (rel_target i ∈ highlightedNodeIds) in
  let isOutageRelated :=
    bool_decide (rel_source i ∈ affected) && bool_decide (rel_target i ∈ affected) in
  if isOutageRelated || isOutage then "outage"
  else if isHighlighted then "highlighted"
  else "".

(** *** App: the cached topology and the dependency dialog *)

Record FlowChartCache := {
  serviceNodes : list ServiceNode;
  serviceRelations : list ServiceRelation
}.

(** The argument of [appendRelationToFlowChartCache]. *)
Record RelationRef := {
  ref_relation_id : string;
  source_service_id : string;
  target_service_id : string
}.

(** The updater handed to [queryClient.setQueryData]; [None] is an
    undefined cache entry. *)
Definition appendRelationToFlowChartCache (relation : RelationRef)
  (previous : option FlowChartCache) : option FlowChartCache :=
  match previous with
  | None => None
  | Some prev =>
      if bool_decide (Exists (λ existing, relation_id existing = ref_relation_id relation)
                        (serviceRelations prev))
      then Some prev
      else
        let nextRelation :=
          {| relation_id := ref_relation_id relation;
             rel_source := source_service_id relation;
             rel_target := target_service_id relation |} in
        Some {| serviceNodes := serviceNodes prev;
                serviceRelations := serviceRelations prev ++ [nextRelation] |}
  end.

Definition removeRelationFromFlowChartCache (relationId : string)
  (previous : option FlowChartCache) : option FlowChartCache :=
  match previous with
  | None => None
  | Some prev =>
      let nextRelations :=
        filter (λ relation, relation_id relation ≠ relationId) (serviceRelations prev) in
      if decide (length nextRelations = length (serviceRelations prev))
      then Some prev
      else Some {| serviceNodes := serviceNodes prev; serviceRelations := nextRelations |}
  end.

(** The comparator of [availableUpstreamServices]: by type, then by label.
    [localeCompare] is the host's string collation. *)
Definition byTypeThenLabel (localeCompare : string → string → Z)
  (a b : ServiceNode) : Z :=
  let typeCompare :=
    localeCompare (default "" (service_type a)) (default "" (service_type b)) in
  if decide (typeCompare ≠ 0)%Z then typeCompare
  else localeCompare (label a) (label b).

(** DetailedFlowView: the ids highlighted for the selected node, as the
    first effect computes them. *)
Definition highlightedIds (serviceNodes : list ServiceNode)
  (serviceRelations : list ServiceRelation) (selectedNode : option Node)
  : option (gset string) :=
  match selectedNode with
  | Some sel =>
      let tempNodes := tempNode <$> serviceNodes in
      let tempEdges := tempEdge <$> serviceRelations in
      downstreamDependents ← get_downstream_dependents (id sel) tempNodes tempEdges;
      upstreamDependencies ← get_upstream_dependencies (id sel) tempNodes tempEdges;
      Some (list_to_set (id sel :: (id <$> downstreamDependents)
                           ++ (id <$> upstreamDependencies)))
  | None => Some ∅
  end.

(** [availableUpstreamServices]: the services offered as a new upstream
    dependency of the selected node. *)
Definition availableUpstreamServices (localeCompare : string → string → Z)
  (flowChart : option FlowChartCache) (selectedNode : option Node)
  : option (list ServiceNode) :=
  match flowChart, selectedNode with
  | Some fc, Some sel =>
      let tempNodes := tempNode <$> serviceNodes fc in
      let tempEdges := tempEdge <$> serviceRelations fc in
      downstreamDependents ← get_downstream_dependents (id sel) tempNodes tempEdges;
      let excludeIds : gset string :=
        list_to_set (id sel :: (id <$> downstreamDependents)) in
      Some (sortWith (byTypeThenLabel localeCompare)
              (filter (λ service, service_id service ∉ excludeIds) (serviceNodes fc)))
  | _, _ => Some []
  end.

(** What [handleSubmitDependency] adds to the cache once the server has
    stored the relation [source → selected]. *)
Definition submittedDependency (relationId : string) (source : ServiceNode)
  (selectedNode : Node) : RelationRef :=
  {| ref_relation_id := relationId;
     source_service_id := service_id source;
     target_service_id := id selectedNode |}.

(** *** ServiceCard: flagging a service as in outage

    The effect that follows the status of one card. [last_status_code] is
    [None] while there is no status data (or no code); [outageService] is
    the list the card was rendered with and [prev] the state the updater is
    applied to. *)
Definition outageEffect (last_status_code : option Z) (serviceId : string)
  (outageService prev : list string) : list string :=
  if decide (serviceId = "") then prev
  else
    match last_status_code with
    | None => prev
    | Some code =>
        if decide (code = 0)%Z then
          if decide (serviceId ∈ outageService)
          then filter (λ i, i ≠ serviceId) prev
          else prev
        else if decide (code ∈ [1; 2; 4]%Z ∧ serviceId ∉ outageService)
        then prev ++ [serviceId]
        else prev
    end.

(** [getStatusInfo] of the card: the status word shown next to the dot. *)
Definition getStatusInfo (statusCode : option Z) : string :=
  match statusCode with
  | Some 0%Z => "ok"
  | Some 1%Z => "degraded"
  | Some 2%Z => "failed"
  | Some 3%Z => "starting"
  | Some 4%Z => "stopped"
  | Some 5%Z => "unknown"
  | _ => "unknown"
  end.

End Graph.

Module Tally.

(** ** components/ServiceList.tsx: the per-type status summary *)

(** [last_status_code] is declared [number]; the reader guards it with [??],
    so a null or missing code is kept as [None]. *)
Record ServiceStatusSummary := {
  sum_service_id : string;
  stime : string;
  sum_last_check : string;
  last_status_code : option Z;
  last_message : string;
  check_count : Z;
  failed_count : Z
}.

Record StatusSummaryCounts := {
  ok : nat;
  degraded : nat;
  failed : nat;
  starting : nat;
  stopped : nat;
  unknown : nat;
  others : nat;
  total : nat
}.

Definition zeroCounts : StatusSummaryCounts :=
  {| ok := 0; degraded := 0; failed := 0; starting := 0; stopped := 0;
     unknown := 0; others := 0; total := 0 |}.

(** [counts.total += 1] followed by the [switch (statusCode)]. *)
Definition bump (statusCode : option Z) (c : StatusSummaryCounts) : StatusSummaryCounts :=
  let c := {| ok := ok c; degraded := degraded c; failed := failed c;
              starting := starting c; stopped := stopped c; unknown := unknown c;
              others := others c; total := total c + 1 |} in
  match statusCode with
  | Some 0%Z => {| ok := ok c + 1; degraded := degraded c; failed := failed c;
                   starting := starting c; stopped := stopped c; unknown := unknown c;
                   others := others c; total := total c |}
  | Some 1%Z => {| ok := ok c; degraded := degraded c + 1; failed := failed c;
                   starting := starting c; stopped := stopped c; unknown := unknown c;
                   others := others c; total := total c |}
  | Some 2%Z => {| ok := ok c; degraded := degraded c; failed := failed c + 1;
                   starting := starting c; stopped := stopped c; unknown := unknown c;
                   others := others c; total := total c |}
  | Some 3%Z => {| ok := ok c; degraded := degraded c; failed := failed c;
                   starting := starting c + 1; stopped := stopped c; unknown := unknown c;
                   others := others c; total := total c |}
  | Some 4%Z => {| ok := ok c; degraded := degraded c; failed := failed c;
                   starting := starting c; stopped := stopped c + 1; unknown := unknown c;
                   others := others c; total := total c |}
  | Some 5%Z | None =>
                {| ok := ok c; degraded := degraded c; failed := failed c;
                   starting := starting c; stopped := stopped c; unknown := unknown c + 1;
                   others := others c; total := total c |}
  | Some _ => {| ok := ok c; degraded := degraded c; failed := failed c;
                 starting := starting c; stopped := stopped c; unknown := unknown c;
                 others := others c + 1; total := total c |}
  end.

(** [service.service_type ?? 'Unknown'] *)
Definition typeOf (service : ServiceNode) : string :=
  default "Unknown" (service_type service).

(** [statusMap[service.service_id]?.last_status_code ?? null] *)
Definition statusCodeOf (statusMap : gmap string ServiceStatusSummary)
  (service : ServiceNode) : option Z :=
  statusMap !! service_id service ≫= last_status_code.

(** One iteration of [services.forEach]. The summary is a plain object used
    as a dictionary keyed by the type name; the map holds its own
    properties. [!summary[type]] also sees what the object inherits: for a
    type named like a property of [Object.prototype] the test finds the
    built-in value, no entry is created, [counts] is that built-in object
    and the increments go to it, not to the summary. Otherwise [counts]
    aliases the entry, so the increments are an in-place [alter]. *)
Definition tallyStep (statusMap : gmap string ServiceStatusSummary)
  (summary : gmap string StatusSummaryCounts) (service : ServiceNode)
  : gmap string StatusSummaryCounts :=
  let type := typeOf service in
  if decide (type ∈ objectPrototypeKeys) then summary
  else
    let summary1 :=
      match summary !! type with
      | Some _ => summary
      | None => <[type := zeroCounts]> summary
      end in
    alter (bump (statusCodeOf statusMap service)) type summary1.

Definition statusSummaryByType (services : list ServiceNode)
  (statusMap : gmap string ServiceStatusSummary) : gmap string StatusSummaryCounts :=
  foldl (tallyStep statusMap) ∅ services.

(** *** Specification vocabulary *)

Inductive Bucket := BOk | BDegraded | BFailed | BStarting | BStopped | BUnknown | BOthers.

Global Instance Bucket_eq_dec : EqDecision Bucket.
Proof. solve_decision. Defined.

(** The status-code enum of the glossary; no record (or a null code) is
    unknown, a code outside 0..5 is "others". *)
Definition bucketOf (statusCode : option Z) : Bucket :=
  match statusCode with
  | None => BUnknown
  | Some c =>
      if decide (c = 0)%Z then BOk
      else if decide (c = 1)%Z then BDegraded
      else if decide (c = 2)%Z then BFailed
      else if decide (c = 3)%Z then BStarting
      else if decide (c = 4)%Z then BStopped
      else if decide (c = 5)%Z then BUnknown
      else BOthers
  end.

Definition bucketCount (b : Bucket) (c : StatusSummaryCounts) : nat :=
  match b with
  | BOk => ok c | BDegraded => degraded c | BFailed => failed c
  | BStarting => starting c | BStopped => stopped c
  | BUnknown => unknown c | BOthers => others c
  end.

Definition members (g : string) (services : list ServiceNode) : list ServiceNode :=
  filter (λ s, typeOf s = g) services.

Definition membersIn (statusMap : gmap string ServiceStatusSummary)
  (g : string) (b : Bucket) (services : list ServiceNode) : list ServiceNode :=
  filter (λ s, bucketOf (statusCodeOf statusMap s) = b) (members g services).

Definition sumBuckets (c : StatusSummaryCounts) : nat :=
  ok c + degraded c + failed c + starting c + stopped c + unknown c + others c.

(** *** The whole loop, one group at a time *)

Definition bumpFor (statusMap : gmap string ServiceStatusSummary)
  (c : StatusSummaryCounts) (s : ServiceNode) : StatusSummaryCounts :=
  bump (statusCodeOf statusMap s) c.

Definition sampleStatus (sid : string) (code : option Z) : ServiceStatusSummary :=
  {| sum_service_id := sid; stime := ""; sum_last_check := "";
     last_status_code := code; last_message := ""; check_count := 0; failed_count := 0 |}.

(** *** StatusCellRenderer: the fallback counts of a group row *)

(** [ServiceRow = ServiceNode & { _status_code }] *)
Record ServiceRow := {
  row_service : ServiceNode;
  _status_code : option Z
}.

(** The row [rowData] builds for a service. *)
Definition toRow (statusMap : gmap string ServiceStatusSummary) (service : ServiceNode)
  : ServiceRow :=
  {| row_service := service; _status_code := statusCodeOf statusMap service |}.

Definition defaultSummaryCounts (total : nat) : StatusSummaryCounts :=
  {| ok := 0; degraded := 0; failed := 0; starting := 0; stopped := 0;
     unknown := total; others := 0; total := total |}.

(** [counts.unknown = Math.max(0, counts.unknown - 1)] *)
Definition decrementUnknown (c : StatusSummaryCounts) : nat :=
  Z.to_nat (Z.max 0 (Z.of_nat (unknown c) - 1)).

(** [statusByService[id]?.last_status_code ?? service._status_code ?? null] *)
Definition rowStatusCode (statusByService : gmap string ServiceStatusSummary)
  (service : ServiceRow) : option Z :=
  match statusByService !! service_id (row_service service) ≫= last_status_code with
  | Some c => Some c
  | None => _status_code service
  end.

(** One iteration over [node.allLeafChildren]; a child may carry no data. *)
Definition fallbackStep (statusByService : gmap string ServiceStatusSummary)
  (c : StatusSummaryCounts) (child : option ServiceRow) : StatusSummaryCounts :=
  match child with
  | None => c
  | Some service =>
      if decide (service_id (row_service service) = "") then c
      else
        match rowStatusCode statusByService service with
        | Some 0%Z => {| ok := ok c + 1; degraded := degraded c; failed := failed c;
                         starting := starting c; stopped := stopped c;
                         unknown := decrementUnknown c; others := others c;
                         total := total c |}
        | Some 1%Z => {| ok := ok c; degraded := degraded c + 1; failed := failed c;
                         starting := starting c; stopped := stopped c;
                         unknown := decrementUnknown c; others := others c;
                         total := total c |}
        | Some 2%Z => {| ok := ok c; degraded := degraded c; failed := failed c + 1;
                         starting := starting c; stopped := stopped c;
                         unknown := decrementUnknown c; others := others c;
                         total := total c |}
        | Some 3%Z => {| ok := ok c; degraded := degraded c; failed := failed c;
                         starting := starting c + 1; stopped := stopped c;
                         unknown := decrementUnknown c; others := others c;
                         total := total c |}
        | Some 4%Z => {| ok := ok c; degraded := degraded c; failed := failed c;
                         starting := starting c; stopped := stopped c + 1;
                         unknown := decrementUnknown c; others := others c;
                         total := total c |}
        | Some 5%Z | None => c
        | Some _ => {| ok := ok c; degraded := degraded c; failed := failed c;
                       starting := starting c; stopped := stopped c;
                       unknown := decrementUnknown c; others := others c + 1;
                       total := total c |}
        end
  end.

Definition fallbackCounts (statusByService : gmap string ServiceStatusSummary)
  (allLeafChildren : list (option ServiceRow)) : StatusSummaryCounts :=
  foldl (fallbackStep statusByService)
    (defaultSummaryCounts (length allLeafChildren)) allLeafChildren.

(** The children the fallback counts under bucket [b]: those with data and
    a non-empty service id whose status code maps to [b]. *)
Definition countedAs (statusByService : gmap string ServiceStatusSummary) (b : Bucket)
  (child : option ServiceRow) : Prop :=
  match child with
  | None => False
  | Some service =>
      service_id (row_service service) ≠ ""
      ∧ bucketOf (rowStatusCode statusByService service) = b
  end.

Global Instance countedAs_dec statusByService b child :
  Decision (countedAs statusByService b child).
Proof. destruct child; simpl; apply _. Defined.

(** The text of a leaf row's status cell:
    [statusDisplayMap[status.last_status_code ?? 5] ?? statusDisplayMap[5]]. *)
Definition statusDisplayText (last_status_code : option Z) : string :=
  match last_status_code with
  | Some 0%Z => "OK"
  | Some 1%Z => "DEGRADED"
  | Some 2%Z => "FAILED"
  | Some 3%Z => "STARTING"
  | Some 4%Z => "STOPPED"
  | Some 5%Z | None => "UNKNOWN"
  | Some _ => "UNKNOWN"
  end.

(** *** selectNextUpcomingAction *)

(** [WorkflowScheduleSnapshot]: the fields that [selectNextUpcomingAction]
    and the cell renderer read (the declaration of the type is not among the
    sources). [upcoming_action_times] is [None] when it is not an array. *)
Record WorkflowScheduleSnapshot := {
  next_action_time : option string;
  upcoming_action_times : option (list string);
  paused : bool
}.

(** [parseTimestamp]; [dateParse] is [Date.parse], [None] for NaN. *)
Definition parseTimestamp (dateParse : string → option Z) (value : option string)
  : option Z :=
  match value with
  | None | Some "" => None
  | Some v => dateParse v
  end.

Definition scheduleCandidates (snapshot : WorkflowScheduleSnapshot) : list string :=
  (match next_action_time snapshot with
   | None | Some "" => []
   | Some t => [t]
   end)
  ++ default [] (upcoming_action_times snapshot).

(** [nowMs] is [Date.now()]. *)
Definition selectNextUpcomingAction (dateParse : string → option Z) (nowMs : Z)
  (snapshot : WorkflowScheduleSnapshot) : option (string * Z) :=
  let candidates := scheduleCandidates snapshot in
  if decide (candidates = []) then None
  else
    let enriched :=
      omap (λ entry, (λ timestamp, (entry, timestamp))
                       <$> parseTimestamp dateParse (Some entry)) candidates in
    match enriched with
    | [] => None
    | _ =>
        let future :=
          sortWith (λ a b, a.2 - b.2)%Z (filter (λ item, (nowMs ≤ item.2)%Z) enriched) in
        match future with
        | first :: _ => Some first
        | [] =>
            let pastSorted := sortWith (λ a b, b.2 - a.2)%Z enriched in
            head pastSorted
        end
    end.

(** A service whose type is named like a property of [Object.prototype],
    and an ordinary one. *)
Definition inheritedTypeServices : list ServiceNode :=
  [ {| service_id := "s1"; label := "Service 1"; service_type := Some "constructor" |};
    {| service_id := "s2"; label := "Service 2"; service_type := Some "api" |} ].

(** Sample summaries: "A" failed, "C" reports a code outside the enum. *)
Definition sampleSummaries : gmap string ServiceStatusSummary :=
  <["A" := sampleStatus "A" (Some 2%Z)]> (<["C" := sampleStatus "C" (Some 9%Z)]> ∅).

End Tally.

Module Status.

(** ** statusManager.tsx: the StatusManager class

    The class is embedded over an explicit object heap (the status map and
    the status records are JavaScript objects handed around by reference) and
    an explicit browser runtime: timers, connections, requests in flight and
    a log of everything observable from outside the manager. Time is the
    runtime clock in milliseconds. *)

(** *** Objects *)

Record ServiceStatus := {
  service_id : string;
  status_code : Z;
  message : string;
  last_check : string;
  response_time_ms : option Z;
  cpu_usage : option Z;
  memory_usage : option Z;
  details : option string
}.

Definition loc := positive.

(** A [ServiceStatusMap] is a plain object: the map holds its own
    properties, service ids mapped to references to [ServiceStatus]
    objects. [ObjBuiltin name] stands for the built-in value every plain
    object inherits under [name] from [Object.prototype]; two such cells
    with the same name stand for the same built-in object. *)
Inductive object :=
  | ObjStatus (s : ServiceStatus)
  | ObjMap (m : gmap string loc)
  | ObjBuiltin (name : string).

(** *** The browser runtime *)

Inductive TimerKind := Interval | Timeout.

(** The two closures the class hands to [setInterval] / [setTimeout]. *)
Inductive TimerAction :=
  | PollTick          (* () => this.fetchAllStatus() *)
  | ReconnectAttempt. (* the closure scheduled by wsConnection.onclose *)

Record Timer := {
  timer_kind : TimerKind;
  timer_delay : Z;
  timer_due : Z;
  timer_action : TimerAction
}.

Inductive SocketKind := EventSourceSocket | WebSocketSocket.
Inductive ReadyState := CONNECTING | OPEN | CLOSING | CLOSED.

Global Instance SocketKind_eq_dec : EqDecision SocketKind.
Proof. solve_decision. Defined.
Global Instance ReadyState_eq_dec : EqDecision ReadyState.
Proof. solve_decision. Defined.

Record Socket := {
  socket_kind : SocketKind;
  readyState : ReadyState
}.

(** What the caller of an async method does when the request settles. *)
Inductive Continuation :=
  | BatchOnly             (* fetchAllStatus() called for its own sake *)
  | BatchThenInitialize   (* initialize(): await this.fetchAllStatus() *)
  | Single (serviceId : string).

Inductive CallbackArg :=
  | ArgSnapshot (statusMap : loc)
  | ArgError (error : string).

Inductive LogEntry :=
  | StatusCallbackCalled (callback : nat) (statusMap : loc)
  | ErrorCallbackCalled (callback : nat) (error : string)
  | ConsoleError (text : string)
  | ConsoleLog (text : string)
  | RequestSent (url : string)
  | WsSent (socket : positive) (text : string).

Record Runtime := {
  heap : gmap loc object;
  now : Z;
  timers : gmap positive Timer;
  nextTimer : positive;
  sockets : gmap positive Socket;
  nextSocket : positive;
  pending : gmap positive Continuation;
  nextRequest : positive;
  (** whether the body of subscriber [callback] throws on a given argument *)
  throws : nat → CallbackArg → bool;
  log : list LogEntry
}.

(** *** The manager object *)

Record StatusManager := {
  serviceIds : list string;
  statusMap : loc;
  sseConnection : option positive;
  wsConnection : option positive;
  pollInterval : option positive;
  (** JavaScript [Set]s of functions: insertion order, no duplicates *)
  statusUpdateCallbacks : list nat;
  errorCallbacks : list nat;
  FALLBACK_POLL_INTERVAL : Z;
  SSE_ENABLED : bool;
  WS_ENABLED : bool
}.

Record State := {
  this : StatusManager;
  rt : Runtime
}.

(** *** Field updates *)

Definition with_heap (h : gmap loc object) (r : Runtime) : Runtime :=
  {| heap := h; now := now r; timers := timers r; nextTimer := nextTimer r;
     sockets := sockets r; nextSocket := nextSocket r; pending := pending r;
     nextRequest := nextRequest r; throws := throws r; log := log r |}.

Definition with_now (t : Z) (r : Runtime) : Runtime :=
  {| heap := heap r; now := t; timers := timers r; nextTimer := nextTimer r;
     sockets := sockets r; nextSocket := nextSocket r; pending := pending r;
     nextRequest := nextRequest r; throws := throws r; log := log r |}.

Definition with_timers (ts : gmap positive Timer) (n : positive) (r : Runtime) : Runtime :=
  {| heap := heap r; now := now r; timers := ts; nextTimer := n;
     sockets := sockets r; nextSocket := nextSocket r; pending := pending r;
     nextRequest := nextRequest r; throws := throws r; log := log r |}.

Definition with_sockets (ss : gmap positive Socket) (n : positive) (r : Runtime) : Runtime :=
  {| heap := heap r; now := now r; timers := timers r; nextTimer := nextTimer r;
     sockets := ss; nextSocket := n; pending := pending r;
     nextRequest := nextRequest r; throws := throws r; log := log r |}.

Definition with_pending (p : gmap positive Continuation) (n : positive) (r : Runtime) : Runtime :=
  {| heap := heap r; now := now r; timers := timers r; nextTimer := nextTimer r;
     sockets := sockets r; nextSocket := nextSocket r; pending := p;
     nextRequest := n; throws := throws r; log := log r |}.

Definition with_log (l : list LogEntry) (r : Runtime) : Runtime :=
  {| heap := heap r; now := now r; timers := timers r; nextTimer := nextTimer r;
     sockets := sockets r; nextSocket := nextSocket r; pending := pending r;
     nextRequest := nextRequest r; throws := throws r; log := l |}.

Definition with_connections (sse ws : option positive) (m : StatusManager) : StatusManager :=
  {| serviceIds := serviceIds m; statusMap := statusMap m;
     sseConnection := sse; wsConnection := ws; pollInterval := pollInterval m;
     statusUpdateCallbacks := statusUpdateCallbacks m; errorCallbacks := errorCallbacks m;
     FALLBACK_POLL_INTERVAL := FALLBACK_POLL_INTERVAL m;
     SSE_ENABLED := SSE_ENABLED m; WS_ENABLED := WS_ENABLED m |}.

Definition with_pollInterval (p : option positive) (m : StatusManager) : StatusManager :=
  {| serviceIds := serviceIds m; statusMap := statusMap m;
     sseConnection := sseConnection m; wsConnection := wsConnection m; pollInterval := p;
     statusUpdateCallbacks := statusUpdateCallbacks m; errorCallbacks := errorCallbacks m;
     FALLBACK_POLL_INTERVAL := FALLBACK_POLL_INTERVAL m;
     SSE_ENABLED := SSE_ENABLED m; WS_ENABLED := WS_ENABLED m |}.

Definition with_callbacks (scb ecb : list nat) (m : StatusManager) : StatusManager :=
  {| serviceIds := serviceIds m; statusMap := statusMap m;
     sseConnection := sseConnection m; wsConnection := wsConnection m;
     pollInterval := pollInterval m;
     statusUpdateCallbacks := scb; errorCallbacks := ecb;
     FALLBACK_POLL_INTERVAL := FALLBACK_POLL_INTERVAL m;
     SSE_ENABLED := SSE_ENABLED m; WS_ENABLED := WS_ENABLED m |}.

(** *** Control: a state monad with exceptions *)

Inductive Outcome (A : Type) :=
  | Returned (a : A)
  | Thrown (error : string).
Global Arguments Returned {A} a.
Global Arguments Thrown {A} error.

Definition M (A : Type) : Type := State → Outcome A * State.

Definition ret {A} (a : A) : M A := λ s, (Returned a, s).

Definition bind {A B} (m : M A) (k : A → M B) : M B :=
  λ s, match m s with
       | (Returned a, s') => k a s'
       | (Thrown e, s') => (Thrown e, s')
       end.

Definition throw {A} (e : string) : M A := λ s, (Thrown e, s).

(** [try { body } catch (error) { handler }] *)
Definition tryCatch {A} (body : M A) (handler : string → M A) : M A :=
  λ s, match body s with
       | (Thrown e, s') => handler e s'
       | r => r
       end.

Definition get : M State := λ s, (Returned s, s).
Definition modifyThis (f : StatusManager → StatusManager) : M unit :=
  λ s, (Returned tt, {| this := f (this s); rt := rt s |}).
Definition modifyRt (f : Runtime → Runtime) : M unit :=
  λ s, (Returned tt, {| this := this s; rt := f (rt s) |}).

Global Instance M_ret : MRet M := @ret.
Global Instance M_bind : MBind M := λ A B k m, bind m k.

(** [array.forEach(body)] / [for (const x of array) body]: an exception
    thrown by the body leaves the loop. *)
Fixpoint forEachM {A} (body : A → M unit) (l : list A) : M unit :=
  match l with
  | [] => ret tt
  | a :: l' => body a ;; forEachM body l'
  end.

Definition emit (e : LogEntry) : M unit :=
  modifyRt (λ r, with_log (log r ++ [e]) r).

(** [await response]: a rejected promise throws at the await. *)
Definition await {A} (response : Outcome A) : M A :=
  match response with
  | Returned a => ret a
  | Thrown e => throw e
  end.

(** *** Runtime primitives *)

Definition alloc (o : object) : M loc :=
  s ← get;
  let l := fresh (dom (heap (rt s))) in
  modifyRt (λ r, with_heap (<[l := o]> (heap r)) r) ;;
  ret l.

(** A reference to the built-in value every plain object inherits under
    [name]. *)
Definition inherited (name : string) : M loc := alloc (ObjBuiltin name).

Definition readMap (h : gmap loc object) (l : loc) : gmap string loc :=
  match h !! l with
  | Some (ObjMap m) => m
  | _ => ∅
  end.

Definition writeMap (l : loc) (f : gmap string loc → gmap string loc) : M unit :=
  modifyRt (λ r, match heap r !! l with
                 | Some (ObjMap m) => with_heap (<[l := ObjMap (f m)]> (heap r)) r
                 | _ => r
                 end).

Definition setTimer (kind : TimerKind) (action : TimerAction) (delay : Z) : M positive :=
  s ← get;
  let id := nextTimer (rt s) in
  modifyRt (λ r, with_timers
                   (<[id := {| timer_kind := kind; timer_delay := delay;
                               timer_due := (now r + delay)%Z;
                               timer_action := action |}]> (timers r))
                   (Pos.succ id) r) ;;
  ret id.

Definition setInterval := setTimer Interval.
Definition setTimeout := setTimer Timeout.

(** [clearInterval] and [clearTimeout] share one id space. *)
Definition clearInterval (id : positive) : M unit :=
  modifyRt (λ r, with_timers (delete id (timers r)) (nextTimer r) r).

Definition newSocket (kind : SocketKind) : M positive :=
  s ← get;
  let c := nextSocket (rt s) in
  modifyRt (λ r, with_sockets
                   (<[c := {| socket_kind := kind; readyState := CONNECTING |}]> (sockets r))
                   (Pos.succ c) r) ;;
  ret c.

Definition setReadyState (c : positive) (st : ReadyState) : M unit :=
  modifyRt (λ r, with_sockets
                   (alter (λ k, {| socket_kind := socket_kind k; readyState := st |}) c (sockets r))
                   (nextSocket r) r).

Definition readyStateOf (r : Runtime) (c : positive) : ReadyState :=
  match sockets r !! c with
  | Some k => readyState k
  | None => CLOSED
  end.

(** [EventSource.close()]: the source is closed at once and fires no
    further event. *)
Definition closeEventSource (c : positive) : M unit := setReadyState c CLOSED.

(** [WebSocket.close()]: starts the closing handshake unless the socket is
    already closing or closed; the close event is delivered later. *)
Definition closeWebSocket (c : positive) : M unit :=
  s ← get;
  match readyStateOf (rt s) c with
  | CONNECTING | OPEN => setReadyState c CLOSING
  | CLOSING | CLOSED => ret tt
  end.

Definition wsSend (c : positive) (text : string) : M unit := emit (WsSent c text).

(** [axios.get(url)]: the request is recorded as in flight together with
    what resumes when it settles. *)
Definition axiosGet (url : string) (k : Continuation) : M unit :=
  s ← get;
  let id := nextRequest (rt s) in
  modifyRt (λ r, with_pending (<[id := k]> (pending r)) (Pos.succ id) r) ;;
  emit (RequestSent url).

(** *** Subscriber sets *)

Definition setAdd (x : nat) (l : list nat) : list nat :=
  if decide (x ∈ l) then l else l ++ [x].

Definition setDelete (x : nat) (l : list nat) : list nat :=
  filter (λ y, y ≠ x) l.

(** A subscriber body: the call is observable, then the body returns or
    throws. Subscribers are observers: they do not call back into the
    manager while a fan-out is running. *)
Definition callStatusCallback (callback : nat) (statusMap : loc) : M unit :=
  emit (StatusCallbackCalled callback statusMap) ;;
  s ← get;
  if throws (rt s) callback (ArgSnapshot statusMap)
  then throw "callback failed"
  else ret tt.

Definition callErrorCallback (callback : nat) (error : string) : M unit :=
  emit (ErrorCallbackCalled callback error) ;;
  s ← get;
  if throws (rt s) callback (ArgError error)
  then throw "callback failed"
  else ret tt.

(** *** Methods of the class *)

Record StatusManagerOptions := {
  opt_serviceIds : list string;
  enableSSE : option bool;
  enableWebSocket : option bool;
  fallbackPollInterval : option Z
}.

(** [new StatusManager(options)]; the field initialiser [statusMap = {}]
    allocates the map object. *)
Definition construct (options : StatusManagerOptions) (r : Runtime) : State :=
  let l := fresh (dom (heap r)) in
  {| this := {| serviceIds := opt_serviceIds options;
                statusMap := l;
                sseConnection := None; wsConnection := None; pollInterval := None;
                statusUpdateCallbacks := []; errorCallbacks := [];
                FALLBACK_POLL_INTERVAL :=
                  match fallbackPollInterval options with
                  | Some 0%Z | None => 30000%Z
                  | Some n => n
                  end;
                SSE_ENABLED := default true (enableSSE options);
                WS_ENABLED := default false (enableWebSocket options) |};
     rt := with_heap (<[l := ObjMap ∅]> (heap r)) r |}.

Definition onStatusUpdate (callback : nat) : M unit :=
  modifyThis (λ m, with_callbacks (setAdd callback (statusUpdateCallbacks m))
                     (errorCallbacks m) m).

(** The closure [onStatusUpdate] returns. *)
Definition unsubscribeStatus (callback : nat) : M unit :=
  modifyThis (λ m, with_callbacks (setDelete callback (statusUpdateCallbacks m))
                     (errorCallbacks m) m).

Definition onError (callback : nat) : M unit :=
  modifyThis (λ m, with_callbacks (statusUpdateCallbacks m)
                     (setAdd callback (errorCallbacks m)) m).

Definition unsubscribeError (callback : nat) : M unit :=
  modifyThis (λ m, with_callbacks (statusUpdateCallbacks m)
                     (setDelete callback (errorCallbacks m)) m).

Definition cleanup : M unit :=
  s ← get;
  match sseConnection (this s) with
  | Some c =>
      closeEventSource c ;;
      modifyThis (λ m, with_connections None (wsConnection m) m)
  | None => ret tt
  end ;;
  s ← get;
  match wsConnection (this s) with
  | Some c =>
      closeWebSocket c ;;
      modifyThis (λ m, with_connections (sseConnection m) None m)
  | None => ret tt
  end ;;
  s ← get;
  match pollInterval (this s) with
  | Some id =>
      clearInterval id ;;
      modifyThis (with_pollInterval None)
  | None => ret tt
  end ;;
  modifyThis (with_callbacks [] []).

(** [return { ...this.statusMap }]: a new map object with the same entries;
    the entries still refer to the same status objects. *)
Definition getStatusMap : M loc :=
  s ← get;
  alloc (ObjMap (readMap (heap (rt s)) (statusMap (this s)))).

(** [this.statusMap[serviceId] || null]. The store is a plain object: for
    an id it has no entry for and that is named like a property of
    [Object.prototype], the lookup yields the inherited built-in value. *)
Definition getServiceStatus (serviceId : string) : M (option loc) :=
  s ← get;
  match readMap (heap (rt s)) (statusMap (this s)) !! serviceId with
  | Some status => ret (Some status)
  | None =>
      if decide (serviceId ∈ objectPrototypeKeys)
      then status ← inherited serviceId; ret (Some status)
      else ret None
  end.

Definition notifyStatusUpdate : M unit :=
  statusMap ← getStatusMap;
  s ← get;
  forEachM
    (λ callback,
       tryCatch (callStatusCallback callback statusMap)
         (λ error, emit (ConsoleError "Error in status update callback")))
    (statusUpdateCallbacks (this s)).

Definition notifyError (error : string) : M unit :=
  s ← get;
  forEachM
    (λ callback,
       tryCatch (callErrorCallback callback error)
         (λ callbackError, emit (ConsoleError "Error in error callback")))
    (errorCallbacks (this s)).

Definition updateServiceStatus (serviceId : string) (status : loc) : M unit :=
  s ← get;
  writeMap (statusMap (this s)) (λ m, <[serviceId := status]> m) ;;
  notifyStatusUpdate.

(** [fetchServiceStatus]: up to the await, and from the await on. *)
Definition fetchServiceStatus_start (serviceId : string) : M unit :=
  axiosGet ("/status/" +:+ serviceId) (Single serviceId).

Definition fetchServiceStatus_resume (serviceId : string) (response : Outcome loc)
  : M (option loc) :=
  tryCatch
    (status ← await response;
     updateServiceStatus serviceId status ;;
     ret (Some status))
    (λ error,
       notifyError ("Failed to fetch status for " +:+ serviceId +:+ ": " +:+ error) ;;
       ret None).

(** [fetchAllStatus]: up to the await, and from the await on. The parsed
    response is a plain object: [statusMap[serviceId]] is the record of the
    response when it has one and, for a service id named like a property of
    [Object.prototype], the inherited built-in value otherwise; both are
    truthy. *)
Definition fetchAllStatus_start (k : Continuation) : M unit :=
  axiosGet "/api/status/batch" k.

Definition fetchAllStatus_resume (response : Outcome (gmap string loc)) : M unit :=
  tryCatch
    (statusMap ← await response;
     s ← get;
     forEachM
       (λ serviceId,
          match statusMap !! serviceId with
          | Some status => updateServiceStatus serviceId status
          | None =>
              if decide (serviceId ∈ objectPrototypeKeys)
              then status ← inherited serviceId;
                   updateServiceStatus serviceId status
              else ret tt
          end)
       (serviceIds (this s)))
    (λ error, notifyError ("Failed to fetch batch status: " +:+ error)).

Definition startFallbackPolling : M unit :=
  s ← get;
  id ← setInterval PollTick (FALLBACK_POLL_INTERVAL (this s));
  modifyThis (with_pollInterval (Some id)).

Definition resetFallbackPolling : M unit :=
  s ← get;
  match pollInterval (this s) with
  | Some id =>
      clearInterval id ;;
      startFallbackPolling
  | None => ret tt
  end.

Definition accelerateFallbackPolling : M unit :=
  s ← get;
  match pollInterval (this s) with
  | Some id =>
      clearInterval id ;;
      id' ← setInterval PollTick 5000%Z;
      modifyThis (with_pollInterval (Some id'))
  | None => ret tt
  end.

(** *** Live channels

    Each connection is created with the same handlers, and the handlers
    read [this], not the connection that fired; they are therefore methods
    here. *)

Definition statusServiceId (h : gmap loc object) (l : loc) : option string :=
  match h !! l with
  | Some (ObjStatus st) => Some (service_id st)
  | _ => None
  end.

(** [sseConnection.onmessage]; [data] is the outcome of [JSON.parse]. *)
Definition sse_onmessage (data : Outcome loc) : M unit :=
  tryCatch
    (statusUpdate ← await data;
     s ← get;
     match statusServiceId (heap (rt s)) statusUpdate with
     | Some sid =>
         if bool_decide (sid ∈ serviceIds (this s))
         then updateServiceStatus sid statusUpdate ;;
              resetFallbackPolling
         else ret tt
     | None => ret tt
     end)
    (λ error, notifyError ("SSE message parsing error: " +:+ error)).

Definition sse_onerror : M unit :=
  emit (ConsoleError "SSE connection error") ;;
  accelerateFallbackPolling.

Definition sse_onopen : M unit :=
  emit (ConsoleLog "SSE connection established").

Definition establishSSEConnection : M unit :=
  tryCatch
    (c ← newSocket EventSourceSocket;
     modifyThis (λ m, with_connections (Some c) (wsConnection m) m))
    (λ error, notifyError ("Failed to establish SSE connection: " +:+ error)).

Inductive WsIncoming :=
  | WsStatusUpdate (serviceId : string) (status : loc)
  | WsSubscriptionConfirmed
  | WsOtherType.

Definition ws_onopen : M unit :=
  emit (ConsoleLog "WebSocket connection established") ;;
  s ← get;
  match wsConnection (this s) with
  | Some c => wsSend c "subscribe"
  | None => ret tt
  end.

Definition ws_onmessage (data : Outcome WsIncoming) : M unit :=
  tryCatch
    (message ← await data;
     s ← get;
     match message with
     | WsStatusUpdate serviceId status =>
         if bool_decide (serviceId ∈ serviceIds (this s))
         then updateServiceStatus serviceId status ;;
              resetFallbackPolling
         else ret tt
     | WsSubscriptionConfirmed =>
         emit (ConsoleLog "WebSocket subscription confirmed")
     | WsOtherType => ret tt
     end)
    (λ error, notifyError ("WebSocket message parsing error: " +:+ error)).

Definition ws_onerror : M unit :=
  emit (ConsoleError "WebSocket error") ;;
  notifyError "WebSocket connection error".

Definition establishWebSocketConnection : M unit :=
  tryCatch
    (c ← newSocket WebSocketSocket;
     modifyThis (λ m, with_connections (sseConnection m) (Some c) m))
    (λ error, notifyError ("Failed to establish WebSocket connection: " +:+ error)).

(** The closure handed to [setTimeout] by [onclose]. *)
Definition reconnectAttempt : M unit :=
  s ← get;
  match wsConnection (this s) with
  | None => establishWebSocketConnection
  | Some c =>
      match readyStateOf (rt s) c with
      | CLOSED => establishWebSocketConnection
      | _ => ret tt
      end
  end.

Definition ws_onclose : M unit :=
  emit (ConsoleLog "WebSocket connection closed") ;;
  accelerateFallbackPolling ;;
  _ ← setTimeout ReconnectAttempt 5000%Z;
  ret tt.

(** [initialize]: up to [await this.fetchAllStatus()], and what follows it. *)
Definition initialize_start : M unit := fetchAllStatus_start BatchThenInitialize.

Definition initialize_resume : M unit :=
  s ← get;
  (if WS_ENABLED (this s) then establishWebSocketConnection
   else if SSE_ENABLED (this s) then establishSSEConnection
   else ret tt) ;;
  startFallbackPolling.

(** *** The event loop

    One event is one turn of the loop: a call from the owner of the manager,
    a timer that is due, a request that settles, or a connection event.
    Timers fire on time: the clock cannot move past a timer that is due. An
    exception that leaves a handler ends the turn and nothing else. *)

Inductive Call :=
  | CallInitialize
  | CallCleanup
  | CallOnStatusUpdate (callback : nat)
  | CallUnsubscribeStatus (callback : nat)
  | CallOnError (callback : nat)
  | CallUnsubscribeError (callback : nat)
  | CallFetchAllStatus
  | CallFetchServiceStatus (serviceId : string).

Inductive Event :=
  | Tick (dt : Z)
  | TimerFired (id : positive)
  | BatchSettled (request : positive) (response : Outcome (list (string * ServiceStatus)))
  | SingleSettled (request : positive) (response : Outcome ServiceStatus)
  | SseOpened (c : positive)
  | SseMessage (c : positive) (data : Outcome ServiceStatus)
  | SseErrored (c : positive)
  | WsOpened (c : positive)
  | WsStatusMessage (c : positive) (serviceId : string) (status : ServiceStatus)
  | WsMalformedMessage (c : positive) (error : string)
  | WsClosed (c : positive)
  | WsErrored (c : positive)
  | Called (call : Call).

(** [JSON.parse] of a batch response: one fresh status object per entry. *)
Fixpoint parseBatch (entries : list (string * ServiceStatus)) : M (gmap string loc) :=
  match entries with
  | [] => ret ∅
  | (k, st) :: rest =>
      l ← alloc (ObjStatus st);
      m ← parseBatch rest;
      ret (match m !! k with Some _ => m | None => <[k := l]> m end)
  end.

Definition runTimerAction (a : TimerAction) : M unit :=
  match a with
  | PollTick => fetchAllStatus_start BatchOnly
  | ReconnectAttempt => reconnectAttempt
  end.

Definition socketIs (r : Runtime) (c : positive) (kind : SocketKind)
  (ok : ReadyState → bool) : bool :=
  match sockets r !! c with
  | Some k =>
      bool_decide (socket_kind k = kind) && ok (readyState k)
  | None => false
  end.

Definition isLive (st : ReadyState) : bool :=
  match st with CONNECTING | OPEN => true | _ => false end.
Definition isOpen (st : ReadyState) : bool :=
  match st with OPEN => true | _ => false end.
Definition notClosed (st : ReadyState) : bool :=
  match st with CLOSED => false | _ => true end.

Definition enabled (e : Event) (s : State) : bool :=
  let r := rt s in
  match e with
  | Tick dt =>
      bool_decide (0 ≤ dt)%Z
      && bool_decide (map_Forall (λ _ t, (now r + dt ≤ timer_due t)%Z) (timers r))
  | TimerFired id =>
      match timers r !! id with
      | Some t => bool_decide (timer_due t ≤ now r)%Z
      | None => false
      end
  | BatchSettled q _ =>
      match pending r !! q with
      | Some (BatchOnly | BatchThenInitialize) => true
      | _ => false
      end
  | SingleSettled q _ =>
      match pending r !! q with
      | Some (Single _) => true
      | _ => false
      end
  | SseOpened c => socketIs r c EventSourceSocket (λ st, bool_decide (st = CONNECTING))
  | SseMessage c _ => socketIs r c EventSourceSocket isOpen
  | SseErrored c => socketIs r c EventSourceSocket isLive
  | WsOpened c => socketIs r c WebSocketSocket (λ st, bool_decide (st = CONNECTING))
  | WsStatusMessage c _ _ | WsMalformedMessage c _ => socketIs r c WebSocketSocket isOpen
  | WsClosed c => socketIs r c WebSocketSocket notClosed
  | WsErrored c => socketIs r c WebSocketSocket notClosed
  | Called _ => true
  end.

Definition handle (e : Event) : M unit :=
  match e with
  | Tick dt => modifyRt (λ r, with_now (now r + dt)%Z r)
  | TimerFired id =>
      s ← get;
      match timers (rt s) !! id with
      | Some t =>
          match timer_kind t with
          | Timeout => clearInterval id
          | Interval =>
              modifyRt (λ r, with_timers
                               (<[id := {| timer_kind := Interval;
                                           timer_delay := timer_delay t;
                                           timer_due := (timer_due t + timer_delay t)%Z;
                                           timer_action := timer_action t |}]> (timers r))
                               (nextTimer r) r)
          end ;;
          runTimerAction (timer_action t)
      | None => ret tt
      end
  | BatchSettled q response =>
      s ← get;
      let k := pending (rt s) !! q in
      modifyRt (λ r, with_pending (delete q (pending r)) (nextRequest r) r) ;;
      data ← match response with
             | Returned entries => m ← parseBatch entries; ret (Returned m)
             | Thrown e => ret (Thrown e)
             end;
      fetchAllStatus_resume data ;;
      match k with
      | Some BatchThenInitialize => initialize_resume
      | _ => ret tt
      end
  | SingleSettled q response =>
      s ← get;
      let k := pending (rt s) !! q in
      modifyRt (λ r, with_pending (delete q (pending r)) (nextRequest r) r) ;;
      data ← match response with
             | Returned st => l ← alloc (ObjStatus st); ret (Returned l)
             | Thrown e => ret (Thrown e)
             end;
      match k with
      | Some (Single serviceId) =>
          _ ← fetchServiceStatus_resume serviceId data; ret tt
      | _ => ret tt
      end
  | SseOpened c => setReadyState c OPEN ;; sse_onopen
  | SseMessage c data =>
      parsed ← match data with
               | Returned st => l ← alloc (ObjStatus st); ret (Returned l)
               | Thrown e => ret (Thrown e)
               end;
      sse_onmessage parsed
  | SseErrored c => setReadyState c CONNECTING ;; sse_onerror
  | WsOpened c => setReadyState c OPEN ;; ws_onopen
  | WsStatusMessage c serviceId st =>
      l ← alloc (ObjStatus st);
      ws_onmessage (Returned (WsStatusUpdate serviceId l))
  | WsMalformedMessage c error => ws_onmessage (Thrown error)
  | WsClosed c => setReadyState c CLOSED ;; ws_onclose
  | WsErrored c => ws_onerror
  | Called CallInitialize => initialize_start
  | Called CallCleanup => cleanup
  | Called (CallOnStatusUpdate cb) => onStatusUpdate cb
  | Called (CallUnsubscribeStatus cb) => unsubscribeStatus cb
  | Called (CallOnError cb) => onError cb
  | Called (CallUnsubscribeError cb) => unsubscribeError cb
  | Called CallFetchAllStatus => fetchAllStatus_start BatchOnly
  | Called (CallFetchServiceStatus serviceId) => fetchServiceStatus_start serviceId
  end.

(** Run a schedule; [None] when an event is not enabled where it stands. *)
Fixpoint run (es : list Event) (s : State) : option State :=
  match es with
  | [] => Some s
  | e :: es' =>
      if enabled e s then run es' (handle e s).2 else None
  end.

(** *** Concrete configurations used below *)

Definition bootRuntime (behaviour : nat → CallbackArg → bool) : Runtime :=
  {| heap := ∅; now := 0%Z; timers := ∅; nextTimer := 1%positive;
     sockets := ∅; nextSocket := 1%positive;
     pending := ∅; nextRequest := 1%positive;
     throws := behaviour; log := [] |}.

Definition neverThrows : nat → CallbackArg → bool := λ _ _, false.

Definition sampleStatus (sid : string) (code : Z) : ServiceStatus :=
  {| service_id := sid; status_code := code; message := "";
     last_check := ""; response_time_ms := None; cpu_usage := None;
     memory_usage := None; details := None |}.

Definition wsManager : State :=
  construct {| opt_serviceIds := ["a"; "b"]; enableSSE := None;
               enableWebSocket := Some true; fallbackPollInterval := None |}
    (bootRuntime neverThrows).

Definition sseManager : State :=
  construct {| opt_serviceIds := ["a"; "b"]; enableSSE := None;
               enableWebSocket := None; fallbackPollInterval := None |}
    (bootRuntime neverThrows).

(** *** Specification vocabulary *)

(** The store is well formed when [this.statusMap] refers to a map object. *)
Definition wf (s : State) : Prop :=
  ∃ m, heap (rt s) !! statusMap (this s) = Some (ObjMap m).

(** What the store holds, read through [this.statusMap]. *)
Definition storeOf (s : State) : gmap string loc :=
  readMap (heap (rt s)) (statusMap (this s)).

(** The status record a point lookup yields, dereferenced. *)
Definition lookupStatus (m : StatusManager) (h : gmap loc object) (serviceId : string)
  : option ServiceStatus :=
  l ← readMap h (statusMap m) !! serviceId;
  match h !! l with
  | Some (ObjStatus st) => Some st
  | _ => None
  end.

Definition statusCalls (entries : list LogEntry) : list (nat * loc) :=
  omap (λ e, match e with
             | StatusCallbackCalled cb snapshot => Some (cb, snapshot)
             | _ => None
             end) entries.

Definition errorCalls (entries : list LogEntry) : list (nat * string) :=
  omap (λ e, match e with
             | ErrorCallbackCalled cb error => Some (cb, error)
             | _ => None
             end) entries.

(** How many times subscriber [cb] was handed a snapshot. *)
Definition notificationsTo (cb : nat) (entries : list LogEntry) : nat :=
  length (filter (λ p, p.1 = cb) (statusCalls entries)).

(** What one fan-out adds to the log. *)
Definition statusFanout (behaviour : nat → CallbackArg → bool) (snapshot : loc)
  (callbacks : list nat) : list LogEntry :=
  callbacks ≫= λ cb,
    StatusCallbackCalled cb snapshot
    :: (if behaviour cb (ArgSnapshot snapshot)
        then [ConsoleError "Error in status update callback"] else []).

Definition errorFanout (behaviour : nat → CallbackArg → bool) (error : string)
  (callbacks : list nat) : list LogEntry :=
  callbacks ≫= λ cb,
    ErrorCallbackCalled cb error
    :: (if behaviour cb (ArgError error)
        then [ConsoleError "Error in error callback"] else []).

Definition logged (entries : list LogEntry) (s : State) : State :=
  {| this := this s; rt := with_log (log (rt s) ++ entries) (rt s) |}.

(** The state [getStatusMap] leaves, and the reference it returns. *)
Definition snapshotLoc (s : State) : loc := fresh (dom (heap (rt s))).

Definition snapshotted (s : State) : State :=
  {| this := this s;
     rt := with_heap (<[snapshotLoc s := ObjMap (storeOf s)]> (heap (rt s))) (rt s) |}.

(** *** The store *)

(** Everything but the heap and the log is the same in both states. *)
Record sameControl (s s' : State) : Prop := {
  same_this : this s' = this s;
  same_now : now (rt s') = now (rt s);
  same_timers : timers (rt s') = timers (rt s);
  same_nextTimer : nextTimer (rt s') = nextTimer (rt s);
  same_sockets : sockets (rt s') = sockets (rt s);
  same_nextSocket : nextSocket (rt s') = nextSocket (rt s);
  same_pending : pending (rt s') = pending (rt s);
  same_nextRequest : nextRequest (rt s') = nextRequest (rt s);
  same_throws : throws (rt s') = throws (rt s)
}.

(** The state after [this.statusMap[serviceId] = status]. *)
Definition stored (serviceId : string) (status : loc) (s : State) : State :=
  {| this := this s;
     rt := match heap (rt s) !! statusMap (this s) with
           | Some (ObjMap m) =>
               with_heap (<[statusMap (this s) := ObjMap (<[serviceId := status]> m)]>
                            (heap (rt s))) (rt s)
           | _ => rt s
           end |}.

(** The tracked ids the loop of [fetchAllStatus] applies a record for. *)
Definition applied (response : gmap string loc) (ids : list string) : list string :=
  filter (λ sid, is_Some (response !! sid)) ids.

Definition fanouts (behaviour : nat → CallbackArg → bool) (callbacks : list nat)
  (snapshots : list loc) : list LogEntry :=
  snapshots ≫= λ snapshot, statusFanout behaviour snapshot callbacks.

(** The store after the records [response] holds for [ids] have been
    written into [store] one after the other. *)
Definition written (response : gmap string loc) (ids : list string)
  (store : gmap string loc) : gmap string loc :=
  foldl (λ m sid, match response !! sid with
                  | Some l => <[sid := l]> m
                  | None => m
                  end) store ids.

(** A sample response with a record for "a" and one for "b". *)
Definition sampleResponse : gmap string loc :=
  <["a" := 10%positive]> (<["b" := 11%positive]> ∅).

(** *** Snapshots

    What the holder of a value returned by [getStatusMap] can do to it. *)
Inductive Mutation :=
  | SetEntry (key : string) (value : loc)        (* snapshot[key] = value *)
  | DeleteEntry (key : string)                     (* delete snapshot[key] *)
  | AssignRecord (key : string) (st : ServiceStatus).
      (* Object.assign(snapshot[key], st); snapshot[key].status_code = c is
         the case where [st] differs from the record in that field only *)

Definition mutate (snapshot : loc) (h : gmap loc object) (mu : Mutation)
  : gmap loc object :=
  match mu with
  | SetEntry k v =>
      match h !! snapshot with
      | Some (ObjMap m) => <[snapshot := ObjMap (<[k := v]> m)]> h
      | _ => h
      end
  | DeleteEntry k =>
      match h !! snapshot with
      | Some (ObjMap m) => <[snapshot := ObjMap (delete k m)]> h
      | _ => h
      end
  | AssignRecord k st =>
      match readMap h snapshot !! k with
      | Some l =>
          match h !! l with
          | Some (ObjStatus _) => <[l := ObjStatus st]> h
          | _ => h
          end
      | None => h
      end
  end.

(** Mutations of the returned mapping itself, as opposed to mutations of a
    record it refers to. *)
Definition topLevel (mu : Mutation) : bool :=
  match mu with
  | SetEntry _ _ | DeleteEntry _ => true
  | AssignRecord _ _ => false
  end.

(** *** The fallback poller *)

Definition pollTimer (delay due : Z) : Timer :=
  {| timer_kind := Interval; timer_delay := delay; timer_due := due;
     timer_action := PollTick |}.

(** In [s'] the poll timer held before (id [old]) is gone and the manager
    holds a new one with the given period, first due one period after the
    clock of [s]. *)
Definition rearmed (s s' : State) (old : positive) (delay : Z) : Prop :=
  ∃ id, pollInterval (this s') = Some id
        ∧ timers (rt s') !! id = Some (pollTimer delay (now (rt s) + delay))
        ∧ (old ≠ id → timers (rt s') !! old = None).

(** *** Concrete states and schedules used below *)

Definition twoRecords : list (string * ServiceStatus) :=
  [("a", sampleStatus "a" 0); ("b", sampleStatus "b" 2)].

Definition subscribedManager : State := (onStatusUpdate 7 sseManager).2.

Definition storeWithA : State :=
  default sseManager
    (run [Called CallFetchAllStatus;
          BatchSettled 1 (Returned [("a", sampleStatus "a" 0)])] sseManager).

Definition wsLive : list Event :=
  [Called CallInitialize; BatchSettled 1 (Returned []); WsOpened 1].

Definition connectionView (s : State) :=
  (wsConnection (this s), pollInterval (this s), statusUpdateCallbacks (this s),
   map_to_list (sockets (rt s)), map_to_list (timers (rt s)), now (rt s)).

Definition sseLive : list Event :=
  [Called CallInitialize; BatchSettled 1 (Returned []); SseOpened 1].

Definition sseLiveState : State := default sseManager (run sseLive sseManager).

Definition trackedUpdate : loc := 9%positive.

Definition sseLiveWithUpdate : State :=
  {| this := this sseLiveState;
     rt := with_heap (<[trackedUpdate := ObjStatus (sampleStatus "a" 1)]>
                        (heap (rt sseLiveState))) (rt sseLiveState) |}.

(** *** Requests in flight *)



(** A manager with one status subscriber and a batch fetch in flight. *)
Definition fetchInFlight : State :=
  default sseManager
    (run [Called (CallOnStatusUpdate 7); Called CallFetchAllStatus] sseManager).

(** *** Reachable states *)

(** The fields the constructor sets and no method assigns. *)
Definition configOf (m : StatusManager) : list string * loc * Z * bool * bool :=
  (serviceIds m, statusMap m, FALLBACK_POLL_INTERVAL m, SSE_ENABLED m, WS_ENABLED m).

(** What the manager's fields promise about the runtime: the store is a map
    object, the subscriber sets hold no duplicates, the timer handle held in
    [pollInterval] names a live interval timer that runs [fetchAllStatus],
    the connections held name sockets of the right kind, and the ids the
    runtime hands out next are unused. *)
Record consistent (s : State) : Prop := {
  cons_store : wf s;
  cons_status_set : NoDup (statusUpdateCallbacks (this s));
  cons_error_set : NoDup (errorCallbacks (this s));
  cons_poll : ∀ id, pollInterval (this s) = Some id →
                    ∃ delay due, timers (rt s) !! id = Some (pollTimer delay due);
  cons_timer_ids : ∀ id, is_Some (timers (rt s) !! id) → (id < nextTimer (rt s))%positive;
  cons_sse : ∀ c, sseConnection (this s) = Some c →
                  ∃ st, sockets (rt s) !! c
                        = Some {| socket_kind := EventSourceSocket; readyState := st |};
  cons_ws : ∀ c, wsConnection (this s) = Some c →
                 ∃ st, sockets (rt s) !! c
                       = Some {| socket_kind := WebSocketSocket; readyState := st |};
  cons_socket_ids : ∀ c, is_Some (sockets (rt s) !! c) → (c < nextSocket (rt s))%positive
}.

Definition good (cfg : list string * loc * Z * bool * bool) (s : State) : Prop :=
  consistent s ∧ configOf (this s) = cfg.

(** A computation that leaves a good state good, whether it returns or
    throws. *)
Definition keeps {A} (cfg : list string * loc * Z * bool * bool) (m : M A) : Prop :=
  ∀ s, good cfg s → good cfg (m s).2.

(** *** Failures *)

(** From [s] to [s'] nothing happened but a report of [msg]: the log grew
    by entries among which no status subscriber is called and every error
    subscriber is called once with [msg], in subscription order. *)
Definition reported (msg : string) (s s' : State) : Prop :=
  ∃ new, s' = logged new s
         ∧ statusCalls new = []
         ∧ errorCalls new = (λ cb, (cb, msg)) <$> errorCallbacks (this s).

(** The one-shot timer [onclose] schedules. *)
Definition reconnectTimer (due : Z) : Timer :=
  {| timer_kind := Timeout; timer_delay := 5000; timer_due := due;
     timer_action := ReconnectAttempt |}.

Definition connecting (kind : SocketKind) : Socket :=
  {| socket_kind := kind; readyState := CONNECTING |}.

(** A manager with an open socket and the poller running. *)
Definition wsLiveState : State := default wsManager (run wsLive wsManager).

End Status.

(** * Part II: properties *)

(** ** The dependency graph *)

Module GraphTheory.
Import Graph.

(** *** Loops *)

Lemma forEach_ext {A S : Type} (f g : A → S → option S) (l : list A) (s : S) :
  (∀ a s', f a s' = g a s') → forEach f l s = forEach g l s.
Proof.
  intros Hfg. revert s. induction l as [|a l IH]; intros s; simpl; [done|].
  rewrite Hfg. destruct (g a s); [apply IH|done].
Qed.

Lemma forEach_fmap {A B S : Type} (h : A → B) (f : B → S → option S)
  (l : list A) (s : S) :
  forEach f (h <$> l) s = forEach (λ a, f (h a)) l s.
Proof.
  revert s. induction l as [|a l IH]; intros s; simpl; [done|].
  destruct (f (h a) s); [apply IH|done].
Qed.

(** *** Correctness of the traversal *)

Lemma size_list_to_set_le (l : list string) :
  size (list_to_set l : gset string) ≤ length l.
Proof.
  induction l as [|a l IH].
  - rewrite list_to_set_nil, size_empty. done.
  - rewrite list_to_set_cons. cbn [length].
    rewrite size_union_alt, size_singleton.
    assert (Hs : size (list_to_set l ∖ {[a]} : gset string) ≤ size (list_to_set l : gset string))
      by (apply subseteq_size; set_solver).
    lia.
Qed.

Section Traversal.
Variable edges : list Edge.

Let R := edgeStep edges.
Let T : gset string := list_to_set (target <$> edges).

Lemma closedIn_mono w w' v : extends w w' → closedIn edges w v → closedIn edges w' v.
Proof.
  intros [Hv Hf] Hc e He Hs. pose proof (Hc e He Hs) as [? ?]. split; set_solver.
Qed.

Lemma target_in_T e : e ∈ edges → target e ∈ T.
Proof.
  intros He. subst T. apply elem_of_list_to_set, list_elem_of_fmap. eauto.
Qed.

Lemma T_size : size T ≤ length edges.
Proof.
  unfold T. etrans; [apply size_list_to_set_le|]. by rewrite length_fmap.
Qed.

(** The loop over the out-edges of [x], given the guarantee for the
    recursive calls at the smaller budget. *)
Lemma forEach_findDownstream f x :
  (∀ y w, size ((T ∪ {[y]}) ∖ visited w) < f →
          ∃ w', findDownstream f edges y w = Some w' ∧ callPost edges y w w') →
  ∀ es wi,
    (∀ e, e ∈ es → e ∈ edges ∧ source e = x) →
    x ∈ visited wi →
    size (T ∖ visited wi) < f →
    ∃ w',
      forEach (λ edge w0,
                 findDownstream f edges (target edge)
                   {| visited := visited w0; found := {[target edge]} ∪ found w0 |})
              es wi = Some w'
      ∧ extends wi w'
      ∧ (∀ e, e ∈ es → target e ∈ visited w' ∧ target e ∈ found w')
      ∧ (∀ v, v ∈ visited w' → v ∉ visited wi → closedIn edges w' v)
      ∧ (∀ v, v ∈ visited w' → v ∈ visited wi ∨ rtc R x v)
      ∧ (∀ d, d ∈ found w' → d ∈ found wi ∨ tc R x d).
Proof.
  intros IHf es. induction es as [|e es IHes]; intros wi Hes Hx Hsz.
  - exists wi. simpl. split; [done|]. split; [done|]. split; [set_solver|].
    split; [done|]. split; intros; by left.
  - assert (He : e ∈ edges ∧ source e = x) by (apply Hes; left).
    destruct He as [He Hsrc].
    assert (HR : R x (target e)) by (exists e; done).
    pose proof (target_in_T e He) as HeT.
    destruct (IHf (target e)
                {| visited := visited wi; found := {[target e]} ∪ found wi |})
      as (w1 & Hcall & [[Hv1 Hf1] Hself1 Hcl1 Hvis1 Hfound1]).
    { simpl. eapply Nat.le_lt_trans; [|exact Hsz].
      apply subseteq_size. set_solver. }
    simpl in *.
    destruct (IHes w1) as (w' & Hloop & [Hv' Hf'] & Htg & Hcl' & Hvis' & Hfound').
    { intros e' He'. apply Hes. by right. }
    { set_solver. }
    { eapply Nat.le_lt_trans; [|exact Hsz]. apply subseteq_size. set_solver. }
    exists w'. rewrite Hcall. split; [exact Hloop|].
    split; [split; set_solver|].
    split.
    { intros e' [->|He']%elem_of_cons; [|by apply Htg].
      split; [set_solver|]. apply Hf', Hf1. set_solver. }
    split.
    { intros v Hv Hnew.
      destruct (decide (v ∈ visited w1)) as [Hin|Hnin].
      - apply (closedIn_mono w1); [by split|]. by apply Hcl1.
      - by apply Hcl'. }
    split.
    { intros v Hv. destruct (Hvis' v Hv) as [Hin|?]; [|by right].
      destruct (Hvis1 v Hin) as [?|Hr]; [by left|].
      right. eapply rtc_l; [exact HR|exact Hr]. }
    intros d Hd. destruct (Hfound' d Hd) as [Hin|?]; [|by right].
    destruct (Hfound1 d Hin) as [[->%elem_of_singleton|?]%elem_of_union|Ht].
    + right. by apply tc_once.
    + by left.
    + right. eapply tc_l; [exact HR|exact Ht].
Qed.

Lemma findDownstream_callPost fuel :
  ∀ x w, size ((T ∪ {[x]}) ∖ visited w) < fuel →
         ∃ w', findDownstream fuel edges x w = Some w' ∧ callPost edges x w w'.
Proof.
  induction fuel as [|f IHf]; intros x w Hsz; [lia|].
  simpl. destruct (decide (x ∈ visited w)) as [Hin|Hnin].
  - exists w. split; [done|]. split; try done.
    + intros; by left.
    + intros; by left.
  - destruct (forEach_findDownstream f x IHf
                (filter (λ edge, source edge = x) edges)
                {| visited := {[x]} ∪ visited w; found := found w |})
      as (w' & Hloop & [Hv' Hf'] & Htg & Hcl' & Hvis' & Hfound').
    { intros e [? ?]%list_elem_of_filter. done. }
    { set_solver. }
    { simpl.
      assert (size (T ∖ ({[x]} ∪ visited w)) < size ((T ∪ {[x]}) ∖ visited w))
        by (apply subset_size; set_solver).
      lia. }
    simpl in *. exists w'. split; [exact Hloop|]. split.
    + split; set_solver.
    + set_solver.
    + intros v Hv Hnew. destruct (decide (v = x)) as [->|Hne].
      * intros e He Hs. apply Htg. apply list_elem_of_filter. done.
      * apply Hcl'; [done|]. set_solver.
    + intros v Hv. destruct (Hvis' v Hv) as [[->%elem_of_singleton|?]%elem_of_union|?].
      * right. apply rtc_refl.
      * by left.
      * by right.
    + exact Hfound'.
Qed.

(** The budget of [get_downstream_dependents] is never exhausted, and the
    recorded set is exactly the set of vertices reachable in one or more
    steps. *)
Lemma findDownstream_returns x :
  ∃ w, findDownstream (walkBudget edges) edges x emptyWalk = Some w
       ∧ ∀ d, d ∈ found w ↔ tc R x d.
Proof.
  destruct (findDownstream_callPost (walkBudget edges) x emptyWalk)
    as (w & Hw & [_ Hself Hcl Hvis Hfound]).
  { unfold walkBudget. simpl. pose proof T_size.
    eapply Nat.le_lt_trans; [apply subseteq_size with (Y := T ∪ {[x]}); set_solver|].
    rewrite size_union_alt.
    assert (Hs : size ({[x]} ∖ T) ≤ size ({[x]} : gset string))
      by (apply subseteq_size; set_solver).
    rewrite size_singleton in Hs. lia. }
  exists w. split; [done|]. intros d. split.
  - intros Hd. destruct (Hfound d Hd) as [Hin|?]; [|done]. set_solver.
  - intros Ht.
    assert (Hgen : ∀ v, v ∈ visited w → tc R v d → d ∈ found w).
    { clear Ht. intros v Hv Ht. induction Ht as [a b [e (He & <- & <-)]|a b c [e (He & <- & <-)] Ht IH].
      - apply (Hcl (source e)); [done|set_solver|done|done].
      - apply IH. apply (Hcl (source e)); [done|set_solver|done|done]. }
    by apply (Hgen x).
Qed.

End Traversal.

(** *** Upstream is downstream on the reversed edges *)

Lemma filter_flipEdge x (edges : list Edge) :
  filter (λ edge, source edge = x) (flipEdge <$> edges)
  = flipEdge <$> filter (λ edge, target edge = x) edges.
Proof.
  induction edges as [|e es IH]; [done|].
  rewrite fmap_cons, !filter_cons, IH. simpl.
  destruct (decide (target e = x)); done.
Qed.

Lemma findUpstream_flip fuel edges x w :
  findUpstream fuel edges x w = findDownstream fuel (flipEdge <$> edges) x w.
Proof.
  revert x w. induction fuel as [|f IH]; intros x w; [done|].
  simpl. destruct (decide (x ∈ visited w)); [done|].
  rewrite filter_flipEdge, forEach_fmap.
  apply forEach_ext. intros e w'. simpl. apply IH.
Qed.

Lemma edgeStep_flip edges a b :
  edgeStep (flipEdge <$> edges) a b ↔ edgeStep edges b a.
Proof.
  unfold edgeStep. split.
  - intros (e & (e0 & -> & He0)%list_elem_of_fmap & <- & <-). by exists e0.
  - intros (e & He & <- & <-). exists (flipEdge e). split; [|done].
    apply list_elem_of_fmap. by exists e.
Qed.

Lemma tc_converse {A} (R R' : relation A) x y :
  (∀ a b, R' a b ↔ R b a) → tc R' x y ↔ tc R y x.
Proof.
  intros HR. split.
  - induction 1 as [a b H|a b c H _ IH].
    + apply tc_once. by apply HR.
    + eapply tc_r; [exact IH|]. by apply HR.
  - induction 1 as [a b H|a b c H _ IH].
    + apply tc_once. by apply HR.
    + eapply tc_r; [exact IH|]. by apply HR.
Qed.

(** *** What the queries return *)

Lemma nodeIds_filter (P : string → Prop) `{!∀ s, Decision (P s)} nodes z :
  z ∈ nodeIds (filter (λ node, P (id node)) nodes) ↔ z ∈ nodeIds nodes ∧ P z.
Proof.
  unfold nodeIds. rewrite !list_elem_of_fmap. split.
  - intros (n & -> & [? ?]%list_elem_of_filter). eauto.
  - intros [(n & -> & Hn) HP]. exists n. split; [done|].
    by apply list_elem_of_filter.
Qed.

(** Both queries always return, and what they return is the node list
    filtered by reachability in one or more steps. *)
Lemma get_downstream_dependents_returns x nodes edges :
  ∃ r, get_downstream_dependents x nodes edges = Some r
       ∧ ∀ z, z ∈ nodeIds r ↔ z ∈ nodeIds nodes ∧ tc (edgeStep edges) x z.
Proof.
  destruct (findDownstream_returns edges x) as (w & Hw & Hfound).
  unfold get_downstream_dependents. rewrite Hw. simpl. eexists. split; [done|].
  intros z. pose proof (nodeIds_filter (λ s, s ∈ found w) nodes z) as Hf.
  simpl in Hf. by rewrite Hf, Hfound.
Qed.

Lemma get_upstream_dependencies_returns x nodes edges :
  ∃ r, get_upstream_dependencies x nodes edges = Some r
       ∧ ∀ z, z ∈ nodeIds r ↔ z ∈ nodeIds nodes ∧ tc (edgeStep edges) z x.
Proof.
  destruct (findDownstream_returns (flipEdge <$> edges) x) as (w & Hw & Hfound).
  unfold get_upstream_dependencies. rewrite findUpstream_flip.
  unfold walkBudget in *. rewrite length_fmap in Hw. rewrite Hw. simpl.
  eexists. split; [done|].
  intros z. pose proof (nodeIds_filter (λ s, s ∈ found w) nodes z) as Hf.
  simpl in Hf. rewrite Hf, Hfound.
  by rewrite (tc_converse (edgeStep edges) _ x z (edgeStep_flip edges)).
Qed.

Lemma inDownstream_iff nodes edges x z :
  inDownstream nodes edges x z ↔ z ∈ nodeIds nodes ∧ tc (edgeStep edges) x z.
Proof.
  destruct (get_downstream_dependents_returns x nodes edges) as (r & Hr & Hspec).
  unfold inDownstream. rewrite <- Hspec. split.
  - intros (r' & Hr' & Hz). congruence.
  - intros Hz. by exists r.
Qed.

Lemma inUpstream_iff nodes edges x z :
  inUpstream nodes edges x z ↔ z ∈ nodeIds nodes ∧ tc (edgeStep edges) z x.
Proof.
  destruct (get_upstream_dependencies_returns x nodes edges) as (r & Hr & Hspec).
  unfold inUpstream. rewrite <- Hspec. split.
  - intros (r' & Hr' & Hz). congruence.
  - intros Hz. by exists r.
Qed.

(** *** The examples of the specification *)

Example chain_downstream_A :
  nodeIds <$> get_downstream_dependents "A" chainNodes chainEdges = Some ["B"; "C"].
Proof. vm_compute. reflexivity. Qed.

Example chain_upstream_C :
  nodeIds <$> get_upstream_dependencies "C" chainNodes chainEdges = Some ["A"; "B"].
Proof. vm_compute. reflexivity. Qed.

(** An id that no edge mentions has no dependents, whether or not it is a
    node. *)
Example unknown_id_downstream :
  get_downstream_dependents "nope" chainNodes chainEdges = Some [].
Proof. vm_compute. reflexivity. Qed.

(** *** Properties of the traversals *)

(** C2, as stated, fails on the two-node cycle: the walk from A records A
    itself when it follows the edge B→A, so the origin is returned among its
    own downstream dependents (and likewise among its upstream
    dependencies). *)
Lemma two_cycle_returns_origin :
  nodeIds <$> get_downstream_dependents "A" cycleNodes cycleEdges = Some ["A"; "B"]
  ∧ nodeIds <$> get_downstream_dependents "B" cycleNodes cycleEdges = Some ["A"; "B"]
  ∧ nodeIds <$> get_upstream_dependencies "A" cycleNodes cycleEdges = Some ["A"; "B"]
  ∧ inDownstream cycleNodes cycleEdges "A" "A"
  ∧ inUpstream cycleNodes cycleEdges "A" "A".
Proof.
  split; [vm_compute; reflexivity|].
  split; [vm_compute; reflexivity|].
  split; [vm_compute; reflexivity|].
  split.
  - exists cycleNodes. split; [vm_compute; reflexivity|]. by left.
  - exists cycleNodes. split; [vm_compute; reflexivity|]. by left.
Qed.

(** C2, amended: both queries always return; a service id is among its own
    downstream dependents (upstream dependencies) exactly when it is a node
    id and lies on a cycle of the edge relation, so an id that lies on no
    cycle is never returned for itself. On the two-node cycle A→B, B→A the
    downstream set of A and of B is {A, B}. *)
Theorem origin_returned_iff_on_cycle nodes edges x :
  (inDownstream nodes edges x x ↔ x ∈ nodeIds nodes ∧ tc (edgeStep edges) x x)
  ∧ (inUpstream nodes edges x x ↔ x ∈ nodeIds nodes ∧ tc (edgeStep edges) x x)
  ∧ is_Some (get_downstream_dependents x nodes edges)
  ∧ is_Some (get_upstream_dependencies x nodes edges)
  ∧ nodeIds <$> get_downstream_dependents "A" cycleNodes cycleEdges = Some ["A"; "B"]
  ∧ nodeIds <$> get_downstream_dependents "B" cycleNodes cycleEdges = Some ["A"; "B"].
Proof.
  split; [apply inDownstream_iff|].
  split; [apply inUpstream_iff|].
  split.
  { destruct (get_downstream_dependents_returns x nodes edges) as (r & -> & _). by eexists. }
  split.
  { destruct (get_upstream_dependencies_returns x nodes edges) as (r & -> & _). by eexists. }
  split; vm_compute; reflexivity.
Qed.

(** C7: the downstream query computes the transitive closure of the
    source-to-target edge relation, restricted to the node list: for every
    node and edge list the call for [x] returns, and an id [z] is among the
    nodes it returns exactly when [z] is the id of a node and can be
    reached from [x] over one or more edges. Hence downstream membership is
    transitive: if [y] is returned for [x] and [z] is returned for [y],
    then [z] is returned for [x]. *)
Theorem downstream_transitive nodes edges x y z :
  (∃ r, get_downstream_dependents x nodes edges = Some r)
  ∧ (inDownstream nodes edges x z ↔ z ∈ nodeIds nodes ∧ tc (edgeStep edges) x z)
  ∧ (inDownstream nodes edges x y →
     inDownstream nodes edges y z →
     inDownstream nodes edges x z).
Proof.
  split.
  { destruct (get_downstream_dependents_returns x nodes edges) as (r & Hr & _).
    by exists r. }
  split; [apply inDownstream_iff|].
  rewrite !inDownstream_iff. intros [_ Hxy] [Hz Hyz]. split; [done|].
  by etrans.
Qed.

Lemma downstream_transitive_chain :
  inDownstream chainNodes chainEdges "A" "B"
  ∧ inDownstream chainNodes chainEdges "B" "C"
  ∧ inDownstream chainNodes chainEdges "A" "C"
  ∧ (inDownstream chainNodes chainEdges "A" "C"
     ↔ "C" ∈ nodeIds chainNodes ∧ tc (edgeStep chainEdges) "A" "C").
Proof.
  assert (HAB : inDownstream chainNodes chainEdges "A" "B").
  { eexists. split; [vm_compute; reflexivity|]. apply list_elem_of_In. simpl. tauto. }
  assert (HBC : inDownstream chainNodes chainEdges "B" "C").
  { eexists. split; [vm_compute; reflexivity|]. apply list_elem_of_In. simpl. tauto. }
  destruct (downstream_transitive chainNodes chainEdges "A" "B" "C") as (_ & Hiff & Htrans).
  split; [exact HAB|]. split; [exact HBC|]. split; [exact (Htrans HAB HBC)|exact Hiff].
Defined.

(** The query reads the edges: in a graph whose nodes are not connected
    nothing is downstream of anything. *)
Example downstream_reads_the_edges :
  get_downstream_dependents "A" chainNodes [] = Some []
  ∧ get_downstream_dependents "C" chainNodes chainEdges = Some [].
Proof. split; vm_compute; reflexivity. Qed.

(** *** The outage-affected set *)

Lemma forEach_add_ids (deps : list Node) (acc : gset string) :
  forEach (λ dep acc', Some ({[id dep]} ∪ acc')) deps acc
  = Some (list_to_set (nodeIds deps) ∪ acc).
Proof.
  revert acc. induction deps as [|d deps IH]; intros acc; simpl.
  - f_equal. set_solver.
  - rewrite IH. f_equal. set_solver.
Qed.

Lemma forEach_outage nodes edges (roots : list string) (acc : gset string) :
  ∃ A,
    forEach
      (λ outageServiceId affected,
         dependents ← get_downstream_dependents outageServiceId nodes edges;
         forEach (λ dep acc', Some ({[id dep]} ∪ acc')) dependents
           ({[outageServiceId]} ∪ affected))
      roots acc = Some A
    ∧ ∀ z, z ∈ A ↔
           z ∈ acc ∨ z ∈ roots ∨ ∃ r, r ∈ roots ∧ inDownstream nodes edges r z.
Proof.
  revert acc. induction roots as [|r roots IH]; intros acc; simpl.
  - exists acc. split; [done|]. intros z. split; [by left|].
    intros [?|[?%elem_of_nil|(r & ?%elem_of_nil & _)]]; done.
  - destruct (get_downstream_dependents_returns r nodes edges) as (ds & Hds & Hspec).
    rewrite Hds. simpl. rewrite forEach_add_ids.
    destruct (IH (list_to_set (nodeIds ds) ∪ ({[r]} ∪ acc))) as (A & HA & HAspec).
    exists A. split; [exact HA|]. intros z. rewrite HAspec.
    rewrite !elem_of_union, elem_of_list_to_set, elem_of_singleton, elem_of_cons.
    split.
    + intros [[Hz|[->|Hz]]|[Hz|(r' & Hr' & Hz)]].
      * right; right. exists r. split; [by left|]. by exists ds.
      * right; left. by left.
      * by left.
      * right; left. by right.
      * right; right. exists r'. split; [by right|done].
    + intros [Hz|[[->|Hz]|(r' & [->|Hr']%elem_of_cons & Hz)]].
      * left. right. by right.
      * left. right. by left.
      * right. by left.
      * left. left. destruct Hz as (ds' & Hds' & Hz). congruence.
      * right. right. by exists r'.
Qed.


Example outageAffected_chain :
  elements <$> outageAffectedIds chainServices chainRelations ["A"]
  = Some (elements ({[ "A"; "B"; "C" ]} : gset string)).
Proof. vm_compute. reflexivity. Qed.

Example outageAffected_no_roots :
  outageAffectedIds chainServices chainRelations [] = Some ∅.
Proof. reflexivity. Qed.

(** *** Sorting *)

Lemma insertBy_Permutation {A} (compare : A → A → Z) x (l : list A) :
  insertBy compare x l ≡ₚ x :: l.
Proof.
  induction l as [|y l IH]; [done|]. simpl.
  destruct (decide (compare x y ≤ 0)%Z); [done|].
  rewrite IH. apply Permutation_swap.
Qed.

Lemma sortWith_Permutation {A} (compare : A → A → Z) (l : list A) :
  sortWith compare l ≡ₚ l.
Proof.
  induction l as [|x l IH]; [done|].
  unfold sortWith in *. simpl. by rewrite insertBy_Permutation, IH.
Qed.

Lemma sortWith_elem_of {A} (compare : A → A → Z) (l : list A) x :
  x ∈ sortWith compare l ↔ x ∈ l.
Proof. by rewrite sortWith_Permutation. Qed.

(** *** More about the traversals *)

Lemma tc_iff {A} (R R' : relation A) x y :
  (∀ a b, R a b ↔ R' a b) → tc R x y ↔ tc R' x y.
Proof.
  intros HR. split; induction 1 as [a b H|a b c H _ IH].
  - apply tc_once. by apply HR.
  - eapply tc_l; [by apply HR|done].
  - apply tc_once. by apply HR.
  - eapply tc_l; [by apply HR|done].
Qed.

Lemma found_eq_of_steps x edges edges' w w' :
  (∀ a b, edgeStep edges a b ↔ edgeStep edges' a b) →
  (∀ d, d ∈ found w ↔ tc (edgeStep edges) x d) →
  (∀ d, d ∈ found w' ↔ tc (edgeStep edges') x d) →
  found w = found w'.
Proof.
  intros Hsteps Hw Hw'. apply set_eq. intros d.
  rewrite Hw, Hw'. by apply tc_iff.
Qed.

Lemma filter_none {A} (P : A → Prop) `{!∀ x, Decision (P x)} (l : list A) :
  (∀ x, x ∈ l → ¬ P x) → filter P l = [].
Proof.
  induction l as [|x l IH]; intros Hno; [done|].
  rewrite filter_cons. destruct (decide (P x)) as [HP|_].
  - destruct (Hno x); [by left|done].
  - apply IH. intros y Hy. apply Hno. by right.
Qed.

(** X1: [get_upstream_dependencies] returns exactly the nodes from which
    the queried id can be reached in one or more steps, and it mirrors
    [get_downstream_dependents]: for two node ids, z is upstream of x exactly
    when x is downstream of z. *)
Theorem upstream_mirrors_downstream nodes edges x z :
  (inUpstream nodes edges x z ↔ z ∈ nodeIds nodes ∧ tc (edgeStep edges) z x)
  ∧ (x ∈ nodeIds nodes → z ∈ nodeIds nodes →
     (inUpstream nodes edges x z ↔ inDownstream nodes edges z x)).
Proof.
  split; [apply inUpstream_iff|].
  intros Hx Hz. rewrite inUpstream_iff, inDownstream_iff. tauto.
Qed.

(** X2: the traversals depend on the edge list only through its set of
    (source, target) pairs: reordering the edges, repeating one, or giving
    them other ids does not change what either query returns. *)
Theorem traversal_ignores_edge_order nodes edges edges' x :
  (∀ a b, edgeStep edges a b ↔ edgeStep edges' a b) →
  get_downstream_dependents x nodes edges = get_downstream_dependents x nodes edges'
  ∧ get_upstream_dependencies x nodes edges = get_upstream_dependencies x nodes edges'.
Proof.
  intros Hsteps. split.
  - destruct (findDownstream_returns edges x) as (w & Hw & Hfound).
    destruct (findDownstream_returns edges' x) as (w' & Hw' & Hfound').
    unfold get_downstream_dependents. rewrite Hw, Hw'. simpl.
    by rewrite (found_eq_of_steps x edges edges' w w').
  - destruct (findDownstream_returns (flipEdge <$> edges) x) as (w & Hw & Hfound).
    destruct (findDownstream_returns (flipEdge <$> edges') x) as (w' & Hw' & Hfound').
    unfold get_upstream_dependencies. rewrite !findUpstream_flip.
    unfold walkBudget in *. rewrite !length_fmap in *. rewrite Hw, Hw'. simpl.
    rewrite (found_eq_of_steps x (flipEdge <$> edges) (flipEdge <$> edges') w w'); try done.
    intros a b. rewrite !edgeStep_flip. apply Hsteps.
Qed.

Lemma traversal_ignores_edge_order_sample :
  (∀ a b, edgeStep chainEdges a b
          ↔ edgeStep (mkEdge "B" "C" :: mkEdge "A" "B" :: chainEdges) a b)
  ∧ get_downstream_dependents "A" chainNodes chainEdges
    = get_downstream_dependents "A" chainNodes (mkEdge "B" "C" :: mkEdge "A" "B" :: chainEdges)
  ∧ get_upstream_dependencies "A" chainNodes chainEdges
    = get_upstream_dependencies "A" chainNodes (mkEdge "B" "C" :: mkEdge "A" "B" :: chainEdges).
Proof.
  assert (H : ∀ a b, edgeStep chainEdges a b
                     ↔ edgeStep (mkEdge "B" "C" :: mkEdge "A" "B" :: chainEdges) a b).
  { intros a b. unfold edgeStep. split.
    - intros (e & He & Hs & Ht). exists e. split; [|done]. by do 2 right.
    - intros (e & He & Hs & Ht).
      apply elem_of_cons in He as [->|He].
      { exists (tempEdge {| relation_id := "r2"; rel_source := "B"; rel_target := "C" |}).
        split; [|done]. right. left. }
      apply elem_of_cons in He as [->|He].
      { exists (tempEdge {| relation_id := "r1"; rel_source := "A"; rel_target := "B" |}).
        split; [|done]. left. }
      by exists e. }
  split; [exact H|].
  exact (traversal_ignores_edge_order chainNodes chainEdges _ "A" H).
Defined.

(** X3: what [get_downstream_dependents] returns is a sub-list of the node
    list, in node order: an edge target that is not a node is never
    returned. An id with no outgoing edge (an unknown id included) has no
    downstream dependents. *)
Theorem downstream_result_shape nodes edges x :
  ∃ r, get_downstream_dependents x nodes edges = Some r
       ∧ r `sublist_of` nodes
       ∧ ((∀ e, e ∈ edges → source e ≠ x) → r = []).
Proof.
  destruct (findDownstream_returns edges x) as (w & Hw & Hfound).
  unfold get_downstream_dependents. rewrite Hw. simpl. eexists. split; [done|].
  split; [apply sublist_filter|].
  intros Hno. apply filter_none. intros n _ Hn. apply Hfound in Hn.
  assert (Hfirst : ∃ y, edgeStep edges x y).
  { clear -Hn. induction Hn as [a b H|a b c H _ _]; by exists b. }
  destruct Hfirst as (y & e & He & Hs & _). by apply (Hno e).
Qed.

(** *** The layout's classification of nodes and edges *)

Lemma nodeIds_tempNode serviceNodes :
  nodeIds (tempNode <$> serviceNodes) = service_id <$> serviceNodes.
Proof. unfold nodeIds. rewrite <- list_fmap_compose. done. Qed.

Lemma outageAffectedIds_returns serviceNodes serviceEdges outageService :
  ∃ A,
    outageAffectedIds serviceNodes serviceEdges outageService = Some A
    ∧ ∀ z, z ∈ A ↔
           z ∈ outageService
           ∨ ∃ r, r ∈ outageService
                  ∧ inDownstream (tempNode <$> serviceNodes) (tempEdge <$> serviceEdges) r z.
Proof.
  destruct (forEach_outage (tempNode <$> serviceNodes) (tempEdge <$> serviceEdges)
              outageService ∅) as (A & HA & Hspec).
  exists A. split; [exact HA|]. intros z. rewrite Hspec. set_solver.
Qed.

(** X4: in the layout a service node is styled "outage-node" exactly when
    it is one of the outage services, and "outage-dependent-node" exactly
    when it is not one of them but is a downstream dependent of one; these
    two classes take precedence over "selected-node" and
    "highlighted-node". *)
Theorem layout_node_classes serviceNodes serviceEdges outageService
  (highlightedNodeIds : gset string) (selectedNodeId : option string) :
  ∃ A,
    outageAffectedIds serviceNodes serviceEdges outageService = Some A
    ∧ ∀ i,
        (nodeClassName A outageService highlightedNodeIds selectedNodeId i = "outage-node"
         ↔ service_id i ∈ outageService)
        ∧ (nodeClassName A outageService highlightedNodeIds selectedNodeId i
           = "outage-dependent-node"
           ↔ (service_id i ∉ outageService)
             ∧ ∃ r, r ∈ outageService
                    ∧ inDownstream (tempNode <$> serviceNodes) (tempEdge <$> serviceEdges)
                        r (service_id i))
        ∧ (nodeClassName A outageService highlightedNodeIds selectedNodeId i = "selected-node"
           → (service_id i ∉ A) ∧ selectedNodeId = Some (service_id i)).
Proof.
  destruct (outageAffectedIds_returns serviceNodes serviceEdges outageService)
    as (A & HA & Hmem).
  exists A. split; [exact HA|]. intros i. unfold nodeClassName.
  pose proof (Hmem (service_id i)) as Hi.
  destruct (decide (service_id i ∈ outageService)) as [Hout|Hout].
  - rewrite (bool_decide_eq_true_2 _ Hout). simpl. repeat split; try done.
    intros [? _]. done.
  - rewrite (bool_decide_eq_false_2 _ Hout). simpl.
    destruct (decide (service_id i ∈ A)) as [HinA|HinA].
    + rewrite (bool_decide_eq_true_2 _ HinA). simpl. repeat split; try done.
      apply Hi in HinA as [?|?]; done.
    + rewrite (bool_decide_eq_false_2 _ HinA). simpl.
      assert (Hnodep : ¬ ∃ r, r ∈ outageService
                ∧ inDownstream (tempNode <$> serviceNodes) (tempEdge <$> serviceEdges)
                    r (service_id i)).
      { intros Hdep. apply HinA, Hi. by right. }
      repeat case_bool_decide; simpl; repeat split; try done; tauto.
Qed.

(** X5: outage spreads along relations: when the source of a relation is
    outage-affected and its target is a service of the layout, the target is
    outage-affected too and the relation is drawn with class "outage"; a
    relation that leaves an outage service is drawn "outage" whatever its
    target. *)
Theorem outage_spreads_along_edges serviceNodes serviceEdges outageService
  (highlightedNodeIds : gset string) :
  ∃ A,
    outageAffectedIds serviceNodes serviceEdges outageService = Some A
    ∧ (∀ rel, rel ∈ serviceEdges →
              rel_source rel ∈ A →
              rel_target rel ∈ (service_id <$> serviceNodes) →
              rel_target rel ∈ A
              ∧ edgeClassName A outageService highlightedNodeIds rel = "outage")
    ∧ (∀ rel, rel_source rel ∈ outageService →
              edgeClassName A outageService highlightedNodeIds rel = "outage").
Proof.
  destruct (outageAffectedIds_returns serviceNodes serviceEdges outageService)
    as (A & HA & Hmem).
  exists A. split; [exact HA|]. split.
  - intros rel Hrel Hsrc Htgt.
    assert (Hstep : edgeStep (tempEdge <$> serviceEdges) (rel_source rel) (rel_target rel)).
    { exists (tempEdge rel). split; [|done]. apply list_elem_of_fmap. by exists rel. }
    assert (HtA : rel_target rel ∈ A).
    { apply Hmem. right. rewrite <- nodeIds_tempNode in Htgt.
      apply Hmem in Hsrc as [Hroot|(r & Hr & Hdown)].
      - exists (rel_source rel). split; [done|]. apply inDownstream_iff.
        split; [done|]. by apply tc_once.
      - exists r. split; [done|]. apply inDownstream_iff.
        apply inDownstream_iff in Hdown as [_ Hpath].
        split; [done|]. eapply tc_r; [exact Hpath|exact Hstep]. }
    split; [exact HtA|]. unfold edgeClassName.
    by rewrite (bool_decide_eq_true_2 _ Hsrc), (bool_decide_eq_true_2 _ HtA).
  - intros rel Hsrc. unfold edgeClassName.
    rewrite (bool_decide_eq_true_2 _ Hsrc). by rewrite orb_true_r.
Qed.

(** *** The dependency dialog *)

Lemma edgeStep_snoc edges e a b :
  edgeStep (edges ++ [e]) a b ↔ edgeStep edges a b ∨ (source e = a ∧ target e = b).
Proof.
  unfold edgeStep. split.
  - intros (e' & [He'|He']%elem_of_app & Hs & Ht).
    + left. by exists e'.
    + apply list_elem_of_singleton in He' as ->. by right.
  - intros [(e' & He' & Hs & Ht)|[Hs Ht]].
    + exists e'. split; [|done]. apply elem_of_app. by left.
    + exists e. split; [|done]. apply elem_of_app. right. by apply list_elem_of_singleton.
Qed.

(** A path in a relation extended by the pair (c, s) is a path of the
    relation itself, or passes through the new pair. *)
Lemma tc_extended {A} (R R' : relation A) c s a b :
  (∀ x y, R' x y ↔ R x y ∨ (x = c ∧ y = s)) →
  tc R' a b → tc R a b ∨ (rtc R a c ∧ rtc R s b).
Proof.
  intros HR'. induction 1 as [x y H|x y z H _ IH].
  - apply HR' in H as [H|[-> ->]]; [left; by apply tc_once|right; done].
  - apply HR' in H as [H|[-> ->]].
    + destruct IH as [IH|[IH1 IH2]].
      * left. by eapply tc_l.
      * right. split; [|done]. by eapply rtc_l.
    + right. split; [done|]. destruct IH as [IH|[_ IH2]]; [by apply tc_rtc|done].
Qed.

(** X6: the services offered in the dependency dialog are the services
    other than the selected one that the selected one does not reach; so
    storing the relation from an offered service to the selected node in the
    cached topology closes no cycle: an acyclic topology stays acyclic. *)
Theorem offered_upstream_keeps_acyclic localeCompare fc sel relationId :
  ∃ offered,
    availableUpstreamServices localeCompare (Some fc) (Some sel) = Some offered
    ∧ (∀ c, c ∈ offered ↔
            c ∈ serviceNodes fc
            ∧ service_id c ≠ id sel
            ∧ ¬ tc (edgeStep (tempEdge <$> serviceRelations fc)) (id sel) (service_id c))
    ∧ (∀ c, c ∈ offered →
            ∃ fc',
              appendRelationToFlowChartCache (submittedDependency relationId c sel) (Some fc)
              = Some fc'
              ∧ ((∀ x, ¬ tc (edgeStep (tempEdge <$> serviceRelations fc)) x x) →
                 ∀ x, ¬ tc (edgeStep (tempEdge <$> serviceRelations fc')) x x)).
Proof.
  destruct (get_downstream_dependents_returns (id sel) (tempNode <$> serviceNodes fc)
              (tempEdge <$> serviceRelations fc)) as (dd & Hdd & Hspec).
  unfold availableUpstreamServices. rewrite Hdd. simpl. eexists. split; [done|].
  assert (Hoffered : ∀ c,
            c ∈ sortWith (byTypeThenLabel localeCompare)
                  (filter (λ service,
                     service_id service ∉ ({[id sel]} ∪ list_to_set (id <$> dd) : gset string))
                     (serviceNodes fc))
            ↔ c ∈ serviceNodes fc
              ∧ service_id c ≠ id sel
              ∧ ¬ tc (edgeStep (tempEdge <$> serviceRelations fc)) (id sel) (service_id c)).
  { intros c. rewrite sortWith_elem_of, list_elem_of_filter.
    rewrite not_elem_of_union, not_elem_of_singleton, elem_of_list_to_set.
    fold (nodeIds dd). rewrite Hspec, nodeIds_tempNode.
    split.
    - intros [[Hne Hnot] Hin]. split; [done|]. split; [done|].
      intros Hpath. apply Hnot. split; [|done]. apply list_elem_of_fmap. by exists c.
    - intros (Hin & Hne & Hnot). split; [|done]. split; [done|]. intros [_ ?]. done. }
  split; [exact Hoffered|].
  intros c Hc. apply Hoffered in Hc as (Hin & Hne & Hnot).
  unfold appendRelationToFlowChartCache, submittedDependency. simpl.
  case_bool_decide as Hex; (eexists; split; [done|]); [done|].
  intros Hacyclic x Hcycle. simpl in Hcycle.
  rewrite fmap_app in Hcycle. simpl in Hcycle.
  apply (tc_extended (edgeStep (tempEdge <$> serviceRelations fc)) _
           (service_id c) (id sel)) in Hcycle.
  - destruct Hcycle as [Hold|[Hxc Hsx]]; [by apply (Hacyclic x)|].
    assert (Hsc : rtc (edgeStep (tempEdge <$> serviceRelations fc)) (id sel) (service_id c))
      by (by etrans).
    apply rtc_tc in Hsc as [Heq|Hsc]; [by apply Hne|by apply Hnot].
  - intros a b. rewrite edgeStep_snoc. simpl. naive_solver.
Qed.

(** X7: the two cache updaters. Appending a relation keeps the services,
    makes the relation id present, keeps relation ids unique, and is
    idempotent; removing by id leaves exactly the relations with another id;
    removing a relation just appended under a new id gives the cache back;
    an undefined cache entry stays undefined. *)
Theorem relation_cache_updates relation relationId fc :
  (∃ fc',
      appendRelationToFlowChartCache relation (Some fc) = Some fc'
      ∧ serviceNodes fc' = serviceNodes fc
      ∧ ref_relation_id relation ∈ (relation_id <$> serviceRelations fc')
      ∧ (NoDup (relation_id <$> serviceRelations fc)
         → NoDup (relation_id <$> serviceRelations fc'))
      ∧ appendRelationToFlowChartCache relation (Some fc') = Some fc'
      ∧ (ref_relation_id relation ∉ (relation_id <$> serviceRelations fc)
         → removeRelationFromFlowChartCache (ref_relation_id relation) (Some fc') = Some fc))
  ∧ (∃ fc',
      removeRelationFromFlowChartCache relationId (Some fc) = Some fc'
      ∧ serviceNodes fc' = serviceNodes fc
      ∧ ∀ r, r ∈ serviceRelations fc'
             ↔ r ∈ serviceRelations fc ∧ relation_id r ≠ relationId)
  ∧ appendRelationToFlowChartCache relation None = None
  ∧ removeRelationFromFlowChartCache relationId None = None.
Proof.
  destruct fc as [nodes rels]. split; [|split; [|done]].
  - unfold appendRelationToFlowChartCache. simpl.
    case_bool_decide as Hex.
    + exists {| serviceNodes := nodes; serviceRelations := rels |}. simpl.
      split; [done|]. split; [done|].
      assert (Hin : ref_relation_id relation ∈ (relation_id <$> rels)).
      { apply Exists_exists in Hex as (r & Hr & Hid).
        apply list_elem_of_fmap. by exists r. }
      split; [done|]. split; [done|].
      split; [by rewrite bool_decide_eq_true_2|]. intros Hnot. done.
    + eexists. split; [done|]. simpl. split; [done|].
      split; [rewrite fmap_app; apply elem_of_app; right; by left|].
      split.
      { intros Hnd. rewrite fmap_app. apply NoDup_app. split; [done|]. split.
        - intros rid Hrid [->|?%elem_of_nil]%elem_of_cons; [|done].
          apply Hex, Exists_exists. apply list_elem_of_fmap in Hrid as (r & Hid & Hr).
          by exists r.
        - apply NoDup_singleton. }
      split.
      { rewrite bool_decide_eq_true_2; [done|].
        apply Exists_app. right. by left. }
      intros _. unfold removeRelationFromFlowChartCache. simpl.
      rewrite filter_app.
      assert (Hkeep : filter (λ r, relation_id r ≠ ref_relation_id relation) rels = rels).
      { clear -Hex. induction rels as [|r rels IH]; [done|].
        rewrite filter_cons. destruct (decide (relation_id r ≠ ref_relation_id relation)) as [_|Heq].
        - f_equal. apply IH. intros Hex'. apply Hex. by right.
        - destruct Hex. left. by destruct (decide (relation_id r = ref_relation_id relation)). }
      rewrite Hkeep, filter_cons. simpl.
      destruct (decide (ref_relation_id relation ≠ ref_relation_id relation)); [done|].
      rewrite filter_nil, app_nil_r, length_app. simpl.
      destruct (decide (length rels = length rels + 1)); [lia|done].
  - unfold removeRelationFromFlowChartCache. simpl.
    destruct (decide (length (filter (λ r, relation_id r ≠ relationId) rels) = length rels))
      as [Hlen|Hlen].
    + exists {| serviceNodes := nodes; serviceRelations := rels |}. simpl.
      split; [done|]. split; [done|]. intros r. split; [|tauto].
      intros Hr. split; [done|]. intros Heq.
      assert (Hlt : length (filter (λ r, relation_id r ≠ relationId) rels) < length rels).
      { apply (length_filter_lt _ _ r); [done|]. intros Hne. by apply Hne. }
      lia.
    + eexists. split; [done|]. simpl. split; [done|]. intros r.
      rewrite list_elem_of_filter. tauto.
Qed.

(** *** The outage flag of a card *)

Lemma filter_ne_id (x : string) (l : list string) :
  x ∉ l → filter (λ i, i ≠ x) l = l.
Proof.
  induction l as [|y l IH]; intros Hnot; [done|].
  rewrite filter_cons. destruct (decide (y ≠ x)) as [_|Heq].
  - f_equal. apply IH. intros ?. apply Hnot. by right.
  - destruct Hnot. destruct (decide (x = y)) as [->|Hne]; [by left|].
    destruct Heq. intros ->. done.
Qed.

(** X8: the effect that flags a card's service. With the list the card was
    rendered with as the state it updates: status 0 takes the service out of
    the outage list, status 1, 2 or 4 puts it in (once), any other status or
    no status leaves the list as it is; no other service is added or
    removed, a duplicate-free list stays duplicate-free, and running the
    effect again on its own result changes nothing. *)
Theorem outageEffect_settles (code : option Z) (serviceId : string)
  (outageService : list string) :
  let next := outageEffect code serviceId outageService outageService in
  (serviceId ≠ "" → code = Some 0%Z → serviceId ∉ next)
  ∧ (serviceId ≠ "" → code = Some 1%Z ∨ code = Some 2%Z ∨ code = Some 4%Z →
     serviceId ∈ next)
  ∧ ((∀ c, code = Some c → c ∉ [0; 1; 2; 4]%Z) → next = outageService)
  ∧ (serviceId = "" → next = outageService)
  ∧ (∀ other, other ≠ serviceId → other ∈ next ↔ other ∈ outageService)
  ∧ (NoDup outageService → NoDup next)
  ∧ outageEffect code serviceId next next = next.
Proof.
  intros next. subst next. unfold outageEffect.
  destruct (decide (serviceId = "")) as [Hempty|Hid].
  { repeat split; try done. }
  destruct code as [c|]; [|repeat split; try done; intros _ [?|[?|?]]; done].
  destruct (decide (c = 0)%Z) as [->|Hc0].
  - destruct (decide (serviceId ∈ outageService)) as [Hin|Hnin].
    + assert (Hout : serviceId ∉ filter (λ i, i ≠ serviceId) outageService).
      { intros [Hne _]%list_elem_of_filter. done. }
      split; [done|]. split; [intros _ [?|[?|?]]; done|].
      split; [intros Hc; destruct (Hc 0%Z eq_refl); by left|].
      split; [done|]. split.
      { intros other Hne. rewrite list_elem_of_filter. tauto. }
      split; [apply NoDup_filter|].
      by rewrite decide_False.
    + split; [done|]. split; [intros _ [?|[?|?]]; done|].
      split; [done|]. split; [done|]. split; [done|]. split; [done|].
      by rewrite decide_False.
  - destruct (decide (c ∈ [1; 2; 4]%Z ∧ serviceId ∉ outageService)) as [[Hc Hnin]|Hno].
    + assert (Hin : serviceId ∈ (outageService ++ [serviceId])%list).
      { apply elem_of_app. right. by left. }
      split; [intros _ [= ->]; done|]. split; [done|].
      split; [intros Hnot; destruct (Hnot c eq_refl); by right|].
      split; [done|]. split.
      { intros other Hne. rewrite elem_of_app, list_elem_of_singleton. tauto. }
      split.
      { intros Hnd. apply NoDup_app. split; [done|]. split; [|apply NoDup_singleton].
        intros x Hx ->%list_elem_of_singleton. done. }
      rewrite decide_False; [done|]. intros [_ ?]. done.
    + split; [intros _ [= ->]; done|]. split.
      { intros _ Hcode. destruct (decide (serviceId ∈ outageService)) as [|Hnin]; [done|].
        destruct Hno. split; [|done].
        destruct Hcode as [[= <-]|[[= <-]|[= <-]]].
        - by left.
        - right. by left.
        - do 2 right. by left. }
      split; [done|]. split; [done|]. split; [done|]. split; [done|].
      by rewrite decide_False.
Qed.

(** *** Highlighting *)

Lemma highlightedIds_returns serviceNodes serviceRelations sel :
  ∃ H,
    highlightedIds serviceNodes serviceRelations (Some sel) = Some H
    ∧ ∀ z, z ∈ H ↔
           z = id sel
           ∨ (z ∈ (service_id <$> serviceNodes)
              ∧ (tc (edgeStep (tempEdge <$> serviceRelations)) (id sel) z
                 ∨ tc (edgeStep (tempEdge <$> serviceRelations)) z (id sel))).
Proof.
  destruct (get_downstream_dependents_returns (id sel) (tempNode <$> serviceNodes)
              (tempEdge <$> serviceRelations)) as (dd & Hdd & Hdown).
  destruct (get_upstream_dependencies_returns (id sel) (tempNode <$> serviceNodes)
              (tempEdge <$> serviceRelations)) as (ud & Hud & Hup).
  unfold highlightedIds. rewrite Hdd, Hud. simpl. eexists. split; [done|].
  intros z. rewrite elem_of_union, elem_of_singleton, elem_of_list_to_set, elem_of_app.
  fold (nodeIds dd) (nodeIds ud). rewrite Hdown, Hup, nodeIds_tempNode. tauto.
Qed.

(** X21: the highlighted set of a selection is the selected id together
    with the services it reaches and the services that reach it, and
    nothing else. Highlighting is therefore symmetric between services:
    selecting x highlights z exactly when selecting z highlights x. With no
    selection nothing is highlighted. *)
Theorem highlighting_is_symmetric serviceNodes serviceRelations (selX selZ : Node) :
  id selX ∈ (service_id <$> serviceNodes) →
  id selZ ∈ (service_id <$> serviceNodes) →
  ∃ HX HZ,
    highlightedIds serviceNodes serviceRelations (Some selX) = Some HX
    ∧ highlightedIds serviceNodes serviceRelations (Some selZ) = Some HZ
    ∧ (∀ z, z ∈ HX ↔
            z = id selX
            ∨ (z ∈ (service_id <$> serviceNodes)
               ∧ (tc (edgeStep (tempEdge <$> serviceRelations)) (id selX) z
                  ∨ tc (edgeStep (tempEdge <$> serviceRelations)) z (id selX))))
    ∧ (id selZ ∈ HX ↔ id selX ∈ HZ)
    ∧ highlightedIds serviceNodes serviceRelations None = Some ∅.
Proof.
  intros Hx Hz.
  destruct (highlightedIds_returns serviceNodes serviceRelations selX) as (HX & HHX & HmemX).
  destruct (highlightedIds_returns serviceNodes serviceRelations selZ) as (HZ & HHZ & HmemZ).
  exists HX, HZ. split; [done|]. split; [done|]. split; [exact HmemX|].
  split; [|done]. rewrite HmemX, HmemZ. naive_solver.
Qed.

Lemma highlighting_is_symmetric_sample :
  id (mkNode "A") ∈ (service_id <$> chainServices)
  ∧ id (mkNode "C") ∈ (service_id <$> chainServices)
  ∧ ∃ HX HZ,
      highlightedIds chainServices chainRelations (Some (mkNode "A")) = Some HX
      ∧ highlightedIds chainServices chainRelations (Some (mkNode "C")) = Some HZ
      ∧ (∀ z, z ∈ HX ↔
              z = id (mkNode "A")
              ∨ (z ∈ (service_id <$> chainServices)
                 ∧ (tc (edgeStep (tempEdge <$> chainRelations)) (id (mkNode "A")) z
                    ∨ tc (edgeStep (tempEdge <$> chainRelations)) z (id (mkNode "A")))))
      ∧ (id (mkNode "C") ∈ HX ↔ id (mkNode "A") ∈ HZ)
      ∧ highlightedIds chainServices chainRelations None = Some ∅.
Proof.
  assert (Hx : id (mkNode "A") ∈ (service_id <$> chainServices)) by (simpl; set_solver).
  assert (Hz : id (mkNode "C") ∈ (service_id <$> chainServices)) by (simpl; set_solver).
  split; [exact Hx|]. split; [exact Hz|].
  exact (highlighting_is_symmetric chainServices chainRelations _ _ Hx Hz).
Defined.

End GraphTheory.

(** ** The status summary *)

Module TallyTheory.
Import Tally.

(** *** One increment *)

Lemma bump_total sc c : total (bump sc c) = total c + 1.
Proof.
  destruct sc as [[|p|p]|]; simpl; try done;
    destruct p as [[[p|p|]|[p|p|]|]|[[p|p|]|[p|p|]|]|]; done.
Qed.

Lemma bump_bucket sc c b :
  bucketCount b (bump sc c)
  = bucketCount b c + (if decide (bucketOf sc = b) then 1 else 0).
Proof.
  destruct sc as [[|p|p]|]; simpl.
  - destruct b; simpl; lia.
  - destruct p as [[[p|p|]|[p|p|]|]|[[p|p|]|[p|p|]|]|];
      unfold bucketOf; repeat (case_decide; try lia);
      destruct b; simpl; first [lia | congruence].
  - unfold bucketOf; repeat (case_decide; try lia);
      destruct b; simpl; first [lia | congruence].
  - destruct b; simpl; lia.
Qed.

Lemma bump_sum sc c : sumBuckets (bump sc c) = sumBuckets c + 1.
Proof.
  unfold sumBuckets.
  pose proof (bump_bucket sc c BOk). pose proof (bump_bucket sc c BDegraded).
  pose proof (bump_bucket sc c BFailed). pose proof (bump_bucket sc c BStarting).
  pose proof (bump_bucket sc c BStopped). pose proof (bump_bucket sc c BUnknown).
  pose proof (bump_bucket sc c BOthers). simpl in *.
  destruct (bucketOf sc); repeat case_decide; try congruence; lia.
Qed.

(** *** One iteration *)

Lemma tallyStep_inherited statusMap summary s :
  typeOf s ∈ objectPrototypeKeys → tallyStep statusMap summary s = summary.
Proof. intros Hin. unfold tallyStep. by rewrite decide_True. Qed.

Lemma tallyStep_lookup_eq statusMap summary s :
  typeOf s ∉ objectPrototypeKeys →
  tallyStep statusMap summary s !! typeOf s
  = Some (bump (statusCodeOf statusMap s) (default zeroCounts (summary !! typeOf s))).
Proof.
  intros Hnot. unfold tallyStep. rewrite decide_False by done. rewrite lookup_alter_eq.
  destruct (summary !! typeOf s) as [c|] eqn:Hc.
  - by rewrite Hc.
  - by rewrite lookup_insert_eq.
Qed.

Lemma tallyStep_lookup_ne statusMap summary s g :
  typeOf s ≠ g → tallyStep statusMap summary s !! g = summary !! g.
Proof.
  intros Hne. unfold tallyStep. case_decide; [done|]. rewrite lookup_alter_ne by done.
  destruct (summary !! typeOf s); [done|]. by rewrite lookup_insert_ne.
Qed.

(** *** The whole loop, one group at a time *)

Lemma tally_lookup statusMap services :
  ∀ summary g,
    foldl (tallyStep statusMap) summary services !! g
    = if decide (g ∈ objectPrototypeKeys) then summary !! g
      else match members g services with
           | [] => summary !! g
           | ms => Some (foldl (bumpFor statusMap) (default zeroCounts (summary !! g)) ms)
           end.
Proof.
  induction services as [|s services IH]; intros summary g.
  { simpl. by case_decide. }
  cbn [foldl]. rewrite IH. unfold members. rewrite filter_cons.
  destruct (decide (typeOf s = g)) as [<-|Hne].
  - destruct (decide (typeOf s ∈ objectPrototypeKeys)) as [Hin|Hnot].
    + by rewrite tallyStep_inherited.
    + rewrite tallyStep_lookup_eq by done. simpl.
      by destruct (filter (λ s0, typeOf s0 = typeOf s) services).
  - by rewrite tallyStep_lookup_ne.
Qed.

Lemma foldl_bumpFor statusMap ms :
  ∀ c,
    total (foldl (bumpFor statusMap) c ms) = total c + length ms
    ∧ sumBuckets (foldl (bumpFor statusMap) c ms) = sumBuckets c + length ms
    ∧ ∀ b, bucketCount b (foldl (bumpFor statusMap) c ms)
           = bucketCount b c
             + length (filter (λ s, bucketOf (statusCodeOf statusMap s) = b) ms).
Proof.
  induction ms as [|s ms IH]; intros c.
  - simpl. repeat split; intros; lia.
  - cbn [foldl]. destruct (IH (bumpFor statusMap c s)) as (Ht & Hs & Hb).
    pose proof (bump_total (statusCodeOf statusMap s) c) as Ht1.
    pose proof (bump_sum (statusCodeOf statusMap s) c) as Hs1.
    fold (bumpFor statusMap c s) in Ht1, Hs1. cbn [length].
    split; [lia|]. split; [lia|].
    intros b. rewrite Hb, filter_cons.
    pose proof (bump_bucket (statusCodeOf statusMap s) c b) as Hb1.
    fold (bumpFor statusMap c s) in Hb1. rewrite Hb1.
    destruct (decide (bucketOf (statusCodeOf statusMap s) = b)); cbn [length]; lia.
Qed.

(** C9: the code at a failing input. Two services, one of type
    "constructor" and one of type "api", neither with a status record. The
    claim asks for a group "constructor" with total 1 and unknown 1; the
    summary the code returns has no such group (its only own entry is
    "api"): [!summary['constructor']] finds the inherited
    [Object.prototype.constructor], so the group is never created and the
    increments go to that built-in object. *)
Theorem statusSummaryByType_inherited_name :
  length (members "constructor" inheritedTypeServices) = 1
  ∧ statusSummaryByType inheritedTypeServices ∅ !! "constructor" = None
  ∧ map_to_list (statusSummaryByType inheritedTypeServices ∅)
    = [("api", {| ok := 0; degraded := 0; failed := 0; starting := 0;
                  stopped := 0; unknown := 1; others := 0; total := 1 |})].
Proof. split; [|split]; vm_compute; reflexivity. Qed.

(** X22: the per-type tally on every type name that is not a property name
    of [Object.prototype]. For every service list and every status map (a
    service with no entry, or an entry with no code, counts as unknown),
    the group of such a type exists exactly when it has a member; its total
    is the number of members, each bucket holds the members whose status
    code maps to that bucket, and the seven buckets add up to the total. A
    type named like a property of [Object.prototype] gets no group. *)
Theorem statusSummaryByType_counts services statusMap g :
  (g ∉ objectPrototypeKeys →
   match statusSummaryByType services statusMap !! g with
   | None => members g services = []
   | Some c =>
       members g services ≠ []
       ∧ total c = length (members g services)
       ∧ (∀ b, bucketCount b c = length (membersIn statusMap g b services))
       ∧ ok c + degraded c + failed c + starting c + stopped c + unknown c + others c
         = total c
   end)
  ∧ (g ∈ objectPrototypeKeys → statusSummaryByType services statusMap !! g = None).
Proof.
  unfold statusSummaryByType. rewrite tally_lookup, lookup_empty. split.
  - intros Hnot. rewrite decide_False by done.
    destruct (members g services) as [|m ms] eqn:Hm; [done|].
    destruct (foldl_bumpFor statusMap (m :: ms) zeroCounts) as (Ht & Hs & Hb).
    cbn [default] in *. split; [done|]. split; [exact Ht|]. split.
    + intros b. rewrite Hb. unfold membersIn. rewrite Hm. by destruct b.
    + fold (sumBuckets (foldl (bumpFor statusMap) zeroCounts (m :: ms))).
      rewrite Hs, Ht. done.
  - intros Hin. by rewrite decide_True.
Qed.

Lemma statusSummaryByType_counts_sample :
  ("api" ∉ objectPrototypeKeys)
  ∧ "constructor" ∈ objectPrototypeKeys
  ∧ match statusSummaryByType inheritedTypeServices ∅ !! "api" with
    | None => members "api" inheritedTypeServices = []
    | Some c =>
        members "api" inheritedTypeServices ≠ []
        ∧ total c = length (members "api" inheritedTypeServices)
        ∧ (∀ b, bucketCount b c = length (membersIn ∅ "api" b inheritedTypeServices))
        ∧ ok c + degraded c + failed c + starting c + stopped c + unknown c + others c
          = total c
    end
  ∧ statusSummaryByType inheritedTypeServices ∅ !! "constructor" = None.
Proof.
  assert (Hapi : "api" ∉ objectPrototypeKeys).
  { unfold objectPrototypeKeys. set_solver. }
  assert (Hctor : "constructor" ∈ objectPrototypeKeys).
  { unfold objectPrototypeKeys. set_solver. }
  split; [exact Hapi|]. split; [exact Hctor|]. split.
  - exact (proj1 (statusSummaryByType_counts inheritedTypeServices ∅ "api") Hapi).
  - exact (proj2 (statusSummaryByType_counts inheritedTypeServices ∅ "constructor") Hctor).
Defined.

(** Two "api" services (one failed, one never observed) and one "db"
    service reporting a code outside the enum. *)
Example statusSummaryByType_sample :
  let s := statusSummaryByType Graph.chainServices
             (<["A" := sampleStatus "A" (Some 2%Z)]>
                (<["C" := sampleStatus "C" (Some 9%Z)]> ∅)) in
  s !! "api" = Some {| ok := 0; degraded := 0; failed := 1; starting := 0;
                       stopped := 0; unknown := 1; others := 0; total := 2 |}
  ∧ s !! "db" = Some {| ok := 0; degraded := 0; failed := 0; starting := 0;
                        stopped := 0; unknown := 0; others := 1; total := 1 |}
  ∧ s !! "cache" = None.
Proof. vm_compute. done. Qed.

(** The entry of a group, in parts. *)
Lemma statusSummaryByType_parts services statusMap g :
  match statusSummaryByType services statusMap !! g with
  | None => True
  | Some c =>
      total c = length (members g services)
      ∧ (∀ b, bucketCount b c = length (membersIn statusMap g b services))
      ∧ sumBuckets c = length (members g services)
  end.
Proof.
  unfold statusSummaryByType. rewrite tally_lookup, lookup_empty.
  case_decide; [done|].
  destruct (members g services) as [|m ms] eqn:Hm; [done|].
  destruct (foldl_bumpFor statusMap (m :: ms) zeroCounts) as (Ht & Hs & Hb).
  cbn [default] in *. split; [exact Ht|]. split.
  - intros b. rewrite Hb. unfold membersIn. rewrite Hm. by destruct b.
  - rewrite Hs. done.
Qed.

(** *** The fallback counts of a group row *)

Lemma fallbackStep_effect statusByService c child :
  1 ≤ unknown c →
  total (fallbackStep statusByService c child) = total c
  ∧ sumBuckets (fallbackStep statusByService c child) = sumBuckets c
  ∧ unknown c - 1 ≤ unknown (fallbackStep statusByService c child)
  ∧ ∀ b, b ≠ BUnknown →
         bucketCount b (fallbackStep statusByService c child)
         = bucketCount b c + (if decide (countedAs statusByService b child) then 1 else 0).
Proof.
  intros Hu. destruct child as [service|]; last first.
  { simpl. repeat split; lia. }
  assert (Hcase : ∀ b, (if decide (countedAs statusByService b (Some service)) then 1 else 0)
                       = (if decide (service_id (row_service service) = "") then 0
                          else if decide (bucketOf (rowStatusCode statusByService service) = b)
                               then 1 else 0)).
  { intros b.
    destruct (decide (countedAs statusByService b (Some service))) as [[H1 H2]|H];
      repeat case_decide; try done.
    exfalso. apply H. by split. }
  setoid_rewrite Hcase. clear Hcase. unfold fallbackStep.
  destruct (decide (service_id (row_service service) = "")) as [Hempty|Hid].
  { repeat split; lia. }
  assert (Hdec : decrementUnknown c = unknown c - 1) by (unfold decrementUnknown; lia).
  generalize (rowStatusCode statusByService service). intros code.
  destruct code as [[|p|p]|].
  - unfold sumBuckets. simpl. rewrite Hdec. repeat split; try lia.
    intros b Hb. destruct b; simpl; try done; lia.
  - destruct p as [[[p|p|]|[p|p|]|]|[[p|p|]|[p|p|]|]|];
      unfold sumBuckets; simpl; rewrite ?Hdec; (repeat split; try lia);
      intros b Hb; unfold bucketOf;
      repeat (case_decide; try done); destruct b; simpl; first [lia | congruence].
  - unfold sumBuckets. simpl. rewrite Hdec. repeat split; try lia.
    intros b Hb. unfold bucketOf.
    repeat (case_decide; try done); destruct b; simpl; first [lia | congruence].
  - simpl. repeat split; try lia. intros b Hb.
    destruct b; simpl; try done; lia.
Qed.

Lemma foldl_fallbackStep statusByService children :
  ∀ c,
    length children ≤ unknown c →
    total (foldl (fallbackStep statusByService) c children) = total c
    ∧ sumBuckets (foldl (fallbackStep statusByService) c children) = sumBuckets c
    ∧ ∀ b, b ≠ BUnknown →
           bucketCount b (foldl (fallbackStep statusByService) c children)
           = bucketCount b c + length (filter (countedAs statusByService b) children).
Proof.
  induction children as [|child children IH]; intros c Hlen.
  - cbn [foldl]. split; [done|]. split; [done|]. intros b _.
    rewrite filter_nil. cbn [length]. lia.
  - cbn [foldl length] in *.
    destruct (fallbackStep_effect statusByService c child) as (Ht & Hs & Hu & Hb); [lia|].
    destruct (IH (fallbackStep statusByService c child)) as (Ht' & Hs' & Hb'); [lia|].
    split; [lia|]. split; [lia|].
    intros b Hne. rewrite Hb', Hb by done. rewrite filter_cons.
    destruct (decide (countedAs statusByService b child)); cbn [length]; lia.
Qed.

Lemma counts_eq (c1 c2 : StatusSummaryCounts) :
  (∀ b, b ≠ BUnknown → bucketCount b c1 = bucketCount b c2) →
  sumBuckets c1 = sumBuckets c2 →
  total c1 = total c2 →
  c1 = c2.
Proof.
  intros Hb Hs Ht. destruct c1, c2. unfold sumBuckets in Hs. simpl in *.
  pose proof (Hb BOk). pose proof (Hb BDegraded). pose proof (Hb BFailed).
  pose proof (Hb BStarting). pose proof (Hb BStopped). pose proof (Hb BOthers).
  simpl in *. f_equal; try (by auto); try lia.
  assert (ok0 = ok1) by auto. assert (degraded0 = degraded1) by auto.
  assert (failed0 = failed1) by auto. assert (starting0 = starting1) by auto.
  assert (stopped0 = stopped1) by auto. assert (others0 = others1) by auto. lia.
Qed.

Lemma countedAs_rows statusMap b (ms : list ServiceNode) :
  (∀ s, s ∈ ms → service_id s ≠ "") →
  length (filter (countedAs statusMap b) ((λ s, Some (toRow statusMap s)) <$> ms))
  = length (filter (λ s, bucketOf (statusCodeOf statusMap s) = b) ms).
Proof.
  induction ms as [|s ms IH]; intros Hids; [done|].
  rewrite fmap_cons, !filter_cons.
  assert (Hcode : rowStatusCode statusMap (toRow statusMap s) = statusCodeOf statusMap s).
  { unfold rowStatusCode, toRow, statusCodeOf. simpl.
    by destruct (statusMap !! service_id s ≫= last_status_code). }
  assert (Hiff : countedAs statusMap b (Some (toRow statusMap s))
                 ↔ bucketOf (statusCodeOf statusMap s) = b).
  { simpl. rewrite Hcode. split; [by intros [_ ?]|]. intros ?. split; [|done].
    apply Hids. by left. }
  specialize (IH (λ s' Hs', Hids s' (list_elem_of_further _ _ _ Hs'))).
  destruct (decide (countedAs statusMap b (Some (toRow statusMap s)))),
           (decide (bucketOf (statusCodeOf statusMap s) = b));
    cbn [length]; try tauto; by rewrite IH.
Qed.

(** X9: the fallback counts of a group row (used when the summary has no
    entry for the group). The total is the number of children, the seven
    buckets add up to it (so the clamp of "unknown" at zero never takes
    effect), and every bucket other than "unknown" holds exactly the
    children that carry data, have a service id and whose status code maps
    to that bucket. *)
Theorem fallbackCounts_buckets statusByService (children : list (option ServiceRow)) :
  total (fallbackCounts statusByService children) = length children
  ∧ sumBuckets (fallbackCounts statusByService children) = length children
  ∧ ∀ b, b ≠ BUnknown →
         bucketCount b (fallbackCounts statusByService children)
         = length (filter (countedAs statusByService b) children).
Proof.
  destruct (foldl_fallbackStep statusByService children
              (defaultSummaryCounts (length children))) as (Ht & Hs & Hb); [done|].
  fold (fallbackCounts statusByService children) in Ht, Hs, Hb.
  split; [exact Ht|]. split.
  - rewrite Hs. unfold sumBuckets. simpl. lia.
  - intros b Hne. rewrite Hb by done. by destruct b.
Qed.

(** X10: the fallback is consistent with the summary. When the children of a
    group row are the rows [rowData] builds for the services of that type,
    in any order, and none has an empty service id, the fallback counts are
    exactly the entry [statusSummaryByType] holds for the type. *)
Theorem fallbackCounts_matches_summary services statusMap g c
    (children : list (option ServiceRow)) :
  children ≡ₚ (λ s, Some (toRow statusMap s)) <$> members g services →
  (∀ s, s ∈ members g services → service_id s ≠ "") →
  statusSummaryByType services statusMap !! g = Some c →
  fallbackCounts statusMap children = c.
Proof.
  intros Hperm Hids Hc.
  destruct (foldl_fallbackStep statusMap children
              (defaultSummaryCounts (length children))) as (Ht & Hs & Hb); [done|].
  fold (fallbackCounts statusMap children) in Ht, Hs, Hb.
  pose proof (statusSummaryByType_parts services statusMap g) as Hparts.
  rewrite Hc in Hparts. destruct Hparts as (Htot & Hbuckets & Hsumc).
  assert (Hlen : length children = length (members g services)).
  { rewrite Hperm. by rewrite length_fmap. }
  apply counts_eq.
  - intros b Hne. rewrite Hb by done. rewrite Hbuckets. unfold membersIn.
    rewrite <- (countedAs_rows statusMap b) by done. rewrite Hperm.
    by destruct b.
  - rewrite Hs, Hsumc, <- Hlen. unfold sumBuckets. simpl. lia.
  - rewrite Ht, Htot. simpl. done.
Qed.

(** The "api" group of the sample, its two rows listed in reverse order. *)
Lemma fallbackCounts_matches_summary_sample :
  fallbackCounts sampleSummaries
    (reverse ((λ s, Some (toRow sampleSummaries s)) <$> members "api" Graph.chainServices))
  = {| ok := 0; degraded := 0; failed := 1; starting := 0;
       stopped := 0; unknown := 1; others := 0; total := 2 |}.
Proof.
  apply (fallbackCounts_matches_summary Graph.chainServices sampleSummaries "api").
  - by rewrite reverse_Permutation.
  - intros s Hs. vm_compute in Hs. set_solver.
  - vm_compute. reflexivity.
Defined.

(** *** The next action shown in a status cell *)

Lemma sortWith_head_least {A} (compare : A → A → Z) (key : A → Z) (l : list A) :
  (∀ a b, (compare a b ≤ 0)%Z ↔ (key a ≤ key b)%Z) →
  ∀ h, head (sortWith compare l) = Some h →
       h ∈ l ∧ ∀ y, y ∈ l → (key h ≤ key y)%Z.
Proof.
  intros Hcmp. induction l as [|x l IH]; intros h Hh; [done|].
  change (sortWith compare (x :: l)) with (insertBy compare x (sortWith compare l)) in Hh.
  destruct (sortWith compare l) as [|y rest] eqn:Hsorted.
  - assert (l = []) as ->.
    { apply Permutation_nil_r. by rewrite <- Hsorted, GraphTheory.sortWith_Permutation. }
    simpl in Hh. injection Hh as <-. split; [by left|].
    intros y Hy. apply list_elem_of_singleton in Hy as ->. lia.
  - destruct (IH y eq_refl) as [Hy Hleast].
    simpl in Hh. destruct (decide (compare x y ≤ 0)%Z) as [Hle|Hgt];
      simpl in Hh; injection Hh as <-.
    + apply Hcmp in Hle. split; [by left|].
      intros z [->|Hz]%elem_of_cons; [lia|]. specialize (Hleast z Hz). lia.
    + assert (¬ (key x ≤ key y)%Z) by (by rewrite <- Hcmp).
      split; [by right|].
      intros z [->|Hz]%elem_of_cons; [lia|]. by apply Hleast.
Qed.

Lemma sortWith_nil {A} (compare : A → A → Z) (l : list A) :
  sortWith compare l = [] → l = [].
Proof.
  intros H. apply Permutation_nil_r. by rewrite <- H, GraphTheory.sortWith_Permutation.
Qed.

(** X11: which action time a status cell shows. [selectNextUpcomingAction]
    returns nothing exactly when no candidate of the snapshot parses to a
    time. Otherwise it returns a candidate together with its parsed time;
    when that time is not before now it is the earliest of the candidates
    that are not before now, and when it is before now every candidate is
    before now and it is the latest of them. *)
Theorem selectNextUpcomingAction_choice dateParse nowMs snapshot :
  match selectNextUpcomingAction dateParse nowMs snapshot with
  | None =>
      ∀ entry, entry ∈ scheduleCandidates snapshot →
               parseTimestamp dateParse (Some entry) = None
  | Some (iso, timestamp) =>
      iso ∈ scheduleCandidates snapshot
      ∧ parseTimestamp dateParse (Some iso) = Some timestamp
      ∧ ∀ entry t,
          entry ∈ scheduleCandidates snapshot →
          parseTimestamp dateParse (Some entry) = Some t →
          if decide (nowMs ≤ timestamp)%Z
          then (nowMs ≤ t → timestamp ≤ t)%Z
          else (t ≤ timestamp)%Z
  end.
Proof.
  unfold selectNextUpcomingAction.
  set (candidates := scheduleCandidates snapshot).
  set (enriched := omap _ candidates).
  assert (Hin : ∀ entry t, (entry, t) ∈ enriched
                           ↔ entry ∈ candidates
                             ∧ parseTimestamp dateParse (Some entry) = Some t).
  { intros entry t. unfold enriched. rewrite list_elem_of_omap. split.
    - intros (e & He & Hp). apply fmap_Some in Hp as (t' & Hp & [= -> ->]). done.
    - intros [He Hp]. exists entry. split; [done|]. by rewrite Hp. }
  clearbody enriched.
  destruct (decide (candidates = [])) as [->|_].
  { intros entry He. by apply elem_of_nil in He. }
  destruct enriched as [|item enriched'] eqn:Henriched.
  { intros entry He. destruct (parseTimestamp dateParse (Some entry)) as [t|] eqn:Hp; [|done].
    assert ((entry, t) ∈ @nil (string * Z)) as Hnil by (by apply Hin).
    by apply elem_of_nil in Hnil. }
  assert (Hne : enriched ≠ []) by (by rewrite Henriched).
  rewrite <- Henriched in *. clear Henriched.
  destruct (sortWith (λ a b, a.2 - b.2)%Z (filter (λ item, (nowMs ≤ item.2)%Z) enriched))
    as [|[iso timestamp] future'] eqn:Hfuture.
  - apply sortWith_nil in Hfuture.
    assert (Hpast : ∀ x, x ∈ enriched → (x.2 < nowMs)%Z).
    { intros x Hx. destruct (decide (nowMs ≤ x.2)%Z) as [Hle|]; [|lia].
      assert (x ∈ filter (λ item, (nowMs ≤ item.2)%Z) enriched) as Hf
        by (by apply list_elem_of_filter).
      rewrite Hfuture in Hf. by apply elem_of_nil in Hf. }
    destruct (head (sortWith (λ a b, b.2 - a.2)%Z enriched)) as [[iso timestamp]|] eqn:Hhead.
    + destruct (sortWith_head_least (λ a b, b.2 - a.2)%Z (λ a, - a.2)%Z enriched)
        with (h := (iso, timestamp)) as [Hmem Hleast]; [intros; simpl; lia|done|].
      apply Hin in Hmem as Hmem'. destruct Hmem' as [Hiso Hparse].
      split; [done|]. split; [done|].
      intros entry t He Hp. specialize (Hpast _ Hmem). simpl in Hpast.
      rewrite decide_False by lia.
      assert ((entry, t) ∈ enriched) as Het by (by apply Hin).
      specialize (Hleast _ Het). simpl in Hleast. lia.
    + apply head_None in Hhead. by apply sortWith_nil in Hhead.
  - destruct (sortWith_head_least (λ a b, a.2 - b.2)%Z (λ a, a.2)
                (filter (λ item, (nowMs ≤ item.2)%Z) enriched))
      with (h := (iso, timestamp)) as [Hmem Hleast];
      [intros; simpl; lia|by rewrite Hfuture|].
    apply list_elem_of_filter in Hmem as [Hnow Hmem]. simpl in Hnow.
    apply Hin in Hmem as [Hiso Hparse].
    split; [done|]. split; [done|].
    intros entry t He Hp. rewrite decide_True by done. intros Ht.
    assert ((entry, t) ∈ filter (λ item, (nowMs ≤ item.2)%Z) enriched) as Het.
    { apply list_elem_of_filter. split; [done|]. by apply Hin. }
    specialize (Hleast _ Het). done.
Qed.

(** *** Status words across the components *)

(** X20: the three places that turn a status code into words agree on the
    codes 0 to 4 and differ on the rest. The leaf cell of the service list
    and the service card show the word of the bucket the summary counts the
    code in, except that a code outside 0..5, which the summary and the
    fallback count under "others", is shown as unknown by both. *)
Theorem status_words_agree (code : option Z) :
  (statusDisplayText code, Graph.getStatusInfo code)
  = match bucketOf code with
    | BOk => ("OK", "ok")
    | BDegraded => ("DEGRADED", "degraded")
    | BFailed => ("FAILED", "failed")
    | BStarting => ("STARTING", "starting")
    | BStopped => ("STOPPED", "stopped")
    | BUnknown | BOthers => ("UNKNOWN", "unknown")
    end.
Proof.
  destruct code as [[|p|p]|]; [done| | |done].
  - destruct p as [[[p|p|]|[p|p|]|]|[[p|p|]|[p|p|]|]|]; unfold bucketOf;
      repeat (case_decide; try done).
  - unfold bucketOf. repeat (case_decide; try done).
Qed.

End TallyTheory.

(** ** The status manager *)

Module StatusTheory.
Import Status.

(** *** Fan-out *)

Ltac unfold_monad :=
  unfold mbind, M_bind, mret, M_ret, bind, ret, get, modifyThis, modifyRt,
    tryCatch, throw, emit, await in *.

Lemma logged_nil s : logged [] s = s.
Proof.
  destruct s as [m r]. destruct r. unfold logged, with_log. simpl.
  by rewrite app_nil_r.
Qed.

Lemma logged_logged l1 l2 s : logged l2 (logged l1 s) = logged (l1 ++ l2) s.
Proof. unfold logged, with_log. simpl. by rewrite app_assoc. Qed.

Lemma forEachM_status_callbacks snapshot callbacks s :
  forEachM
    (λ callback,
       tryCatch (callStatusCallback callback snapshot)
         (λ error, emit (ConsoleError "Error in status update callback")))
    callbacks s
  = (Returned tt, logged (statusFanout (throws (rt s)) snapshot callbacks) s).
Proof.
  revert s. induction callbacks as [|cb cbs IH]; intros s.
  - simpl. unfold_monad. by rewrite logged_nil.
  - cbn [forEachM]. unfold statusFanout. rewrite bind_cons. fold (statusFanout (throws (rt s)) snapshot cbs).
    unfold callStatusCallback. unfold_monad. simpl.
    destruct (throws (rt s) cb (ArgSnapshot snapshot)) eqn:Hthrow; simpl.
    + rewrite IH. simpl. f_equal. unfold logged, with_log. simpl.
      by rewrite <- !app_assoc.
    + rewrite IH. simpl. f_equal. unfold logged, with_log. simpl.
      by rewrite <- !app_assoc.
Qed.

Lemma forEachM_error_callbacks error callbacks s :
  forEachM
    (λ callback,
       tryCatch (callErrorCallback callback error)
         (λ callbackError, emit (ConsoleError "Error in error callback")))
    callbacks s
  = (Returned tt, logged (errorFanout (throws (rt s)) error callbacks) s).
Proof.
  revert s. induction callbacks as [|cb cbs IH]; intros s.
  - simpl. unfold_monad. by rewrite logged_nil.
  - cbn [forEachM]. unfold errorFanout. rewrite bind_cons. fold (errorFanout (throws (rt s)) error cbs).
    unfold callErrorCallback. unfold_monad. simpl.
    destruct (throws (rt s) cb (ArgError error)) eqn:Hthrow; simpl.
    + rewrite IH. simpl. f_equal. unfold logged, with_log. simpl.
      by rewrite <- !app_assoc.
    + rewrite IH. simpl. f_equal. unfold logged, with_log. simpl.
      by rewrite <- !app_assoc.
Qed.

Lemma statusCalls_app l1 l2 : statusCalls (l1 ++ l2) = (statusCalls l1 ++ statusCalls l2)%list.
Proof. apply omap_app. Qed.

Lemma errorCalls_app l1 l2 : errorCalls (l1 ++ l2) = (errorCalls l1 ++ errorCalls l2)%list.
Proof. apply omap_app. Qed.

Lemma statusFanout_cons behaviour snapshot cb cbs :
  statusFanout behaviour snapshot (cb :: cbs)
  = ((StatusCallbackCalled cb snapshot
      :: (if behaviour cb (ArgSnapshot snapshot)
          then [ConsoleError "Error in status update callback"] else []))
     ++ statusFanout behaviour snapshot cbs)%list.
Proof. reflexivity. Qed.

Lemma errorFanout_cons behaviour error cb cbs :
  errorFanout behaviour error (cb :: cbs)
  = ((ErrorCallbackCalled cb error
      :: (if behaviour cb (ArgError error)
          then [ConsoleError "Error in error callback"] else []))
     ++ errorFanout behaviour error cbs)%list.
Proof. reflexivity. Qed.

Lemma statusCalls_fanout behaviour snapshot callbacks :
  statusCalls (statusFanout behaviour snapshot callbacks)
  = (λ cb, (cb, snapshot)) <$> callbacks.
Proof.
  induction callbacks as [|cb cbs IH]; [done|].
  rewrite statusFanout_cons, statusCalls_app, IH, fmap_cons.
  by destruct (behaviour cb (ArgSnapshot snapshot)).
Qed.

Lemma errorCalls_fanout behaviour error callbacks :
  errorCalls (errorFanout behaviour error callbacks)
  = (λ cb, (cb, error)) <$> callbacks.
Proof.
  induction callbacks as [|cb cbs IH]; [done|].
  rewrite errorFanout_cons, errorCalls_app, IH, fmap_cons.
  by destruct (behaviour cb (ArgError error)).
Qed.

Lemma getStatusMap_eq s : getStatusMap s = (Returned (snapshotLoc s), snapshotted s).
Proof. reflexivity. Qed.

Lemma notifyStatusUpdate_eq s :
  notifyStatusUpdate s
  = (Returned tt,
     logged (statusFanout (throws (rt s)) (snapshotLoc s) (statusUpdateCallbacks (this s)))
       (snapshotted s)).
Proof.
  unfold notifyStatusUpdate, mbind, M_bind, bind. rewrite getStatusMap_eq.
  unfold get. cbv beta iota. by rewrite forEachM_status_callbacks.
Qed.

Lemma notifyError_eq error s :
  notifyError error s
  = (Returned tt, logged (errorFanout (throws (rt s)) error (errorCallbacks (this s))) s).
Proof.
  unfold notifyError, mbind, M_bind, bind, get. cbv beta iota.
  by rewrite forEachM_error_callbacks.
Qed.

(** C10: whatever the subscribers do, a status fan-out returns normally and
    calls every subscribed status callback once, in subscription order, all
    with the same snapshot; an error fan-out returns normally and calls
    every subscribed error callback once with the same error. A callback
    that throws does not keep the others from being called. *)
Theorem fanout_reaches_every_subscriber (s : State) :
  (∃ snapshot s' new,
      notifyStatusUpdate s = (Returned tt, s')
      ∧ log (rt s') = (log (rt s) ++ new)%list
      ∧ statusCalls new = (λ cb, (cb, snapshot)) <$> statusUpdateCallbacks (this s))
  ∧ (∀ error, ∃ s' new,
      notifyError error s = (Returned tt, s')
      ∧ log (rt s') = (log (rt s) ++ new)%list
      ∧ errorCalls new = (λ cb, (cb, error)) <$> errorCallbacks (this s)).
Proof.
  split.
  - eexists _, _, _. split; [apply notifyStatusUpdate_eq|]. split; [done|].
    apply statusCalls_fanout.
  - intros error. eexists _, _. split; [apply notifyError_eq|]. split; [done|].
    apply errorCalls_fanout.
Qed.

(** The second of three subscribers throws; all three are called. *)
Example fanout_with_faulty_subscriber :
  let faulty := λ cb (_ : CallbackArg), bool_decide (cb = 2) in
  let s := construct {| opt_serviceIds := ["a"]; enableSSE := None;
                        enableWebSocket := None; fallbackPollInterval := None |}
             (bootRuntime faulty) in
  (λ s', log (rt s')) <$>
    run [Called (CallOnStatusUpdate 1); Called (CallOnStatusUpdate 2);
         Called (CallOnStatusUpdate 3); Called CallFetchAllStatus;
         BatchSettled 1 (Returned [("a", sampleStatus "a" 0)])] s
  = Some [RequestSent "/api/status/batch";
          StatusCallbackCalled 1 3%positive;
          StatusCallbackCalled 2 3%positive;
          ConsoleError "Error in status update callback";
          StatusCallbackCalled 3 3%positive].
Proof. vm_compute. reflexivity. Qed.

(** *** The store *)

Lemma sameControl_refl s : sameControl s s.
Proof. by split. Qed.

Lemma sameControl_trans s1 s2 s3 :
  sameControl s1 s2 → sameControl s2 s3 → sameControl s1 s3.
Proof. intros [] []. split; congruence. Qed.

Lemma updateServiceStatus_eq serviceId status s :
  updateServiceStatus serviceId status s = notifyStatusUpdate (stored serviceId status s).
Proof. reflexivity. Qed.

Lemma snapshotLoc_fresh s : heap (rt s) !! snapshotLoc s = None.
Proof.
  pose proof (is_fresh (dom (heap (rt s)))) as Hf. by apply not_elem_of_dom in Hf.
Qed.

Lemma snapshotLoc_not_store s : wf s → snapshotLoc s ≠ statusMap (this s).
Proof.
  intros [m Hm] Heq. pose proof (snapshotLoc_fresh s) as Hf. rewrite Heq in Hf. congruence.
Qed.

Lemma stored_wf serviceId status s : wf s → wf (stored serviceId status s).
Proof.
  intros [m Hm]. exists (<[serviceId := status]> m). unfold stored. simpl.
  rewrite Hm. simpl. apply lookup_insert_eq.
Qed.

Lemma stored_storeOf serviceId status s :
  wf s → storeOf (stored serviceId status s) = <[serviceId := status]> (storeOf s).
Proof.
  intros [m Hm]. unfold storeOf, stored, readMap. simpl. rewrite Hm. simpl.
  by rewrite lookup_insert_eq.
Qed.

Lemma snapshotted_wf s : wf s → wf (snapshotted s).
Proof.
  intros Hwf. pose proof (snapshotLoc_not_store s Hwf) as Hne.
  destruct Hwf as [m Hm]. exists m. unfold snapshotted. simpl.
  by rewrite lookup_insert_ne.
Qed.

Lemma snapshotted_storeOf s : wf s → storeOf (snapshotted s) = storeOf s.
Proof.
  intros Hwf. pose proof (snapshotLoc_not_store s Hwf) as Hne.
  unfold storeOf, snapshotted, readMap. simpl. by rewrite lookup_insert_ne.
Qed.

(** One [updateServiceStatus]: the entry is written, one snapshot is
    allocated and handed to every status subscriber. *)
Lemma updateServiceStatus_spec serviceId status s :
  wf s →
  ∃ s' snapshot,
    updateServiceStatus serviceId status s = (Returned tt, s')
    ∧ sameControl s s'
    ∧ wf s'
    ∧ storeOf s' = <[serviceId := status]> (storeOf s)
    ∧ log (rt s')
      = (log (rt s)
         ++ statusFanout (throws (rt s)) snapshot (statusUpdateCallbacks (this s)))%list.
Proof.
  intros Hwf. rewrite updateServiceStatus_eq, notifyStatusUpdate_eq.
  eexists _, (snapshotLoc (stored serviceId status s)). split; [done|].
  pose proof (stored_wf serviceId status s Hwf) as Hwf1.
  split; [|split; [|split]].
  - unfold stored. destruct s as [m r]. simpl.
    destruct (heap r !! statusMap m) as [[| |]|]; by split.
  - destruct (snapshotted_wf _ Hwf1) as [m Hm]. by exists m.
  - change (storeOf (snapshotted (stored serviceId status s))
            = <[serviceId := status]> (storeOf s)).
    rewrite snapshotted_storeOf by done. by apply stored_storeOf.
  - simpl. unfold stored. destruct s as [m r]. simpl.
    destruct (heap r !! statusMap m) as [[| |]|]; reflexivity.
Qed.

Lemma heap_logged_snapshotted entries s :
  heap (rt (logged entries (snapshotted s)))
  = <[snapshotLoc s := ObjMap (storeOf s)]> (heap (rt s)).
Proof. reflexivity. Qed.

(** One [updateServiceStatus], with what it does to the heap: the store
    object is updated in place, the snapshot is a new object holding the
    entries of the store as it is right after the write, and no other
    object changes. *)
Lemma updateServiceStatus_full serviceId status s :
  wf s →
  let snapshot := snapshotLoc (stored serviceId status s) in
  ∃ s',
    updateServiceStatus serviceId status s = (Returned tt, s')
    ∧ sameControl s s'
    ∧ wf s'
    ∧ storeOf s' = <[serviceId := status]> (storeOf s)
    ∧ log (rt s')
      = (log (rt s)
         ++ statusFanout (throws (rt s)) snapshot (statusUpdateCallbacks (this s)))%list
    ∧ heap (rt s) !! snapshot = None
    ∧ heap (rt s') !! snapshot = Some (ObjMap (<[serviceId := status]> (storeOf s)))
    ∧ (∀ l o, l ≠ statusMap (this s) → heap (rt s) !! l = Some o →
              heap (rt s') !! l = Some o).
Proof.
  intros Hwf snapshot.
  pose proof (stored_wf serviceId status s Hwf) as Hwf1.
  pose proof (snapshotLoc_fresh (stored serviceId status s)) as Hfresh.
  pose proof (snapshotLoc_not_store _ Hwf1) as Hne.
  pose proof (stored_storeOf serviceId status s Hwf) as Hstore.
  fold snapshot in Hfresh, Hne.
  assert (Hheap1 : heap (rt (stored serviceId status s))
                   = <[statusMap (this s) := ObjMap (<[serviceId := status]> (storeOf s))]>
                       (heap (rt s))).
  { destruct Hwf as [m Hm]. unfold stored, storeOf, readMap. simpl. by rewrite Hm. }
  destruct (updateServiceStatus_spec serviceId status s Hwf)
    as (s' & snap & Hrun & Hsame & Hwf' & Hstore' & _).
  exists s'. split; [exact Hrun|]. split; [exact Hsame|]. split; [exact Hwf'|].
  split; [exact Hstore'|].
  rewrite updateServiceStatus_eq, notifyStatusUpdate_eq in Hrun.
  injection Hrun as <-.
  assert (Hst : this (stored serviceId status s) = this s
                ∧ log (rt (stored serviceId status s)) = log (rt s)
                ∧ throws (rt (stored serviceId status s)) = throws (rt s)).
  { unfold stored. simpl.
    destruct (heap (rt s) !! statusMap (this s)) as [[| |]|]; done. }
  destruct Hst as (Hst1 & Hst2 & Hst3).
  split.
  { change (log (rt (stored serviceId status s))
            ++ statusFanout (throws (rt (stored serviceId status s))) snapshot
                 (statusUpdateCallbacks (this (stored serviceId status s)))
            = log (rt s)
              ++ statusFanout (throws (rt s)) snapshot (statusUpdateCallbacks (this s)))%list.
    by rewrite Hst1, Hst2, Hst3. }
  split.
  { rewrite Hheap1 in Hfresh. by apply lookup_insert_None in Hfresh as [? _]. }
  split.
  { rewrite heap_logged_snapshotted. fold snapshot.
    rewrite lookup_insert_eq. by rewrite Hstore. }
  intros l o Hl Ho. rewrite heap_logged_snapshotted. fold snapshot.
  destruct (decide (l = snapshot)) as [->|Hls].
  - rewrite Hheap1 in Hfresh. apply lookup_insert_None in Hfresh as [Hfresh _]. congruence.
  - rewrite lookup_insert_ne by done. rewrite Hheap1. by rewrite lookup_insert_ne.
Qed.

(** A reference to an inherited built-in value: a new cell and nothing
    else. *)
Lemma inherited_frame name s :
  wf s →
  ∃ l s',
    inherited name s = (Returned l, s')
    ∧ sameControl s s'
    ∧ wf s'
    ∧ storeOf s' = storeOf s
    ∧ log (rt s') = log (rt s)
    ∧ (∀ l' o, heap (rt s) !! l' = Some o → heap (rt s') !! l' = Some o).
Proof.
  intros Hwf. pose proof (snapshotLoc_not_store s Hwf) as Hne.
  pose proof (snapshotLoc_fresh s) as Hfresh.
  exists (snapshotLoc s),
    {| this := this s;
       rt := with_heap (<[snapshotLoc s := ObjBuiltin name]> (heap (rt s))) (rt s) |}.
  split; [reflexivity|]. split; [by split|].
  split.
  { destruct Hwf as [m Hm]. exists m. simpl.
    rewrite lookup_insert_ne; [done|]. exact Hne. }
  split.
  { unfold storeOf, readMap. simpl. rewrite lookup_insert_ne; [done|]. exact Hne. }
  split; [done|].
  intros l' o Ho. simpl. rewrite lookup_insert_ne; [done|].
  intros <-. fold (snapshotLoc s) in Ho. congruence.
Qed.

(** The loop of [fetchAllStatus] from any well-formed state: where the
    response has a record for a tracked id the store ends up referring to
    it, an id the loop does not touch keeps its entry, and no object other
    than the store is changed. *)
Lemma forEachM_updates (response : gmap string loc) ids :
  ∀ s, wf s →
    ∃ s' snapshots,
      forEachM
        (λ serviceId,
           match response !! serviceId with
           | Some status => updateServiceStatus serviceId status
           | None =>
               if decide (serviceId ∈ objectPrototypeKeys)
               then status ← inherited serviceId;
                    updateServiceStatus serviceId status
               else ret tt
           end) ids s = (Returned tt, s')
      ∧ sameControl s s'
      ∧ wf s'
      ∧ log (rt s')
        = (log (rt s)
           ++ fanouts (throws (rt s)) (statusUpdateCallbacks (this s)) snapshots)%list
      ∧ (∀ sid l, sid ∈ ids → response !! sid = Some l → storeOf s' !! sid = Some l)
      ∧ (∀ sid, sid ∉ ids ∨ (response !! sid = None ∧ sid ∉ objectPrototypeKeys) →
                storeOf s' !! sid = storeOf s !! sid)
      ∧ (∀ l o, l ≠ statusMap (this s) → heap (rt s) !! l = Some o →
                heap (rt s') !! l = Some o).
Proof.
  induction ids as [|sid0 ids IH]; intros s Hwf.
  - exists s, []. simpl. split; [done|]. split; [apply sameControl_refl|].
    split; [done|]. split; [by rewrite app_nil_r|].
    split; [intros sid l Hin; by apply elem_of_nil in Hin|]. done.
  - cbn [forEachM]. unfold mbind at 1, M_bind at 1, bind at 1.
    assert (Hstep : ∃ s1 snaps1,
              match response !! sid0 with
              | Some status => updateServiceStatus sid0 status
              | None =>
                  if decide (sid0 ∈ objectPrototypeKeys)
                  then status ← inherited sid0; updateServiceStatus sid0 status
                  else ret tt
              end s = (Returned tt, s1)
              ∧ sameControl s s1 ∧ wf s1
              ∧ log (rt s1)
                = (log (rt s)
                   ++ fanouts (throws (rt s)) (statusUpdateCallbacks (this s)) snaps1)%list
              ∧ (∀ l, response !! sid0 = Some l → storeOf s1 !! sid0 = Some l)
              ∧ (∀ sid, sid ≠ sid0 ∨ (response !! sid = None ∧ sid ∉ objectPrototypeKeys) →
                        storeOf s1 !! sid = storeOf s !! sid)
              ∧ (∀ l o, l ≠ statusMap (this s) → heap (rt s) !! l = Some o →
                        heap (rt s1) !! l = Some o)).
    { destruct (response !! sid0) as [l0|] eqn:Hl0.
      - destruct (updateServiceStatus_full sid0 l0 s Hwf)
          as (s1 & Hrun & Hsame & Hwf1 & Hstore & Hlog & _ & _ & Hext).
        exists s1, [snapshotLoc (stored sid0 l0 s)].
        split; [exact Hrun|]. split; [exact Hsame|]. split; [exact Hwf1|].
        split; [unfold fanouts; simpl; by rewrite app_nil_r|].
        split; [intros l [= <-]; by rewrite Hstore, lookup_insert_eq|].
        split; [|exact Hext].
        intros sid [Hne|[Hnone _]]; rewrite Hstore.
        + by rewrite lookup_insert_ne.
        + rewrite lookup_insert_ne; [done|]. intros <-. congruence.
      - destruct (decide (sid0 ∈ objectPrototypeKeys)) as [Hin|Hnot].
        + destruct (inherited_frame sid0 s Hwf)
            as (l & sa & Hrun & Hsame & Hwfa & Hstorea & Hloga & Hexta).
          destruct (updateServiceStatus_full sid0 l sa Hwfa)
            as (s1 & Hrun1 & Hsame1 & Hwf1 & Hstore1 & Hlog1 & _ & _ & Hext1).
          exists s1, [snapshotLoc (stored sid0 l sa)].
          unfold mbind, M_bind, bind. rewrite Hrun, Hrun1.
          pose proof Hsame as [Hthis _ _ _ _ _ _ _ Hthrows].
          split; [done|]. split; [by eapply sameControl_trans|]. split; [exact Hwf1|].
          split.
          { rewrite Hlog1, Hloga, Hthis, Hthrows. unfold fanouts. simpl.
            by rewrite app_nil_r. }
          split; [intros l' [=]|].
          split.
          { intros sid [Hne|[Hnone Hnp]]; rewrite Hstore1, Hstorea.
            - by rewrite lookup_insert_ne.
            - rewrite lookup_insert_ne; [done|]. intros <-. done. }
          intros l' o Hl' Ho. apply Hext1; [by rewrite Hthis|]. by apply Hexta.
        + exists s, []. split; [done|]. split; [apply sameControl_refl|].
          split; [done|]. split; [by rewrite app_nil_r|]. done. }
    destruct Hstep as (s1 & snaps1 & Hrun1 & Hsame1 & Hwf1 & Hlog1 & Hown1 & Hkeep1 & Hext1).
    rewrite Hrun1.
    destruct (IH s1 Hwf1) as (s' & snaps & Hrun' & Hsame' & Hwf' & Hlog' & Hown' & Hkeep' & Hext').
    pose proof Hsame1 as [Hthis _ _ _ _ _ _ _ Hthrows].
    exists s', (snaps1 ++ snaps)%list. split; [exact Hrun'|].
    split; [by eapply sameControl_trans|]. split; [exact Hwf'|].
    split.
    { rewrite Hlog', Hlog1, Hthis, Hthrows. unfold fanouts.
      by rewrite bind_app, app_assoc. }
    split.
    { intros sid l Hin Hl. destruct (decide (sid ∈ ids)) as [Hin'|Hnin].
      - by apply Hown'.
      - apply elem_of_cons in Hin as [->|?]; [|done].
        rewrite Hkeep' by (by left). by apply Hown1. }
    split.
    { intros sid Hsid. rewrite Hkeep', Hkeep1; [done| |].
      - destruct Hsid as [Hnin|?]; [|by right]. left. intros ->. apply Hnin. by left.
      - destruct Hsid as [Hnin|?]; [|by right]. left. intros ?. apply Hnin. by right. }
    intros l o Hl Ho. apply Hext'; [by rewrite Hthis|]. by apply Hext1.
Qed.

Lemma fetchAllStatus_resume_spec (response : gmap string loc) s :
  wf s →
  ∃ s' snapshots,
    fetchAllStatus_resume (Returned response) s = (Returned tt, s')
    ∧ sameControl s s'
    ∧ wf s'
    ∧ log (rt s')
      = (log (rt s)
         ++ fanouts (throws (rt s)) (statusUpdateCallbacks (this s)) snapshots)%list
    ∧ (∀ sid l, sid ∈ serviceIds (this s) → response !! sid = Some l →
                storeOf s' !! sid = Some l)
    ∧ (∀ sid, sid ∉ serviceIds (this s)
              ∨ (response !! sid = None ∧ sid ∉ objectPrototypeKeys) →
              storeOf s' !! sid = storeOf s !! sid)
    ∧ (∀ l o, l ≠ statusMap (this s) → heap (rt s) !! l = Some o →
              heap (rt s') !! l = Some o).
Proof.
  intros Hwf.
  destruct (forEachM_updates response (serviceIds (this s)) s Hwf)
    as (s' & snaps & Hrun & Hrest).
  exists s', snaps. split; [|exact Hrest].
  unfold fetchAllStatus_resume, tryCatch, await, mbind, M_bind, bind, get.
  unfold ret at 1. cbv beta iota.
  unfold mbind, M_bind, bind in Hrun. by rewrite Hrun.
Qed.

Lemma fetchAllStatus_resume_rejected error s :
  fetchAllStatus_resume (Thrown error) s
  = (Returned tt,
     logged (errorFanout (throws (rt s)) ("Failed to fetch batch status: " +:+ error)
               (errorCallbacks (this s))) s).
Proof.
  unfold fetchAllStatus_resume, tryCatch, await, mbind, M_bind, bind, throw.
  apply notifyError_eq.
Qed.

(** The loop when no tracked id is named like a property of
    [Object.prototype]: one snapshot per applied record, each a new object
    that holds the store as it is right after that record was written. *)
Lemma forEachM_records (response : gmap string loc) ids :
  ∀ s, wf s →
    (∀ sid, sid ∈ ids → sid ∉ objectPrototypeKeys) →
    ∃ s' snapshots,
      forEachM
        (λ serviceId,
           match response !! serviceId with
           | Some status => updateServiceStatus serviceId status
           | None =>
               if decide (serviceId ∈ objectPrototypeKeys)
               then status ← inherited serviceId;
                    updateServiceStatus serviceId status
               else ret tt
           end) ids s = (Returned tt, s')
      ∧ wf s'
      ∧ statusMap (this s') = statusMap (this s)
      ∧ length snapshots = length (applied response ids)
      ∧ NoDup snapshots
      ∧ log (rt s')
        = (log (rt s)
           ++ fanouts (throws (rt s)) (statusUpdateCallbacks (this s)) snapshots)%list
      ∧ storeOf s' = written response ids (storeOf s)
      ∧ (∀ i snapshot, snapshots !! i = Some snapshot →
           heap (rt s) !! snapshot = None
           ∧ heap (rt s') !! snapshot
             = Some (ObjMap (written response (take (S i) (applied response ids))
                               (storeOf s))))
      ∧ (∀ l o, l ≠ statusMap (this s) → heap (rt s) !! l = Some o →
                heap (rt s') !! l = Some o).
Proof.
  induction ids as [|sid0 ids IH]; intros s Hwf Hids.
  - exists s, []. simpl. split; [done|]. split; [done|]. split; [done|].
    split; [done|]. split; [apply NoDup_nil_2|]. split; [by rewrite app_nil_r|].
    split; [done|]. split; [|done]. intros i snapshot Hi. done.
  - assert (Hids' : ∀ sid, sid ∈ ids → sid ∉ objectPrototypeKeys).
    { intros sid Hin. apply Hids. by right. }
    cbn [forEachM]. unfold mbind at 1, M_bind at 1, bind at 1.
    unfold applied. rewrite filter_cons. fold (applied response ids).
    destruct (response !! sid0) as [l0|] eqn:Hl0.
    + destruct (updateServiceStatus_full sid0 l0 s Hwf)
        as (s1 & Hrun1 & Hsame1 & Hwf1 & Hstore1 & Hlog1 & Hfresh1 & Hsnap1 & Hext1).
      rewrite Hrun1. set (snap0 := snapshotLoc (stored sid0 l0 s)) in *.
      pose proof Hsame1 as [Hthis _ _ _ _ _ _ _ Hthrows].
      destruct (IH s1 Hwf1 Hids')
        as (s' & snaps & Hrun' & Hwf' & Hmap' & Hlen' & Hnd' & Hlog' & Hstore' & Hsnaps' & Hext').
      assert (Hsm : snap0 ≠ statusMap (this s)).
      { intros Heq. destruct Hwf as [m Hm]. rewrite Heq in Hfresh1. congruence. }
      assert (Hback : ∀ l, heap (rt s1) !! l = None → heap (rt s) !! l = None).
      { intros l Hnone. destruct (heap (rt s) !! l) as [o|] eqn:Ho; [|done].
        destruct (decide (l = statusMap (this s))) as [->|Hne].
        - destruct Hwf1 as [m1 Hm1]. rewrite Hthis in Hm1. congruence.
        - rewrite (Hext1 l o Hne Ho) in Hnone. done. }
      exists s', (snap0 :: snaps). split; [exact Hrun'|]. split; [exact Hwf'|].
      split; [by rewrite Hmap', Hthis|].
      rewrite decide_True by (by eexists).
      split; [simpl; by rewrite Hlen'|].
      split.
      { apply NoDup_cons. split; [|done]. intros Hin.
        apply list_elem_of_lookup in Hin as [i Hi].
        destruct (Hsnaps' i snap0 Hi) as [Hnone _]. congruence. }
      split.
      { rewrite Hlog', Hlog1, Hthis, Hthrows. unfold fanouts. rewrite bind_cons.
        by rewrite app_assoc. }
      split.
      { rewrite Hstore', Hstore1. unfold written. cbn [foldl]. by rewrite Hl0. }
      split.
      { intros [|i] snapshot Hi; simpl in Hi.
        - injection Hi as <-. split; [done|].
          rewrite (Hext' snap0 _ ltac:(by rewrite Hthis) Hsnap1).
          unfold written. cbn [take foldl]. by rewrite Hl0.
        - destruct (Hsnaps' i snapshot Hi) as [Hnone Hcontent].
          split; [by apply Hback|]. rewrite Hcontent, Hstore1.
          unfold written. cbn [take foldl]. by rewrite Hl0. }
      intros l o Hl Ho. apply Hext'; [by rewrite Hthis|]. by apply Hext1.
    + rewrite decide_False by (apply Hids; by left).
      unfold ret at 1. cbv beta iota.
      destruct (IH s Hwf Hids')
        as (s' & snaps & Hrun' & Hwf' & Hmap' & Hlen' & Hnd' & Hlog' & Hstore' & Hsnaps' & Hext').
      exists s', snaps. split; [exact Hrun'|]. split; [exact Hwf'|]. split; [exact Hmap'|].
      rewrite decide_False by (by intros [? ?]).
      split; [exact Hlen'|]. split; [exact Hnd'|]. split; [exact Hlog'|].
      split; [|done].
      rewrite Hstore'. unfold written. cbn [foldl]. by rewrite Hl0.
Qed.

Lemma written_lookup (response : gmap string loc) ids :
  ∀ store sid,
    written response ids store !! sid
    = match response !! sid with
      | Some l => if decide (sid ∈ ids) then Some l else store !! sid
      | None => store !! sid
      end.
Proof.
  induction ids as [|sid0 ids IH]; intros store sid.
  - unfold written. cbn [foldl]. destruct (response !! sid); [|done].
    destruct (decide (sid ∈ [])) as [?%elem_of_nil|]; done.
  - unfold written in *. cbn [foldl]. rewrite IH.
    destruct (response !! sid) as [l|] eqn:Hl.
    + destruct (decide (sid ∈ ids)) as [Hin|Hnin].
      * rewrite decide_True; [done|by right].
      * destruct (decide (sid = sid0)) as [->|Hne].
        -- rewrite Hl, lookup_insert_eq. rewrite decide_True; [done|by left].
        -- rewrite decide_False by (intros [?|?]%elem_of_cons; done).
           destruct (response !! sid0); [by rewrite lookup_insert_ne|done].
    + destruct (response !! sid0) as [l0|] eqn:Hl0; [|done].
      rewrite lookup_insert_ne; [done|]. intros <-. congruence.
Qed.

Lemma statusCalls_fanouts behaviour callbacks snapshots :
  statusCalls (fanouts behaviour callbacks snapshots)
  = snapshots ≫= λ snapshot, (λ cb, (cb, snapshot)) <$> callbacks.
Proof.
  induction snapshots as [|snap snaps IH]; [done|].
  unfold fanouts. rewrite !bind_cons. fold (fanouts behaviour callbacks snaps).
  by rewrite statusCalls_app, statusCalls_fanout, IH.
Qed.

(** *** Counting notifications *)

Lemma filter_eq_notin (x : nat) (l : list nat) :
  x ∉ l → filter (λ y, y = x) l = [].
Proof.
  induction l as [|y l IH]; intros Hnin; [done|].
  rewrite filter_cons. destruct (decide (y = x)) as [->|Hne].
  - destruct Hnin. by left.
  - apply IH. intros Hin. apply Hnin. by right.
Qed.

Lemma filter_eq_length_NoDup (x : nat) (l : list nat) :
  NoDup l → x ∈ l → length (filter (λ y, y = x) l) = 1.
Proof.
  induction 1 as [|y l Hy Hnd IH]; intros Hin; [by apply elem_of_nil in Hin|].
  rewrite filter_cons. destruct (decide (y = x)) as [->|Hne].
  - by rewrite filter_eq_notin.
  - apply IH. apply elem_of_cons in Hin as [?|?]; [congruence|done].
Qed.

Lemma notificationsTo_app cb l1 l2 :
  notificationsTo cb (l1 ++ l2) = notificationsTo cb l1 + notificationsTo cb l2.
Proof.
  unfold notificationsTo. by rewrite statusCalls_app, filter_app, length_app.
Qed.

Lemma notificationsTo_fanout behaviour snapshot callbacks cb :
  notificationsTo cb (statusFanout behaviour snapshot callbacks)
  = length (filter (λ y, y = cb) callbacks).
Proof.
  unfold notificationsTo. rewrite statusCalls_fanout.
  induction callbacks as [|c cbs IH]; [done|].
  rewrite fmap_cons, !filter_cons. simpl.
  destruct (decide (c = cb)); simpl; by rewrite IH.
Qed.

Lemma notificationsTo_fanouts behaviour callbacks snapshots cb :
  NoDup callbacks → cb ∈ callbacks →
  notificationsTo cb (fanouts behaviour callbacks snapshots) = length snapshots.
Proof.
  intros Hnd Hin. induction snapshots as [|snap snaps IH]; [done|].
  unfold fanouts. rewrite bind_cons. fold (fanouts behaviour callbacks snaps).
  rewrite notificationsTo_app, IH, notificationsTo_fanout.
  by rewrite filter_eq_length_NoDup.
Qed.


(** *** Batch apply *)

(** C1, as stated, fails on a batch of two tracked records with one
    subscriber: the subscriber is called twice, once after each record, with
    two different snapshots. *)
Lemma batch_of_two_notifies_twice :
  (λ s, statusCalls (log (rt s))) <$>
    run [Called (CallOnStatusUpdate 7); Called CallFetchAllStatus;
         BatchSettled 1 (Returned twoRecords)] sseManager
  = Some [(7, 4%positive); (7, 5%positive)]
  ∧ (λ s, notificationsTo 7 (log (rt s))) <$>
      run [Called (CallOnStatusUpdate 7); Called CallFetchAllStatus;
           BatchSettled 1 (Returned twoRecords)] sseManager
    = Some 2.
Proof. split; vm_compute; reflexivity. Qed.

(** C1, amended: when no tracked id is named like a property of
    [Object.prototype] and [fetchAllStatus] applies a batch response, there
    is one notification round per applied record (per tracked service id
    that has a record in the response, in the order of the tracked ids): in
    each round every status subscriber is called once, and all of them with
    the same snapshot, a new object that holds the store as it is right
    after that record was written. So a subscriber is notified once per
    applied record, exactly once only for a batch of one. Afterwards a
    point lookup for each tracked id with a record in the response returns
    that record, and the entries of all other ids are as before. *)
Theorem fetchAllStatus_notifies_per_record s (response : gmap string loc) :
  wf s →
  NoDup (statusUpdateCallbacks (this s)) →
  (∀ sid, sid ∈ serviceIds (this s) → sid ∉ objectPrototypeKeys) →
  ∃ s' new snapshots,
    fetchAllStatus_resume (Returned response) s = (Returned tt, s')
    ∧ log (rt s') = (log (rt s) ++ new)%list
    ∧ length snapshots = length (applied response (serviceIds (this s)))
    ∧ NoDup snapshots
    ∧ statusCalls new
      = (snapshots ≫= λ snapshot, (λ cb, (cb, snapshot)) <$> statusUpdateCallbacks (this s))
    ∧ (∀ i snapshot, snapshots !! i = Some snapshot →
         heap (rt s) !! snapshot = None
         ∧ heap (rt s') !! snapshot
           = Some (ObjMap (written response
                             (take (S i) (applied response (serviceIds (this s))))
                             (storeOf s))))
    ∧ (∀ cb, cb ∈ statusUpdateCallbacks (this s) →
             notificationsTo cb new = length (applied response (serviceIds (this s))))
    ∧ (∀ sid l, sid ∈ serviceIds (this s) → response !! sid = Some l →
                getServiceStatus sid s' = (Returned (Some l), s'))
    ∧ (∀ sid, sid ∉ applied response (serviceIds (this s)) →
              storeOf s' !! sid = storeOf s !! sid).
Proof.
  intros Hwf Hnd Hids.
  destruct (forEachM_records response (serviceIds (this s)) s Hwf Hids)
    as (s' & snaps & Hrun & Hwf' & Hmap & Hlen & Hnds & Hlog & Hstore & Hsnaps & _).
  exists s', (fanouts (throws (rt s)) (statusUpdateCallbacks (this s)) snaps), snaps.
  split.
  { unfold fetchAllStatus_resume, tryCatch, await, mbind, M_bind, bind, get.
    unfold ret at 1. cbv beta iota.
    unfold mbind, M_bind, bind in Hrun. by rewrite Hrun. }
  split; [exact Hlog|]. split; [exact Hlen|]. split; [exact Hnds|].
  split; [apply statusCalls_fanouts|]. split; [exact Hsnaps|].
  split.
  { intros cb Hcb. rewrite notificationsTo_fanouts by done. exact Hlen. }
  split.
  - intros sid l Hin Hl. unfold getServiceStatus, mbind, M_bind, bind, get.
    cbv beta iota. fold (storeOf s'). rewrite Hstore, written_lookup, Hl.
    by rewrite decide_True.
  - intros sid Hnot. rewrite Hstore, written_lookup.
    destruct (response !! sid) as [l|] eqn:Hl; [|done].
    case_decide; [|done]. destruct Hnot. apply list_elem_of_filter. by rewrite Hl.
Qed.

Lemma fetchAllStatus_notifies_per_record_sample :
  wf subscribedManager
  ∧ NoDup (statusUpdateCallbacks (this subscribedManager))
  ∧ (∀ sid, sid ∈ serviceIds (this subscribedManager) → sid ∉ objectPrototypeKeys)
  ∧ ∃ s' new snapshots,
      fetchAllStatus_resume (Returned sampleResponse) subscribedManager = (Returned tt, s')
      ∧ log (rt s') = (log (rt subscribedManager) ++ new)%list
      ∧ length snapshots
        = length (applied sampleResponse (serviceIds (this subscribedManager)))
      ∧ NoDup snapshots
      ∧ statusCalls new
        = (snapshots ≫= λ snapshot,
             (λ cb, (cb, snapshot)) <$> statusUpdateCallbacks (this subscribedManager))
      ∧ (∀ i snapshot, snapshots !! i = Some snapshot →
           heap (rt subscribedManager) !! snapshot = None
           ∧ heap (rt s') !! snapshot
             = Some (ObjMap (written sampleResponse
                               (take (S i)
                                  (applied sampleResponse
                                     (serviceIds (this subscribedManager))))
                               (storeOf subscribedManager))))
      ∧ (∀ cb, cb ∈ statusUpdateCallbacks (this subscribedManager) →
               notificationsTo cb new
               = length (applied sampleResponse (serviceIds (this subscribedManager))))
      ∧ (∀ sid l, sid ∈ serviceIds (this subscribedManager) →
                  sampleResponse !! sid = Some l →
                  getServiceStatus sid s' = (Returned (Some l), s'))
      ∧ (∀ sid, sid ∉ applied sampleResponse (serviceIds (this subscribedManager)) →
                storeOf s' !! sid = storeOf subscribedManager !! sid).
Proof.
  assert (Hwf : wf subscribedManager) by (exists ∅; vm_compute; reflexivity).
  assert (Hnd : NoDup (statusUpdateCallbacks (this subscribedManager)))
    by (apply NoDup_singleton).
  assert (Hids : ∀ sid, sid ∈ serviceIds (this subscribedManager) →
                        sid ∉ objectPrototypeKeys).
  { change (serviceIds (this subscribedManager)) with ["a"; "b"].
    intros sid Hin. unfold objectPrototypeKeys. set_solver. }
  split; [exact Hwf|]. split; [exact Hnd|]. split; [exact Hids|].
  exact (fetchAllStatus_notifies_per_record subscribedManager sampleResponse Hwf Hnd Hids).
Defined.

(** The slip the amended statement leaves out: with the tracked id
    "constructor" and an empty response the loop finds the inherited
    [Object.prototype.constructor], stores a reference to it and notifies
    the subscriber once. *)
Example fetchAllStatus_inherited_name :
  (λ s, (statusCalls (log (rt s)), map_to_list (storeOf s), heap (rt s) !! 2%positive)) <$>
    run [Called (CallOnStatusUpdate 7); Called CallFetchAllStatus;
         BatchSettled 1 (Returned [])]
      (construct {| opt_serviceIds := ["constructor"]; enableSSE := None;
                    enableWebSocket := None; fallbackPollInterval := None |}
         (bootRuntime neverThrows))
  = Some ([(7, 3%positive)], [("constructor", 2%positive)],
          Some (ObjBuiltin "constructor")).
Proof. vm_compute. reflexivity. Qed.

(** *** Snapshots *)

Lemma mutate_topLevel_frame snapshot h mu l :
  topLevel mu = true → l ≠ snapshot → mutate snapshot h mu !! l = h !! l.
Proof.
  intros Htop Hne. destruct mu as [k v|k|k st]; [| |done]; simpl;
    destruct (h !! snapshot) as [[|m|]|]; try done; by rewrite lookup_insert_ne.
Qed.

Lemma mutate_topLevel_map snapshot h mu :
  topLevel mu = true →
  (∃ m, h !! snapshot = Some (ObjMap m)) →
  ∃ m', mutate snapshot h mu !! snapshot = Some (ObjMap m').
Proof.
  intros Htop [m Hm]. destruct mu as [k v|k|k st]; [| |done]; simpl; rewrite Hm;
    eexists; apply lookup_insert_eq.
Qed.

Lemma foldl_mutate_topLevel snapshot mus :
  ∀ h,
    Forall (λ mu, topLevel mu = true) mus →
    (∃ m, h !! snapshot = Some (ObjMap m)) →
    (∃ m', foldl (mutate snapshot) h mus !! snapshot = Some (ObjMap m'))
    ∧ ∀ l, l ≠ snapshot → foldl (mutate snapshot) h mus !! l = h !! l.
Proof.
  induction mus as [|mu mus IH]; intros h Hall Hm; [done|].
  apply Forall_cons in Hall as [Hmu Hall]. cbn [foldl].
  destruct (IH (mutate snapshot h mu) Hall (mutate_topLevel_map _ _ _ Hmu Hm))
    as [Hm' Hframe].
  split; [exact Hm'|]. intros l Hne. rewrite Hframe by done.
  by apply mutate_topLevel_frame.
Qed.

Example storeWithA_reached :
  run [Called CallFetchAllStatus;
       BatchSettled 1 (Returned [("a", sampleStatus "a" 0)])] sseManager
  = Some storeWithA.
Proof. vm_compute. reflexivity. Qed.

(** C3, as stated, fails: the copy made by [getStatusMap] is shallow. After
    a field of the record under "a" is overwritten through the snapshot, a
    lookup of "a" in the store yields the overwritten record. *)
Lemma snapshot_record_write_reaches_store :
  lookupStatus (this storeWithA) (heap (rt storeWithA)) "a"
  = Some (sampleStatus "a" 0)
  ∧ getStatusMap storeWithA = (Returned (snapshotLoc storeWithA), snapshotted storeWithA)
  ∧ lookupStatus (this storeWithA)
      (mutate (snapshotLoc storeWithA) (heap (rt (snapshotted storeWithA)))
         (AssignRecord "a" (sampleStatus "a" 2)))
      "a"
    = Some (sampleStatus "a" 2).
Proof. split; [|split]; vm_compute; reflexivity. Qed.

(** C3, amended: for every well-formed state, [getStatusMap] returns a new
    map object with the entries of the store, and any sequence of mutations
    of that returned mapping itself (setting, replacing or deleting
    entries) leaves the store's own mapping, every other object, and hence
    every later lookup in the store unchanged. The returned mapping shares
    its status records with the store. *)
Theorem snapshot_mapping_is_a_copy s (mus : list Mutation) :
  wf s →
  Forall (λ mu, topLevel mu = true) mus →
  ∃ snapshot s1,
    getStatusMap s = (Returned snapshot, s1)
    ∧ snapshot ≠ statusMap (this s)
    ∧ readMap (heap (rt s1)) snapshot = storeOf s
    ∧ (∀ l, l ≠ snapshot →
            foldl (mutate snapshot) (heap (rt s1)) mus !! l = heap (rt s) !! l)
    ∧ readMap (foldl (mutate snapshot) (heap (rt s1)) mus) (statusMap (this s))
      = storeOf s
    ∧ ∀ sid, lookupStatus (this s) (foldl (mutate snapshot) (heap (rt s1)) mus) sid
             = lookupStatus (this s) (heap (rt s)) sid.
Proof.
  intros Hwf Hall. exists (snapshotLoc s), (snapshotted s).
  pose proof (snapshotLoc_not_store s Hwf) as Hne.
  pose proof (snapshotLoc_fresh s) as Hfresh.
  split; [apply getStatusMap_eq|]. split; [exact Hne|].
  assert (Hsnap : heap (rt (snapshotted s)) !! snapshotLoc s = Some (ObjMap (storeOf s)))
    by apply lookup_insert_eq.
  split; [unfold readMap; by rewrite Hsnap|].
  destruct (foldl_mutate_topLevel (snapshotLoc s) mus (heap (rt (snapshotted s))) Hall)
    as [[m' Hm'] Hframe]; [by eexists|].
  assert (Hframe' : ∀ l, l ≠ snapshotLoc s →
            foldl (mutate (snapshotLoc s)) (heap (rt (snapshotted s))) mus !! l
            = heap (rt s) !! l).
  { intros l Hl. rewrite Hframe by done. simpl. by rewrite lookup_insert_ne. }
  split; [exact Hframe'|].
  assert (Hstore : readMap (foldl (mutate (snapshotLoc s)) (heap (rt (snapshotted s))) mus)
                     (statusMap (this s)) = storeOf s).
  { unfold storeOf, readMap. by rewrite Hframe'. }
  split; [exact Hstore|].
  intros sid. unfold lookupStatus. rewrite Hstore. fold (storeOf s).
  set (h' := foldl (mutate (snapshotLoc s)) (heap (rt (snapshotted s))) mus) in *.
  destruct (storeOf s !! sid) as [l|]; [|done]. simpl.
  destruct (decide (l = snapshotLoc s)) as [->|Hl].
  - by rewrite Hm', Hfresh.
  - by rewrite Hframe'.
Qed.

Lemma snapshot_mapping_is_a_copy_sample :
  wf storeWithA
  ∧ Forall (λ mu, topLevel mu = true) [DeleteEntry "a"; SetEntry "b" 9%positive]
  ∧ ∃ snapshot s1,
      getStatusMap storeWithA = (Returned snapshot, s1)
      ∧ snapshot ≠ statusMap (this storeWithA)
      ∧ readMap (heap (rt s1)) snapshot = storeOf storeWithA
      ∧ (∀ l, l ≠ snapshot →
              foldl (mutate snapshot) (heap (rt s1))
                [DeleteEntry "a"; SetEntry "b" 9%positive] !! l
              = heap (rt storeWithA) !! l)
      ∧ readMap (foldl (mutate snapshot) (heap (rt s1))
                   [DeleteEntry "a"; SetEntry "b" 9%positive])
          (statusMap (this storeWithA))
        = storeOf storeWithA
      ∧ ∀ sid, lookupStatus (this storeWithA)
                 (foldl (mutate snapshot) (heap (rt s1))
                    [DeleteEntry "a"; SetEntry "b" 9%positive]) sid
               = lookupStatus (this storeWithA) (heap (rt storeWithA)) sid.
Proof.
  assert (Hwf : wf storeWithA).
  { exists (<["a" := 2%positive]> ∅). vm_compute. reflexivity. }
  assert (Hall : Forall (λ mu, topLevel mu = true) [DeleteEntry "a"; SetEntry "b" 9%positive]).
  { repeat constructor. }
  split; [exact Hwf|]. split; [exact Hall|].
  exact (snapshot_mapping_is_a_copy storeWithA _ Hwf Hall).
Defined.

(** *** cleanup *)

Ltac cleanup_cases s :=
  destruct s as [[ids sm [sse|] [ws|] [poll|] scb ecb fpi se we] r];
  unfold cleanup, closeWebSocket, closeEventSource, clearInterval, setReadyState,
    readyStateOf;
  unfold_monad; simpl;
  try (match goal with
       | |- context [sockets ?r !! ?c] => destruct (sockets r !! c) as [[k []]|]
       | |- context [alter ?f ?c0 (sockets ?r) !! ?c] =>
           destruct (alter f c0 (sockets r) !! c) as [[k []]|]
       end);
  simpl.

Lemma cleanup_returns s : (cleanup s).1 = Returned tt.
Proof. cleanup_cases s; reflexivity. Qed.

(** After [cleanup] no connection and no poll timer is held and both
    subscriber sets are empty. *)
Lemma cleanup_this s :
  this (cleanup s).2
  = with_callbacks [] [] (with_pollInterval None (with_connections None None (this s))).
Proof. cleanup_cases s; reflexivity. Qed.

(** [cleanup] touches only the sockets and the timer table. *)
Lemma cleanup_frame s :
  heap (rt (cleanup s).2) = heap (rt s)
  ∧ log (rt (cleanup s).2) = log (rt s)
  ∧ pending (rt (cleanup s).2) = pending (rt s)
  ∧ now (rt (cleanup s).2) = now (rt s)
  ∧ throws (rt (cleanup s).2) = throws (rt s)
  ∧ nextTimer (rt (cleanup s).2) = nextTimer (rt s)
  ∧ nextSocket (rt (cleanup s).2) = nextSocket (rt s).
Proof. cleanup_cases s; repeat split; reflexivity. Qed.

(** The poll timer is cleared; no other timer is. *)
Lemma cleanup_timers s :
  timers (rt (cleanup s).2)
  = match pollInterval (this s) with
    | Some id => delete id (timers (rt s))
    | None => timers (rt s)
    end.
Proof. cleanup_cases s; reflexivity. Qed.


Lemma cleanup_idempotent s : cleanup (cleanup s).2 = (Returned tt, (cleanup s).2).
Proof. cleanup_cases s; reflexivity. Qed.

(** The event source is closed at once. *)
Lemma cleanup_closes_sse s c k :
  sseConnection (this s) = Some c →
  wsConnection (this s) ≠ Some c →
  sockets (rt s) !! c = Some k →
  readyStateOf (rt (cleanup s).2) c = CLOSED.
Proof.
  destruct s as [[ids sm sse ws poll scb ecb fpi se we] r]. simpl.
  intros -> Hws Hk.
  unfold cleanup, closeWebSocket, closeEventSource, clearInterval, setReadyState,
    readyStateOf.
  unfold_monad. simpl.
  destruct ws as [w|]; simpl.
  - assert (w ≠ c) by congruence.
    destruct (alter _ c (sockets r) !! w) as [[k' []]|] eqn:Hw; simpl;
      destruct poll; simpl;
      rewrite ?lookup_alter_ne by done; rewrite lookup_alter_eq, Hk; done.
  - destruct poll; simpl; rewrite lookup_alter_eq, Hk; done.
Qed.

(** An open socket starts its closing handshake. *)
Lemma cleanup_closes_ws s c kind :
  wsConnection (this s) = Some c →
  sseConnection (this s) = None →
  sockets (rt s) !! c = Some {| socket_kind := kind; readyState := OPEN |} →
  readyStateOf (rt (cleanup s).2) c = CLOSING.
Proof.
  destruct s as [[ids sm sse ws poll scb ecb fpi se we] r]. simpl.
  intros -> -> Hk.
  unfold cleanup, closeWebSocket, closeEventSource, clearInterval, setReadyState,
    readyStateOf.
  unfold_monad. simpl. rewrite Hk. simpl.
  destruct poll; simpl; rewrite lookup_alter_eq, Hk; done.
Qed.

(** *** A fetch that settles after cleanup *)

Lemma fetchServiceStatus_resume_returned serviceId status s :
  wf s →
  ∃ s' snapshot,
    fetchServiceStatus_resume serviceId (Returned status) s = (Returned (Some status), s')
    ∧ sameControl s s'
    ∧ wf s'
    ∧ storeOf s' = <[serviceId := status]> (storeOf s)
    ∧ log (rt s')
      = (log (rt s)
         ++ statusFanout (throws (rt s)) snapshot (statusUpdateCallbacks (this s)))%list.
Proof.
  intros Hwf.
  destruct (updateServiceStatus_spec serviceId status s Hwf) as (s' & snap & Hrun & Hrest).
  exists s', snap. split; [|exact Hrest].
  unfold fetchServiceStatus_resume, tryCatch, await, mbind, M_bind, bind.
  unfold ret at 1. cbv beta iota. by rewrite Hrun.
Qed.

Lemma fetchServiceStatus_resume_rejected serviceId error s :
  fetchServiceStatus_resume serviceId (Thrown error) s
  = (Returned None,
     logged (errorFanout (throws (rt s))
               ("Failed to fetch status for " +:+ serviceId +:+ ": " +:+ error)
               (errorCallbacks (this s))) s).
Proof.
  unfold fetchServiceStatus_resume, tryCatch, await, mbind, M_bind, bind, throw.
  by rewrite notifyError_eq.
Qed.

Lemma alloc_eq o s :
  alloc o s
  = (Returned (snapshotLoc s),
     {| this := this s; rt := with_heap (<[snapshotLoc s := o]> (heap (rt s))) (rt s) |}).
Proof. reflexivity. Qed.








Example fetchInFlight_reached :
  run [Called (CallOnStatusUpdate 7); Called CallFetchAllStatus] sseManager
  = Some fetchInFlight.
Proof. vm_compute. reflexivity. Qed.


(** *** Reconnection and cleanup *)

(** From any state, a reconnect attempt that runs after [cleanup] finds
    [wsConnection] null and opens a new socket. *)
Lemma reconnectAttempt_after_cleanup s :
  let s1 := (cleanup s).2 in
  let s2 := (reconnectAttempt s1).2 in
  wsConnection (this s2) = Some (nextSocket (rt s1))
  ∧ sockets (rt s2) !! nextSocket (rt s1)
    = Some {| socket_kind := WebSocketSocket; readyState := CONNECTING |}.
Proof.
  intros s1 s2. subst s2. unfold reconnectAttempt, mbind, M_bind, bind, get.
  cbv beta iota. replace (this s1) with
    (with_callbacks [] [] (with_pollInterval None (with_connections None None (this s))))
    by (symmetry; apply cleanup_this).
  simpl. split; [done|]. apply lookup_insert_eq.
Qed.

(** The timeout scheduled by [onclose] is not touched by [cleanup]: it is
    held in no field, and [cleanup] clears the poll timer only. *)
Lemma cleanup_keeps_reconnect_timer s id t :
  timers (rt s) !! id = Some t →
  pollInterval (this s) ≠ Some id →
  timers (rt (cleanup s).2) !! id = Some t.
Proof.
  intros Ht Hne. rewrite cleanup_timers.
  destruct (pollInterval (this s)) as [p|]; [|done].
  rewrite lookup_delete_ne; [done|congruence].
Qed.

(** C4: the code at the failing schedules. First: the manager is disposed
    while its socket is open; the close event that [cleanup] itself causes
    schedules a reconnect, and five seconds later the disposed manager
    holds a new connecting socket. Second: the server closes the socket, the
    manager is disposed two seconds later with the reconnect pending, and
    the pending attempt opens a new socket all the same. *)
Theorem reconnect_after_cleanup_opens_socket :
  connectionView <$>
    run (wsLive ++ [Called CallCleanup; WsClosed 1; Tick 5000; TimerFired 2]) wsManager
  = Some (Some 2%positive, None, [],
          [(2%positive, {| socket_kind := WebSocketSocket; readyState := CONNECTING |});
           (1%positive, {| socket_kind := WebSocketSocket; readyState := CLOSED |})],
          [], 5000%Z)
  ∧ connectionView <$>
      run (wsLive ++ [WsClosed 1; Tick 2000; Called CallCleanup; Tick 3000; TimerFired 3])
        wsManager
    = Some (Some 2%positive, None, [],
            [(2%positive, {| socket_kind := WebSocketSocket; readyState := CONNECTING |});
             (1%positive, {| socket_kind := WebSocketSocket; readyState := CLOSED |})],
            [], 5000%Z).
Proof. split; vm_compute; reflexivity. Qed.

(** The same defect on the batch path of [initialize]: disposed while the
    first fetch is in flight, the manager opens its event source and starts
    the poll timer when the fetch settles. *)
Example initialize_resumes_after_cleanup :
  (λ s, (sseConnection (this s), pollInterval (this s), map_to_list (timers (rt s)))) <$>
    run [Called CallInitialize; Called CallCleanup; BatchSettled 1 (Returned [])] sseManager
  = Some (Some 1%positive, Some 1%positive,
          [(1%positive, {| timer_kind := Interval; timer_delay := 30000;
                           timer_due := 30000; timer_action := PollTick |})]).
Proof. vm_compute. reflexivity. Qed.

(** *** The fallback poller *)

Lemma accelerateFallbackPolling_eq s id :
  pollInterval (this s) = Some id →
  accelerateFallbackPolling s
  = (Returned tt,
     {| this := with_pollInterval (Some (nextTimer (rt s))) (this s);
        rt := with_timers
                (<[nextTimer (rt s) := pollTimer 5000 (now (rt s) + 5000)]>
                   (delete id (timers (rt s))))
                (Pos.succ (nextTimer (rt s))) (rt s) |}).
Proof.
  intros Hid. unfold accelerateFallbackPolling, mbind, M_bind, bind, get.
  cbv beta iota. rewrite Hid. reflexivity.
Qed.

Lemma resetFallbackPolling_eq s id :
  pollInterval (this s) = Some id →
  resetFallbackPolling s
  = (Returned tt,
     {| this := with_pollInterval (Some (nextTimer (rt s))) (this s);
        rt := with_timers
                (<[nextTimer (rt s) :=
                     pollTimer (FALLBACK_POLL_INTERVAL (this s))
                       (now (rt s) + FALLBACK_POLL_INTERVAL (this s))]>
                   (delete id (timers (rt s))))
                (Pos.succ (nextTimer (rt s))) (rt s) |}).
Proof.
  intros Hid. unfold resetFallbackPolling, mbind, M_bind, bind, get.
  cbv beta iota. rewrite Hid. reflexivity.
Qed.

Lemma accelerate_rearmed s id :
  pollInterval (this s) = Some id →
  rearmed s (accelerateFallbackPolling s).2 id 5000.
Proof.
  intros Hid. rewrite (accelerateFallbackPolling_eq s id Hid). simpl.
  exists (nextTimer (rt s)). split; [done|]. split; [apply lookup_insert_eq|].
  intros Hne. simpl. rewrite lookup_insert_ne by done. apply lookup_delete_eq.
Qed.

Lemma reset_rearmed s id :
  pollInterval (this s) = Some id →
  rearmed s (resetFallbackPolling s).2 id (FALLBACK_POLL_INTERVAL (this s)).
Proof.
  intros Hid. rewrite (resetFallbackPolling_eq s id Hid). simpl.
  exists (nextTimer (rt s)). split; [done|]. split; [apply lookup_insert_eq|].
  intros Hne. simpl. rewrite lookup_insert_ne by done. apply lookup_delete_eq.
Qed.

(** Writing to the store and notifying leaves timers, clock and the
    manager's fields alone, from any state. *)
Lemma updateServiceStatus_sameControl serviceId status s :
  ∃ s', updateServiceStatus serviceId status s = (Returned tt, s') ∧ sameControl s s'.
Proof.
  rewrite updateServiceStatus_eq, notifyStatusUpdate_eq. eexists. split; [done|].
  unfold stored. destruct s as [m r]. simpl.
  destruct (heap r !! statusMap m) as [[| |]|]; by split.
Qed.

Lemma rearmed_sameControl s s1 s' old delay :
  sameControl s s1 → rearmed s1 s' old delay → rearmed s s' old delay.
Proof.
  intros [_ Hnow _ _ _ _ _ _ _] (id & ? & Ht & ?). exists id.
  rewrite <- Hnow. done.
Qed.

(** A live update for a tracked service, on either channel. *)
Lemma live_update_rearmed serviceId status s id :
  pollInterval (this s) = Some id →
  rearmed s
    ((updateServiceStatus serviceId status ;; resetFallbackPolling) s).2
    id (FALLBACK_POLL_INTERVAL (this s)).
Proof.
  intros Hid.
  destruct (updateServiceStatus_sameControl serviceId status s) as (s1 & Hrun & Hsame).
  unfold mbind, M_bind, bind. rewrite Hrun.
  pose proof Hsame as [Hthis _ _ _ _ _ _ _ _].
  apply (rearmed_sameControl s s1); [done|].
  rewrite <- Hthis. apply reset_rearmed. by rewrite Hthis.
Qed.

(** C6, as stated, fails in two ways. A second stream error three seconds
    after the first re-arms the five-second timer again: five seconds after
    the first error no poll has been sent and the next one is due at 8000.
    And a socket error event does not touch the poll timer at all: the next
    poll stays due at the base interval. *)
Lemma error_does_not_bound_next_poll :
  (λ s, (now (rt s), map_to_list (timers (rt s)), log (rt s))) <$>
    run (sseLive ++ [SseErrored 1; Tick 3000; SseErrored 1; Tick 2000]) sseManager
  = Some (5000%Z,
          [(3%positive, pollTimer 5000 8000)],
          [RequestSent "/api/status/batch";
           ConsoleLog "SSE connection established";
           ConsoleError "SSE connection error";
           ConsoleError "SSE connection error"])
  ∧ (λ s, (now (rt s), map_to_list (timers (rt s)))) <$>
      run (wsLive ++ [WsErrored 1]) wsManager
    = Some (0%Z, [(1%positive, pollTimer 30000 30000)]).
Proof. split; vm_compute; reflexivity. Qed.

(** C6, amended: with the fallback poller running, the handler of a stream
    error event and the handler of a socket close event each clear the poll
    timer and arm a new one with period 5000 ms, first due exactly 5000 ms
    after that event; the clock cannot pass that instant without the timer
    firing, unless a later channel event re-arms the timer first. A live
    update for a tracked service, on either channel, clears the poll timer
    and arms a new one with the base period, first due one base period after
    that update. A socket error event only notifies the error subscribers
    and leaves the timers as they are. *)
Theorem poll_timer_rearmed s id :
  pollInterval (this s) = Some id →
  (id < nextTimer (rt s))%positive →
  rearmed s (sse_onerror s).2 id 5000
  ∧ rearmed s (ws_onclose s).2 id 5000
  ∧ (∀ dt, enabled (Tick dt) (sse_onerror s).2 = true → (dt ≤ 5000)%Z)
  ∧ (∀ dt, enabled (Tick dt) (ws_onclose s).2 = true → (dt ≤ 5000)%Z)
  ∧ (∀ status sid,
       statusServiceId (heap (rt s)) status = Some sid →
       sid ∈ serviceIds (this s) →
       rearmed s (sse_onmessage (Returned status) s).2 id (FALLBACK_POLL_INTERVAL (this s)))
  ∧ (∀ status sid,
       sid ∈ serviceIds (this s) →
       rearmed s (ws_onmessage (Returned (WsStatusUpdate sid status)) s).2 id
         (FALLBACK_POLL_INTERVAL (this s)))
  ∧ timers (rt (ws_onerror s).2) = timers (rt s)
  ∧ pollInterval (this (ws_onerror s).2) = Some id.
Proof.
  intros Hid Hlt.
  assert (Hne : id ≠ nextTimer (rt s)) by lia.
  assert (Hsse : (sse_onerror s).2
                 = (accelerateFallbackPolling (logged [ConsoleError "SSE connection error"] s)).2)
    by reflexivity.
  assert (Hacc : rearmed s (sse_onerror s).2 id 5000).
  { rewrite Hsse. apply (accelerate_rearmed (logged _ s)). exact Hid. }
  assert (Hws : rearmed s (ws_onclose s).2 id 5000).
  { unfold ws_onclose, setTimeout, setTimer, mbind, M_bind, bind, emit, modifyRt, get, ret.
    cbv beta iota.
    rewrite (accelerateFallbackPolling_eq _ id) by exact Hid. simpl.
    exists (nextTimer (rt s)). split; [done|]. split.
    - simpl. rewrite lookup_insert_ne by lia. apply lookup_insert_eq.
    - intros _. simpl. rewrite !lookup_insert_ne by lia. apply lookup_delete_eq. }
  assert (Hbound : ∀ s' dt, rearmed s s' id 5000 → now (rt s') = now (rt s) →
                     enabled (Tick dt) s' = true → (dt ≤ 5000)%Z).
  { intros s' dt (id' & _ & Ht & _) Hnow Hen. unfold enabled in Hen.
    apply andb_true_iff in Hen as [_ Hall%bool_decide_eq_true].
    specialize (Hall id' _ Ht). simpl in Hall. lia. }
  split; [exact Hacc|]. split; [exact Hws|].
  split; [intros dt; apply Hbound; [exact Hacc|]|].
  { rewrite Hsse. by rewrite (accelerateFallbackPolling_eq _ id) by exact Hid. }
  split; [intros dt; apply Hbound; [exact Hws|]|].
  { unfold ws_onclose, setTimeout, setTimer, mbind, M_bind, bind, emit, modifyRt, get, ret.
    cbv beta iota.
    by rewrite (accelerateFallbackPolling_eq _ id) by exact Hid. }
  split.
  { intros status sid Hsid Hin.
    unfold sse_onmessage, tryCatch, await, mbind, M_bind, bind, get.
    unfold ret at 1. cbv beta iota. rewrite Hsid.
    rewrite bool_decide_eq_true_2 by done.
    pose proof (live_update_rearmed sid status s id Hid) as Hr.
    unfold mbind, M_bind, bind in Hr.
    destruct (updateServiceStatus_sameControl sid status s) as (s1 & Hrun & Hsame).
    rewrite Hrun in Hr |- *.
    pose proof Hsame as [Hthis _ _ _ _ _ _ _ _].
    rewrite (resetFallbackPolling_eq s1 id) in Hr |- * by (by rewrite Hthis).
    exact Hr. }
  split.
  { intros status sid Hin.
    unfold ws_onmessage, tryCatch, await, mbind, M_bind, bind, get.
    unfold ret at 1. cbv beta iota.
    rewrite bool_decide_eq_true_2 by done.
    pose proof (live_update_rearmed sid status s id Hid) as Hr.
    unfold mbind, M_bind, bind in Hr.
    destruct (updateServiceStatus_sameControl sid status s) as (s1 & Hrun & Hsame).
    rewrite Hrun in Hr |- *.
    pose proof Hsame as [Hthis _ _ _ _ _ _ _ _].
    rewrite (resetFallbackPolling_eq s1 id) in Hr |- * by (by rewrite Hthis).
    exact Hr. }
  unfold ws_onerror, mbind, M_bind, bind, emit, modifyRt. cbv beta iota.
  rewrite notifyError_eq. simpl. done.
Qed.

Example sseLiveState_reached : run sseLive sseManager = Some sseLiveState.
Proof. vm_compute. reflexivity. Qed.

Lemma poll_timer_rearmed_sample :
  pollInterval (this sseLiveWithUpdate) = Some 1%positive
  ∧ (1 < nextTimer (rt sseLiveWithUpdate))%positive
  ∧ rearmed sseLiveWithUpdate (sse_onerror sseLiveWithUpdate).2 1 5000
  ∧ rearmed sseLiveWithUpdate (ws_onclose sseLiveWithUpdate).2 1 5000
  ∧ (∀ dt, enabled (Tick dt) (sse_onerror sseLiveWithUpdate).2 = true → (dt ≤ 5000)%Z)
  ∧ (∀ dt, enabled (Tick dt) (ws_onclose sseLiveWithUpdate).2 = true → (dt ≤ 5000)%Z)
  ∧ (∀ status sid,
       statusServiceId (heap (rt sseLiveWithUpdate)) status = Some sid →
       sid ∈ serviceIds (this sseLiveWithUpdate) →
       rearmed sseLiveWithUpdate (sse_onmessage (Returned status) sseLiveWithUpdate).2 1
         (FALLBACK_POLL_INTERVAL (this sseLiveWithUpdate)))
  ∧ (∀ status sid,
       sid ∈ serviceIds (this sseLiveWithUpdate) →
       rearmed sseLiveWithUpdate
         (ws_onmessage (Returned (WsStatusUpdate sid status)) sseLiveWithUpdate).2 1
         (FALLBACK_POLL_INTERVAL (this sseLiveWithUpdate)))
  ∧ timers (rt (ws_onerror sseLiveWithUpdate).2) = timers (rt sseLiveWithUpdate)
  ∧ pollInterval (this (ws_onerror sseLiveWithUpdate).2) = Some 1%positive.
Proof.
  assert (Hid : pollInterval (this sseLiveWithUpdate) = Some 1%positive)
    by (vm_compute; reflexivity).
  assert (Hlt : (1 < nextTimer (rt sseLiveWithUpdate))%positive)
    by (vm_compute; reflexivity).
  split; [exact Hid|]. split; [exact Hlt|].
  exact (poll_timer_rearmed sseLiveWithUpdate 1 Hid Hlt).
Defined.

(** The tracked update of the sample state is applied and re-arms the timer
    with the base period. *)
Example live_update_sample :
  statusServiceId (heap (rt sseLiveWithUpdate)) trackedUpdate = Some "a"
  ∧ (λ s, (map_to_list (timers (rt s)), map_to_list (storeOf s)))
      (sse_onmessage (Returned trackedUpdate) sseLiveWithUpdate).2
    = ([(2%positive, pollTimer 30000 30000)], [("a", trackedUpdate)]).
Proof. split; vm_compute; reflexivity. Qed.

(** *** Reachable states *)

Lemma good_frame cfg s s' :
  this s' = this s →
  timers (rt s') = timers (rt s) → nextTimer (rt s') = nextTimer (rt s) →
  sockets (rt s') = sockets (rt s) → nextSocket (rt s') = nextSocket (rt s) →
  wf s' → good cfg s → good cfg s'.
Proof.
  intros Ht Hti Hnt Hso Hns Hwf [[] Hcfg].
  split; [split|]; rewrite ?Ht, ?Hti, ?Hnt, ?Hso, ?Hns; done.
Qed.

Lemma good_set_timers cfg s ts n :
  good cfg s →
  (∀ id, pollInterval (this s) = Some id → ∃ delay due, ts !! id = Some (pollTimer delay due)) →
  (∀ id, is_Some (ts !! id) → (id < n)%positive) →
  good cfg {| this := this s; rt := with_timers ts n (rt s) |}.
Proof. intros [[] Hcfg] Hpoll Hids. split; [split|]; done. Qed.

Lemma good_set_sockets cfg s ss n :
  good cfg s →
  (∀ c, sseConnection (this s) = Some c →
        ∃ st, ss !! c = Some {| socket_kind := EventSourceSocket; readyState := st |}) →
  (∀ c, wsConnection (this s) = Some c →
        ∃ st, ss !! c = Some {| socket_kind := WebSocketSocket; readyState := st |}) →
  (∀ c, is_Some (ss !! c) → (c < n)%positive) →
  good cfg {| this := this s; rt := with_sockets ss n (rt s) |}.
Proof. intros [[] Hcfg] Hsse Hws Hids. split; [split|]; done. Qed.

Lemma good_set_this cfg s m :
  good cfg s →
  configOf m = configOf (this s) →
  NoDup (statusUpdateCallbacks m) → NoDup (errorCallbacks m) →
  (∀ id, pollInterval m = Some id →
         ∃ delay due, timers (rt s) !! id = Some (pollTimer delay due)) →
  (∀ c, sseConnection m = Some c →
        ∃ st, sockets (rt s) !! c
              = Some {| socket_kind := EventSourceSocket; readyState := st |}) →
  (∀ c, wsConnection m = Some c →
        ∃ st, sockets (rt s) !! c
              = Some {| socket_kind := WebSocketSocket; readyState := st |}) →
  good cfg {| this := m; rt := rt s |}.
Proof.
  intros [[[o Ho]] Hcfg] Hm Hscb Hecb Hpoll Hsse Hws.
  split; [split|]; try done.
  - exists o. simpl. replace (statusMap m) with (statusMap (this s)); [done|].
    unfold configOf in Hm. congruence.
  - simpl. by rewrite Hm.
Qed.

Lemma keeps_ret {A} cfg (a : A) : keeps cfg (ret a).
Proof. by intros s Hs. Qed.

Lemma keeps_mret {A} cfg (a : A) : keeps cfg (mret a).
Proof. by intros s Hs. Qed.

Lemma keeps_throw {A} cfg e : keeps cfg (@throw A e).
Proof. by intros s Hs. Qed.

Lemma keeps_get cfg : keeps cfg get.
Proof. by intros s Hs. Qed.

Lemma good_bind {A B} cfg (m : M A) (k : A → M B) s :
  good cfg (m s).2 → (∀ a, keeps cfg (k a)) → good cfg ((m ≫= k) s).2.
Proof.
  intros Hm Hk. unfold mbind, M_bind, bind.
  destruct (m s) as [[a|e] s1]; simpl in *; [by apply Hk|done].
Qed.

Lemma keeps_bind {A B} cfg (m : M A) (k : A → M B) :
  keeps cfg m → (∀ a, keeps cfg (k a)) → keeps cfg (m ≫= k).
Proof. intros Hm Hk s Hs. apply good_bind; [by apply Hm|done]. Qed.

Lemma keeps_tryCatch {A} cfg (body : M A) handler :
  keeps cfg body → (∀ e, keeps cfg (handler e)) → keeps cfg (tryCatch body handler).
Proof.
  intros Hb Hh s Hs. unfold tryCatch. specialize (Hb s Hs).
  destruct (body s) as [[a|e] s1]; simpl in *; [done|by apply Hh].
Qed.

Lemma keeps_forEachM {A} cfg (body : A → M unit) l :
  (∀ a, keeps cfg (body a)) → keeps cfg (forEachM body l).
Proof.
  intros Hbody. induction l as [|a l IH]; [apply keeps_ret|].
  cbn [forEachM]. apply keeps_bind; [apply Hbody|by intros _].
Qed.

Lemma keeps_await {A} cfg (response : Outcome A) : keeps cfg (await response).
Proof. destruct response; [apply keeps_ret|apply keeps_throw]. Qed.

Lemma keeps_emit cfg e : keeps cfg (emit e).
Proof.
  intros s Hs. apply (good_frame cfg s); try done. destruct Hs as [[[o Ho]] _]. by exists o.
Qed.

Lemma keeps_alloc cfg o : keeps cfg (alloc o).
Proof.
  intros s Hs. apply (good_frame cfg s); try done.
  pose proof Hs as [[Hwf] _]. pose proof (snapshotLoc_not_store s Hwf) as Hne.
  destruct Hwf as [m Hm]. exists m. unfold alloc. unfold_monad. simpl.
  rewrite lookup_insert_ne; [done|]. exact Hne.
Qed.

Lemma keeps_writeMap cfg l f : keeps cfg (writeMap l f).
Proof.
  intros s Hs. pose proof Hs as [[[m Hm]] _].
  unfold writeMap, modifyRt. cbn [snd].
  destruct (heap (rt s) !! l) as [[st|m'|name]|] eqn:Hl;
    apply (good_frame cfg s); try done; try (by exists m).
  unfold wf. simpl. destruct (decide (statusMap (this s) = l)) as [<-|Hne].
  - rewrite lookup_insert_eq. eauto.
  - rewrite lookup_insert_ne by done. eauto.
Qed.

Lemma keeps_pending cfg p n :
  keeps cfg (modifyRt (λ r, with_pending (p r) (n r) r)).
Proof.
  intros s Hs. apply (good_frame cfg s); try done. destruct Hs as [[[o Ho]] _]. by exists o.
Qed.

Lemma keeps_axiosGet cfg url k : keeps cfg (axiosGet url k).
Proof.
  unfold axiosGet. apply keeps_bind; [apply keeps_get|]. intros s0.
  apply keeps_bind; [|intros _; apply keeps_emit].
  apply (keeps_pending cfg (λ r, <[nextRequest (rt s0) := k]> (pending r))
           (λ _, Pos.succ (nextRequest (rt s0)))).
Qed.

Lemma good_setTimer cfg kind action delay s (keep : StatusManager → StatusManager) :
  good cfg s →
  good cfg {| this := this s;
              rt := with_timers
                      (<[nextTimer (rt s) :=
                           {| timer_kind := kind; timer_delay := delay;
                              timer_due := (now (rt s) + delay)%Z;
                              timer_action := action |}]> (timers (rt s)))
                      (Pos.succ (nextTimer (rt s))) (rt s) |}.
Proof.
  intros Hs. pose proof Hs as [[_ _ _ Hpoll Hids _ _ _] _].
  apply good_set_timers; [done| |].
  - intros id Hid. destruct (Hpoll id Hid) as (d & due & Ht). exists d, due.
    rewrite lookup_insert_ne; [done|].
    assert (id < nextTimer (rt s))%positive by (apply Hids; by rewrite Ht). lia.
  - intros id [t Ht]. apply lookup_insert_Some in Ht as [[<- _]|[_ Ht]]; [lia|].
    assert (id < nextTimer (rt s))%positive by (apply Hids; by rewrite Ht). lia.
Qed.

Lemma keeps_setTimer cfg kind action delay : keeps cfg (setTimer kind action delay).
Proof. intros s Hs. by apply (good_setTimer cfg kind action delay s id). Qed.

Lemma keeps_setReadyState cfg c st : keeps cfg (setReadyState c st).
Proof.
  intros s Hs. pose proof Hs as [[_ _ _ _ _ Hsse Hws Hids] _].
  apply good_set_sockets; [done| | |].
  - intros c' Hc'. destruct (Hsse c' Hc') as [st' Hk].
    destruct (decide (c' = c)) as [->|Hne].
    + rewrite lookup_alter_eq, Hk. simpl. eauto.
    + rewrite lookup_alter_ne by done. eauto.
  - intros c' Hc'. destruct (Hws c' Hc') as [st' Hk].
    destruct (decide (c' = c)) as [->|Hne].
    + rewrite lookup_alter_eq, Hk. simpl. eauto.
    + rewrite lookup_alter_ne by done. eauto.
  - intros c' Hc'. apply Hids. by apply lookup_alter_is_Some in Hc'.
Qed.

Lemma keeps_closeWebSocket cfg c : keeps cfg (closeWebSocket c).
Proof.
  unfold closeWebSocket. apply keeps_bind; [apply keeps_get|]. intros s0.
  destruct (readyStateOf (rt s0) c); first [apply keeps_setReadyState | apply keeps_ret].
Qed.

(** Opening a connection stores a socket of the right kind. *)
Lemma good_newSocket cfg kind s :
  good cfg s →
  good cfg {| this := this s;
              rt := with_sockets
                      (<[nextSocket (rt s) := {| socket_kind := kind; readyState := CONNECTING |}]>
                         (sockets (rt s)))
                      (Pos.succ (nextSocket (rt s))) (rt s) |}.
Proof.
  intros Hs. pose proof Hs as [[_ _ _ _ _ Hsse Hws Hids] _].
  assert (Hold : ∀ c k, sockets (rt s) !! c = Some k →
            <[nextSocket (rt s) := {| socket_kind := kind; readyState := CONNECTING |}]>
              (sockets (rt s)) !! c = Some k).
  { intros c k Hk. rewrite lookup_insert_ne; [done|].
    assert (c < nextSocket (rt s))%positive by (apply Hids; by rewrite Hk). lia. }
  apply good_set_sockets; [done| | |].
  - intros c Hc. destruct (Hsse c Hc) as [st Hk]. exists st. by apply Hold.
  - intros c Hc. destruct (Hws c Hc) as [st Hk]. exists st. by apply Hold.
  - intros c [k Hk]. apply lookup_insert_Some in Hk as [[<- _]|[_ Hk]]; [lia|].
    assert (c < nextSocket (rt s))%positive by (apply Hids; by rewrite Hk). lia.
Qed.

Lemma keeps_establishWebSocketConnection cfg : keeps cfg establishWebSocketConnection.
Proof.
  intros s Hs. pose proof (good_newSocket cfg WebSocketSocket s Hs) as Hs1.
  pose proof Hs1 as [[_ Hscb Hecb Hpoll _ Hsse _ _] _].
  change (establishWebSocketConnection s).2 with
    {| this := with_connections (sseConnection (this s)) (Some (nextSocket (rt s))) (this s);
       rt := with_sockets
               (<[nextSocket (rt s) :=
                    {| socket_kind := WebSocketSocket; readyState := CONNECTING |}]>
                  (sockets (rt s)))
               (Pos.succ (nextSocket (rt s))) (rt s) |}.
  apply (good_set_this cfg _ _ Hs1); try done.
  intros c [= <-]. exists CONNECTING. simpl. apply lookup_insert_eq.
Qed.

Lemma keeps_establishSSEConnection cfg : keeps cfg establishSSEConnection.
Proof.
  intros s Hs. pose proof (good_newSocket cfg EventSourceSocket s Hs) as Hs1.
  pose proof Hs1 as [[_ Hscb Hecb Hpoll _ _ Hws _] _].
  change (establishSSEConnection s).2 with
    {| this := with_connections (Some (nextSocket (rt s))) (wsConnection (this s)) (this s);
       rt := with_sockets
               (<[nextSocket (rt s) :=
                    {| socket_kind := EventSourceSocket; readyState := CONNECTING |}]>
                  (sockets (rt s)))
               (Pos.succ (nextSocket (rt s))) (rt s) |}.
  apply (good_set_this cfg _ _ Hs1); try done.
  intros c [= <-]. exists CONNECTING. simpl. apply lookup_insert_eq.
Qed.

(** Arming a poll timer, whatever timer was cleared just before. *)
Lemma good_arm cfg s delay (cleared : gmap positive Timer) :
  good cfg s →
  (∀ id t, cleared !! id = Some t → timers (rt s) !! id = Some t) →
  good cfg {| this := with_pollInterval (Some (nextTimer (rt s))) (this s);
              rt := with_timers
                      (<[nextTimer (rt s) := pollTimer delay (now (rt s) + delay)]> cleared)
                      (Pos.succ (nextTimer (rt s))) (rt s) |}.
Proof.
  intros Hs Hsub. pose proof Hs as [[Hwf Hscb Hecb _ Hids Hsse Hws Hsock] Hcfg].
  split; [split|]; try done.
  - intros id [= <-]. exists delay, (now (rt s) + delay)%Z. simpl. apply lookup_insert_eq.
  - intros id [t Ht]. simpl in *. apply lookup_insert_Some in Ht as [[<- _]|[_ Ht]]; [lia|].
    assert (id < nextTimer (rt s))%positive by (apply Hids; by rewrite (Hsub _ _ Ht)). lia.
Qed.

Lemma keeps_startFallbackPolling cfg : keeps cfg startFallbackPolling.
Proof. intros s Hs. by apply (good_arm cfg s _ (timers (rt s))). Qed.

Lemma keeps_rearm_base cfg id : keeps cfg (clearInterval id ;; startFallbackPolling).
Proof.
  intros s Hs.
  apply (good_arm cfg s (FALLBACK_POLL_INTERVAL (this s)) (delete id (timers (rt s))));
    [done|]. intros id' t Ht. by apply lookup_delete_Some in Ht as [_ Ht].
Qed.

Lemma keeps_rearm_fast cfg id :
  keeps cfg (clearInterval id ;;
             id' ← setInterval PollTick 5000%Z;
             modifyThis (with_pollInterval (Some id'))).
Proof.
  intros s Hs.
  apply (good_arm cfg s 5000%Z (delete id (timers (rt s))));
    [done|]. intros id' t Ht. by apply lookup_delete_Some in Ht as [_ Ht].
Qed.

Lemma keeps_resetFallbackPolling cfg : keeps cfg resetFallbackPolling.
Proof.
  unfold resetFallbackPolling. apply keeps_bind; [apply keeps_get|]. intros s0.
  destruct (pollInterval (this s0)); [apply keeps_rearm_base|apply keeps_ret].
Qed.

Lemma keeps_accelerateFallbackPolling cfg : keeps cfg accelerateFallbackPolling.
Proof.
  unfold accelerateFallbackPolling. apply keeps_bind; [apply keeps_get|]. intros s0.
  destruct (pollInterval (this s0)); [apply keeps_rearm_fast|apply keeps_ret].
Qed.

(** Dropping a handle. *)
Lemma keeps_drop_sse cfg :
  keeps cfg (modifyThis (λ m, with_connections None (wsConnection m) m)).
Proof.
  intros s Hs. pose proof Hs as [[_ Hscb Hecb Hpoll _ Hsse Hws _] _].
  by apply (good_set_this cfg s).
Qed.

Lemma keeps_drop_ws cfg :
  keeps cfg (modifyThis (λ m, with_connections (sseConnection m) None m)).
Proof.
  intros s Hs. pose proof Hs as [[_ Hscb Hecb Hpoll _ Hsse Hws _] _].
  by apply (good_set_this cfg s).
Qed.

Lemma keeps_drop_poll cfg id :
  keeps cfg (clearInterval id ;; modifyThis (with_pollInterval None)).
Proof.
  intros s Hs. pose proof Hs as [[Hwf Hscb Hecb _ Hids Hsse Hws Hsock] Hcfg].
  split; [split|]; try done.
  intros id' [t Ht]. simpl in Ht. apply lookup_delete_Some in Ht as [_ Ht].
  apply Hids. by rewrite Ht.
Qed.

Lemma keeps_callbacks cfg (scb ecb : StatusManager → list nat) :
  (∀ m, NoDup (statusUpdateCallbacks m) → NoDup (scb m)) →
  (∀ m, NoDup (errorCallbacks m) → NoDup (ecb m)) →
  keeps cfg (modifyThis (λ m, with_callbacks (scb m) (ecb m) m)).
Proof.
  intros Hs1 He1 s Hs. pose proof Hs as [[_ Hscb Hecb Hpoll _ Hsse Hws _] _].
  apply (good_set_this cfg s); try done; simpl; auto.
Qed.

Lemma setAdd_NoDup x l : NoDup l → NoDup (setAdd x l).
Proof.
  intros Hl. unfold setAdd. case_decide; [done|].
  apply NoDup_app. split; [done|]. split; [|apply NoDup_singleton].
  intros y Hy ->%list_elem_of_singleton. done.
Qed.

Lemma setDelete_NoDup x l : NoDup l → NoDup (setDelete x l).
Proof. apply NoDup_filter. Qed.

(** Syntax-directed: each rule is chosen by the head of the computation. *)
Ltac keeps_known := fail.

Ltac keeps_step :=
  first
    [ keeps_known
    | lazymatch goal with
      | |- keeps _ (ret _) => apply keeps_ret
      | |- keeps _ (mret _) => apply keeps_mret
      | |- keeps _ (throw _) => apply keeps_throw
      | |- keeps _ get => apply keeps_get
      | |- keeps _ (emit _) => apply keeps_emit
      | |- keeps _ (wsSend _ _) => apply keeps_emit
      | |- keeps _ (await _) => apply keeps_await
      | |- keeps _ (alloc _) => apply keeps_alloc
      | |- keeps _ (inherited _) => apply keeps_alloc
      | |- keeps _ (if ?b then _ else _) => destruct b
      | |- keeps _ (writeMap _ _) => apply keeps_writeMap
      | |- keeps _ (axiosGet _ _) => apply keeps_axiosGet
      | |- keeps _ (setTimer _ _ _) => apply keeps_setTimer
      | |- keeps _ (setTimeout _ _) => apply keeps_setTimer
      | |- keeps _ (setInterval _ _) => apply keeps_setTimer
      | |- keeps _ (setReadyState _ _) => apply keeps_setReadyState
      | |- keeps _ (closeEventSource _) => apply keeps_setReadyState
      | |- keeps _ (closeWebSocket _) => apply keeps_closeWebSocket
      | |- keeps _ establishWebSocketConnection => apply keeps_establishWebSocketConnection
      | |- keeps _ establishSSEConnection => apply keeps_establishSSEConnection
      | |- keeps _ startFallbackPolling => apply keeps_startFallbackPolling
      | |- keeps _ resetFallbackPolling => apply keeps_resetFallbackPolling
      | |- keeps _ accelerateFallbackPolling => apply keeps_accelerateFallbackPolling
      | |- keeps _ (modifyThis (λ m, with_connections None (wsConnection m) m)) =>
          apply keeps_drop_sse
      | |- keeps _ (modifyThis (λ m, with_connections (sseConnection m) None m)) =>
          apply keeps_drop_ws
      | |- keeps _ (mbind _ (clearInterval _)) => apply keeps_drop_poll
      | |- keeps _ (modifyThis (with_callbacks [] [])) =>
          apply (keeps_callbacks _ (λ _, []) (λ _, [])); intros; apply NoDup_nil_2
      | |- keeps _ (modifyRt (λ r, with_pending _ _ r)) => apply keeps_pending
      | |- keeps _ (forEachM _ _) => apply keeps_forEachM; intros ?
      | |- keeps _ (tryCatch _ _) => apply keeps_tryCatch; [|intros ?]
      | |- keeps _ (mbind _ _) => apply keeps_bind; [|intros ?]
      | |- keeps _ (match ?x with _ => _ end) => destruct x
      end ].

Ltac keeps_auto := repeat keeps_step.

Lemma keeps_callStatusCallback cfg callback snapshot :
  keeps cfg (callStatusCallback callback snapshot).
Proof. unfold callStatusCallback. keeps_auto. Qed.

Lemma keeps_callErrorCallback cfg callback error :
  keeps cfg (callErrorCallback callback error).
Proof. unfold callErrorCallback. keeps_auto. Qed.

Lemma keeps_getStatusMap cfg : keeps cfg getStatusMap.
Proof. unfold getStatusMap. keeps_auto. Qed.

Ltac keeps_known ::=
  lazymatch goal with
  | |- keeps _ (callStatusCallback _ _) => apply keeps_callStatusCallback
  | |- keeps _ (callErrorCallback _ _) => apply keeps_callErrorCallback
  | |- keeps _ getStatusMap => apply keeps_getStatusMap
  end.

Lemma keeps_notifyStatusUpdate cfg : keeps cfg notifyStatusUpdate.
Proof. unfold notifyStatusUpdate. keeps_auto. Qed.

Lemma keeps_notifyError cfg error : keeps cfg (notifyError error).
Proof. unfold notifyError. keeps_auto. Qed.

Ltac keeps_known ::=
  lazymatch goal with
  | |- keeps _ notifyStatusUpdate => apply keeps_notifyStatusUpdate
  | |- keeps _ (notifyError _) => apply keeps_notifyError
  end.

Lemma keeps_updateServiceStatus cfg serviceId status :
  keeps cfg (updateServiceStatus serviceId status).
Proof. unfold updateServiceStatus. keeps_auto. Qed.

Ltac keeps_known ::=
  lazymatch goal with
  | |- keeps _ notifyStatusUpdate => apply keeps_notifyStatusUpdate
  | |- keeps _ (notifyError _) => apply keeps_notifyError
  | |- keeps _ (updateServiceStatus _ _) => apply keeps_updateServiceStatus
  end.

Lemma keeps_fetchAllStatus_resume cfg response : keeps cfg (fetchAllStatus_resume response).
Proof. unfold fetchAllStatus_resume. keeps_auto. Qed.

Lemma keeps_fetchServiceStatus_resume cfg serviceId response :
  keeps cfg (fetchServiceStatus_resume serviceId response).
Proof. unfold fetchServiceStatus_resume. keeps_auto. Qed.

Lemma keeps_cleanup cfg : keeps cfg cleanup.
Proof. unfold cleanup. keeps_auto. Qed.

Lemma keeps_parseBatch cfg entries : keeps cfg (parseBatch entries).
Proof.
  induction entries as [|[k st] rest IH]; cbn [parseBatch]; [apply keeps_mret|].
  apply keeps_bind; [apply keeps_alloc|]. intros l.
  apply keeps_bind; [exact IH|]. intros m. apply keeps_mret.
Qed.

Lemma keeps_reconnectAttempt cfg : keeps cfg reconnectAttempt.
Proof. unfold reconnectAttempt. keeps_auto. Qed.

Lemma keeps_sse_onmessage cfg data : keeps cfg (sse_onmessage data).
Proof. unfold sse_onmessage. keeps_auto. Qed.

Lemma keeps_ws_onmessage cfg data : keeps cfg (ws_onmessage data).
Proof. unfold ws_onmessage. keeps_auto. Qed.

Lemma keeps_ws_onclose cfg : keeps cfg ws_onclose.
Proof. unfold ws_onclose. keeps_auto. Qed.

Lemma keeps_initialize_resume cfg : keeps cfg initialize_resume.
Proof. unfold initialize_resume. keeps_auto. Qed.

Ltac keeps_known ::=
  lazymatch goal with
  | |- keeps _ notifyStatusUpdate => apply keeps_notifyStatusUpdate
  | |- keeps _ (notifyError _) => apply keeps_notifyError
  | |- keeps _ (updateServiceStatus _ _) => apply keeps_updateServiceStatus
  | |- keeps _ (fetchAllStatus_resume _) => apply keeps_fetchAllStatus_resume
  | |- keeps _ (fetchServiceStatus_resume _ _) => apply keeps_fetchServiceStatus_resume
  | |- keeps _ (parseBatch _) => apply keeps_parseBatch
  | |- keeps _ reconnectAttempt => apply keeps_reconnectAttempt
  | |- keeps _ (sse_onmessage _) => apply keeps_sse_onmessage
  | |- keeps _ (ws_onmessage _) => apply keeps_ws_onmessage
  | |- keeps _ ws_onclose => apply keeps_ws_onclose
  | |- keeps _ initialize_resume => apply keeps_initialize_resume
  | |- keeps _ cleanup => apply keeps_cleanup
  end.

Lemma good_get_bind {B} cfg (k : State → M B) s :
  good cfg (k s s).2 → good cfg ((get ≫= k) s).2.
Proof. done. Qed.

(** A timer that fires: an interval timer is re-armed in place, a timeout
    is removed; a timeout is never the poll timer the manager holds. *)
Lemma keeps_timer_fired cfg id : keeps cfg (handle (TimerFired id)).
Proof.
  intros s Hs. unfold handle. apply good_get_bind.
  destruct (timers (rt s) !! id) as [t|] eqn:Ht; [|done].
  pose proof Hs as [[_ _ _ Hpoll Hids _ _ _] _].
  apply good_bind.
  - destruct t as [[|] delay due action]; simpl.
    + apply good_set_timers; [done| |].
      * intros id' Hid'. destruct (Hpoll id' Hid') as (d & due' & Ht').
        destruct (decide (id' = id)) as [->|Hne].
        -- rewrite Ht in Ht'. injection Ht' as -> -> ->.
           exists d, (due' + d)%Z. by rewrite lookup_insert_eq.
        -- exists d, due'. by rewrite lookup_insert_ne.
      * intros id' [t' Ht']. apply Hids.
        apply lookup_insert_Some in Ht' as [[<- _]|[_ Ht']]; [by rewrite Ht|by rewrite Ht'].
    + apply good_set_timers; [done| |].
      * intros id' Hid'. destruct (Hpoll id' Hid') as (d & due' & Ht').
        exists d, due'. rewrite lookup_delete_ne; [done|].
        intros <-. rewrite Ht in Ht'. discriminate.
      * intros id' [t' Ht']. apply lookup_delete_Some in Ht' as [_ Ht'].
        apply Hids. by rewrite Ht'.
  - intros _. destruct (timer_action t); simpl;
      [apply keeps_axiosGet|apply keeps_reconnectAttempt].
Qed.

Lemma keeps_handle cfg e : keeps cfg (handle e).
Proof.
  destruct e as [dt|id|q response|q response|c|c data|c|c|c sid st|c error|c|c|call].
  - intros s Hs. apply (good_frame cfg s); try done.
    destruct Hs as [[[o Ho]] _]. by exists o.
  - apply keeps_timer_fired.
  - unfold handle. keeps_auto.
  - unfold handle. keeps_auto.
  - unfold handle, sse_onopen. keeps_auto.
  - unfold handle. keeps_auto.
  - unfold handle, sse_onerror. keeps_auto.
  - unfold handle, ws_onopen. keeps_auto.
  - unfold handle. keeps_auto.
  - unfold handle. keeps_auto.
  - unfold handle. keeps_auto.
  - unfold handle, ws_onerror. keeps_auto.
  - destruct call; unfold handle.
    + unfold initialize_start, fetchAllStatus_start. apply keeps_axiosGet.
    + apply keeps_cleanup.
    + apply keeps_callbacks; [intros m; apply setAdd_NoDup|done].
    + apply keeps_callbacks; [intros m; apply setDelete_NoDup|done].
    + apply keeps_callbacks; [done|intros m; apply setAdd_NoDup].
    + apply keeps_callbacks; [done|intros m; apply setDelete_NoDup].
    + unfold fetchAllStatus_start. apply keeps_axiosGet.
    + unfold fetchServiceStatus_start. apply keeps_axiosGet.
Qed.

Lemma keeps_run cfg es :
  ∀ s s', good cfg s → run es s = Some s' → good cfg s'.
Proof.
  induction es as [|e es IH]; intros s s' Hs Hrun; simpl in Hrun.
  - by injection Hrun as <-.
  - destruct (enabled e s); [|done]. eapply IH; [|exact Hrun]. by apply keeps_handle.
Qed.

Lemma construct_good options behaviour :
  good (configOf (this (construct options (bootRuntime behaviour))))
    (construct options (bootRuntime behaviour)).
Proof.
  split; [|done]. split; simpl; try done; try apply NoDup_nil_2.
  - eexists. unfold construct. simpl. apply lookup_insert_eq.
  - intros id [t Ht]. by rewrite lookup_empty in Ht.
  - intros c [k Hk]. by rewrite lookup_empty in Hk.
Qed.

(** X12: every state a manager reaches from its construction, whatever the
    schedule of calls, timers, responses and connection events and whatever
    its subscribers do, is consistent: the store is a map object, neither
    subscriber set holds a callback twice, a held poll handle names a live
    interval timer that runs [fetchAllStatus], held connections name sockets
    of their kind, and fresh ids are unused. The tracked ids, the store
    reference, the base poll period and the channel flags stay as the
    constructor set them. *)
Theorem reachable_consistent options behaviour es s :
  run es (construct options (bootRuntime behaviour)) = Some s →
  consistent s
  ∧ configOf (this s) = configOf (this (construct options (bootRuntime behaviour))).
Proof.
  intros Hrun. eapply keeps_run; [apply construct_good|exact Hrun].
Qed.

Lemma reachable_consistent_sample :
  consistent sseLiveState
  ∧ configOf (this sseLiveState) = configOf (this sseManager).
Proof.
  apply (reachable_consistent
           {| opt_serviceIds := ["a"; "b"]; enableSSE := None;
              enableWebSocket := None; fallbackPollInterval := None |}
           neverThrows sseLive).
  vm_compute. reflexivity.
Defined.

(** *** Updates for services that are not tracked *)

Lemma forEachM_no_record (response : gmap string loc) ids s :
  (∀ sid, sid ∈ ids → response !! sid = None ∧ sid ∉ objectPrototypeKeys) →
  forEachM
    (λ serviceId,
       match response !! serviceId with
       | Some status => updateServiceStatus serviceId status
       | None =>
           if decide (serviceId ∈ objectPrototypeKeys)
           then status ← inherited serviceId;
                updateServiceStatus serviceId status
           else ret tt
       end) ids s = (Returned tt, s).
Proof.
  induction ids as [|sid ids IH]; intros Hnone; [done|].
  cbn [forEachM]. unfold mbind at 1, M_bind at 1, bind at 1.
  destruct (Hnone sid) as [Hsid Hnot]; [by left|].
  rewrite Hsid, decide_False by done. unfold ret at 1. cbv beta iota.
  apply IH. intros sid' Hin. apply Hnone. by right.
Qed.

(** X13: the manager ignores what it does not track. A stream message or a
    socket status message for a service id outside [serviceIds] and a
    socket message of another type leave the manager and the runtime
    exactly as they were, and so does a batch response in which the lookup
    of every tracked id finds nothing (no record of the response, and no
    value inherited from [Object.prototype] under that name): nothing is
    stored, nobody is notified and the poll timer is not re-armed. *)
Theorem untracked_updates_ignored s sid :
  sid ∉ serviceIds (this s) →
  (∀ status, statusServiceId (heap (rt s)) status = Some sid →
             sse_onmessage (Returned status) s = (Returned tt, s))
  ∧ (∀ status, ws_onmessage (Returned (WsStatusUpdate sid status)) s = (Returned tt, s))
  ∧ ws_onmessage (Returned WsOtherType) s = (Returned tt, s)
  ∧ (∀ response : gmap string loc,
       (∀ sid', sid' ∈ serviceIds (this s) →
                response !! sid' = None ∧ sid' ∉ objectPrototypeKeys) →
       fetchAllStatus_resume (Returned response) s = (Returned tt, s)).
Proof.
  intros Hnot. split; [|split; [|split]].
  - intros status Hsid.
    unfold sse_onmessage, tryCatch, await, mbind, M_bind, bind, get.
    unfold ret at 1. cbv beta iota. rewrite Hsid.
    by rewrite bool_decide_eq_false_2.
  - intros status.
    unfold ws_onmessage, tryCatch, await, mbind, M_bind, bind, get.
    unfold ret at 1. cbv beta iota.
    by rewrite bool_decide_eq_false_2.
  - reflexivity.
  - intros response Hnone.
    pose proof (forEachM_no_record response (serviceIds (this s)) s Hnone) as Hrun.
    unfold fetchAllStatus_resume, tryCatch, await, mbind, M_bind, bind, get.
    unfold ret at 1. cbv beta iota.
    unfold mbind, M_bind, bind in Hrun. by rewrite Hrun.
Qed.

Lemma untracked_updates_ignored_sample :
  ("zz" ∉ serviceIds (this sseLiveWithUpdate))
  ∧ (∀ status, statusServiceId (heap (rt sseLiveWithUpdate)) status = Some "zz" →
               sse_onmessage (Returned status) sseLiveWithUpdate
               = (Returned tt, sseLiveWithUpdate))
  ∧ (∀ status, ws_onmessage (Returned (WsStatusUpdate "zz" status)) sseLiveWithUpdate
               = (Returned tt, sseLiveWithUpdate))
  ∧ ws_onmessage (Returned WsOtherType) sseLiveWithUpdate = (Returned tt, sseLiveWithUpdate)
  ∧ (∀ response : gmap string loc,
       (∀ sid', sid' ∈ serviceIds (this sseLiveWithUpdate) →
                response !! sid' = None ∧ sid' ∉ objectPrototypeKeys) →
       fetchAllStatus_resume (Returned response) sseLiveWithUpdate
       = (Returned tt, sseLiveWithUpdate)).
Proof.
  assert (Hnot : "zz" ∉ serviceIds (this sseLiveWithUpdate)).
  { change (serviceIds (this sseLiveWithUpdate)) with ["a"; "b"]. set_solver. }
  split; [exact Hnot|].
  exact (untracked_updates_ignored sseLiveWithUpdate "zz" Hnot).
Defined.

(** *** Failures *)

Lemma statusCalls_errorFanout behaviour error callbacks :
  statusCalls (errorFanout behaviour error callbacks) = [].
Proof.
  induction callbacks as [|cb cbs IH]; [done|].
  rewrite errorFanout_cons, statusCalls_app, IH.
  by destruct (behaviour cb (ArgError error)).
Qed.

Lemma notifyError_reported error s : reported error s (notifyError error s).2.
Proof.
  rewrite notifyError_eq. eexists. split; [done|].
  split; [apply statusCalls_errorFanout|apply errorCalls_fanout].
Qed.

(** X14: every failure the manager catches is reported and nothing else. A
    batch fetch that fails, a single fetch that fails (which then returns
    null), a stream or socket message that does not parse and a socket
    error event each return normally, call every error subscriber exactly
    once with the message of that failure, call no status subscriber, and
    leave the store, the timers and the connections as they were. *)
Theorem failures_only_reported s error serviceId :
  (fetchAllStatus_resume (Thrown error) s).1 = Returned tt
  ∧ reported ("Failed to fetch batch status: " +:+ error) s
      (fetchAllStatus_resume (Thrown error) s).2
  ∧ (fetchServiceStatus_resume serviceId (Thrown error) s).1 = Returned None
  ∧ reported ("Failed to fetch status for " +:+ serviceId +:+ ": " +:+ error) s
      (fetchServiceStatus_resume serviceId (Thrown error) s).2
  ∧ (sse_onmessage (Thrown error) s).1 = Returned tt
  ∧ reported ("SSE message parsing error: " +:+ error) s (sse_onmessage (Thrown error) s).2
  ∧ (ws_onmessage (Thrown error) s).1 = Returned tt
  ∧ reported ("WebSocket message parsing error: " +:+ error) s
      (ws_onmessage (Thrown error) s).2
  ∧ (ws_onerror s).1 = Returned tt
  ∧ reported "WebSocket connection error" s (ws_onerror s).2.
Proof.
  assert (Hcaught : ∀ msg (m : M unit),
            m = notifyError msg → (m s).1 = Returned tt ∧ reported msg s (m s).2).
  { intros msg m ->. split; [by rewrite notifyError_eq|apply notifyError_reported]. }
  destruct (Hcaught ("Failed to fetch batch status: " +:+ error)
              (fetchAllStatus_resume (Thrown error))) as [? ?]; [done|].
  destruct (Hcaught ("SSE message parsing error: " +:+ error)
              (sse_onmessage (Thrown error))) as [? ?]; [done|].
  destruct (Hcaught ("WebSocket message parsing error: " +:+ error)
              (ws_onmessage (Thrown error))) as [? ?]; [done|].
  repeat (split; [done|]).
  rewrite fetchServiceStatus_resume_rejected. split; [done|]. split.
  { simpl. eexists. split; [done|].
    split; [apply statusCalls_errorFanout|apply errorCalls_fanout]. }
  repeat (split; [done|]).
  unfold ws_onerror, mbind, M_bind, bind, emit, modifyRt. cbv beta iota.
  rewrite notifyError_eq. split; [done|]. simpl.
  exists (ConsoleError "WebSocket error"
          :: errorFanout (throws (rt s)) "WebSocket connection error" (errorCallbacks (this s))).
  split; [|split].
  - unfold logged, with_log. simpl. by rewrite <- app_assoc.
  - change (statusCalls (errorFanout (throws (rt s)) "WebSocket connection error"
                           (errorCallbacks (this s))) = []).
    apply statusCalls_errorFanout.
  - change (errorCalls (errorFanout (throws (rt s)) "WebSocket connection error"
                          (errorCallbacks (this s)))
            = (λ cb, (cb, "WebSocket connection error")) <$> errorCallbacks (this s)).
    apply errorCalls_fanout.
Qed.

(** *** A single fetch that succeeds *)

Lemma errorCalls_statusFanout behaviour snapshot callbacks :
  errorCalls (statusFanout behaviour snapshot callbacks) = [].
Proof.
  induction callbacks as [|cb cbs IH]; [done|].
  rewrite statusFanout_cons, errorCalls_app, IH.
  by destruct (behaviour cb (ArgSnapshot snapshot)).
Qed.

(** X15: a single fetch that succeeds returns the record, stores it under
    the id that was asked for (whether or not that id is tracked; no other
    entry changes) so that a point lookup for the id yields it, notifies
    every status subscriber exactly once, calls no error subscriber, and
    leaves timers, connections and the manager's fields alone. *)
Theorem fetchServiceStatus_stores_and_notifies s serviceId status cb :
  wf s →
  NoDup (statusUpdateCallbacks (this s)) →
  cb ∈ statusUpdateCallbacks (this s) →
  ∃ s' new,
    fetchServiceStatus_resume serviceId (Returned status) s = (Returned (Some status), s')
    ∧ getServiceStatus serviceId s' = (Returned (Some status), s')
    ∧ (∀ sid, sid ≠ serviceId → storeOf s' !! sid = storeOf s !! sid)
    ∧ log (rt s') = (log (rt s) ++ new)%list
    ∧ notificationsTo cb new = 1
    ∧ errorCalls new = []
    ∧ sameControl s s'.
Proof.
  intros Hwf Hnd Hcb.
  destruct (fetchServiceStatus_resume_returned serviceId status s Hwf)
    as (s' & snap & Hrun & Hsame & _ & Hstore & Hlog).
  exists s', (statusFanout (throws (rt s)) snap (statusUpdateCallbacks (this s))).
  split; [exact Hrun|]. split.
  { unfold getServiceStatus, mbind, M_bind, bind, get. cbv beta iota.
    fold (storeOf s'). by rewrite Hstore, lookup_insert_eq. }
  split.
  { intros sid Hne. by rewrite Hstore, lookup_insert_ne. }
  split; [exact Hlog|]. split.
  { rewrite notificationsTo_fanout. by apply filter_eq_length_NoDup. }
  split; [apply errorCalls_statusFanout|exact Hsame].
Qed.

(** The id "zz" is not among the tracked ids of the sample manager. *)
Lemma fetchServiceStatus_stores_and_notifies_sample :
  wf subscribedManager
  ∧ NoDup (statusUpdateCallbacks (this subscribedManager))
  ∧ 7 ∈ statusUpdateCallbacks (this subscribedManager)
  ∧ ∃ s' new,
      fetchServiceStatus_resume "zz" (Returned 10%positive) subscribedManager
      = (Returned (Some 10%positive), s')
      ∧ getServiceStatus "zz" s' = (Returned (Some 10%positive), s')
      ∧ (∀ sid, sid ≠ "zz" → storeOf s' !! sid = storeOf subscribedManager !! sid)
      ∧ log (rt s') = (log (rt subscribedManager) ++ new)%list
      ∧ notificationsTo 7 new = 1
      ∧ errorCalls new = []
      ∧ sameControl subscribedManager s'.
Proof.
  assert (Hwf : wf subscribedManager) by (exists ∅; vm_compute; reflexivity).
  assert (Hnd : NoDup (statusUpdateCallbacks (this subscribedManager)))
    by (apply NoDup_singleton).
  assert (Hin : 7 ∈ statusUpdateCallbacks (this subscribedManager))
    by (apply list_elem_of_here).
  split; [exact Hwf|]. split; [exact Hnd|]. split; [exact Hin|].
  exact (fetchServiceStatus_stores_and_notifies subscribedManager "zz" 10%positive 7
           Hwf Hnd Hin).
Defined.

(** *** Subscribing and unsubscribing *)

Lemma setAdd_elem (x y : nat) l : y ∈ setAdd x l ↔ y = x ∨ y ∈ l.
Proof.
  unfold setAdd. case_decide as Hx.
  - split; [by right|]. intros [->|?]; done.
  - rewrite elem_of_app, list_elem_of_singleton. tauto.
Qed.

Lemma setAdd_again (x : nat) l : setAdd x (setAdd x l) = setAdd x l.
Proof.
  unfold setAdd at 1. rewrite decide_True; [done|]. apply setAdd_elem. by left.
Qed.

Lemma setDelete_elem (x y : nat) l : y ∈ setDelete x l ↔ y ≠ x ∧ y ∈ l.
Proof. unfold setDelete. rewrite list_elem_of_filter. tauto. Qed.

Lemma setDelete_absent (x : nat) l : x ∉ l → setDelete x l = l.
Proof.
  intros Hx. unfold setDelete. induction l as [|y l IH]; [done|].
  rewrite filter_cons. rewrite decide_True.
  - f_equal. apply IH. intros ?. apply Hx. by right.
  - intros ->. apply Hx. by left.
Qed.

Lemma setDelete_setAdd (x : nat) l : x ∉ l → setDelete x (setAdd x l) = l.
Proof.
  intros Hx. unfold setAdd. rewrite decide_False by done.
  unfold setDelete. rewrite filter_app. fold (setDelete x l).
  rewrite setDelete_absent by done.
  rewrite filter_cons, decide_False by (intros H; by apply H).
  by rewrite filter_nil, app_nil_r.
Qed.

Lemma filter_eq_length_le (x : nat) (l : list nat) :
  NoDup l → length (filter (λ y, y = x) l) = if decide (x ∈ l) then 1 else 0.
Proof.
  intros Hnd. case_decide.
  - by apply filter_eq_length_NoDup.
  - by rewrite filter_eq_notin.
Qed.

(** X16: subscriptions behave as a set. Subscribing a status callback makes
    it a member without disturbing the others, and subscribing it again
    changes nothing, so that a fan-out after subscribing twice calls it
    once and not twice. The
    closure [onStatusUpdate] returns removes exactly that callback: the
    following fan-out does not call it and still calls every other
    subscriber once; when the callback was not subscribed before, the
    manager is back in the state it was in. The error subscriptions behave
    in the same way. *)
Theorem subscription_round_trip s cb :
  NoDup (statusUpdateCallbacks (this s)) →
  NoDup (errorCallbacks (this s)) →
  let s1 := (onStatusUpdate cb s).2 in
  let s2 := (unsubscribeStatus cb s1).2 in
  (∀ cb', cb' ∈ statusUpdateCallbacks (this s1)
          ↔ cb' = cb ∨ cb' ∈ statusUpdateCallbacks (this s))
  ∧ onStatusUpdate cb s1 = (Returned tt, s1)
  ∧ (∃ s' new,
       notifyStatusUpdate (onStatusUpdate cb s1).2 = (Returned tt, s')
       ∧ log (rt s') = (log (rt s1) ++ new)%list
       ∧ notificationsTo cb new = 1)
  ∧ (∀ cb', cb' ∈ statusUpdateCallbacks (this s2)
            ↔ cb' ≠ cb ∧ cb' ∈ statusUpdateCallbacks (this s))
  ∧ (∃ s' new,
       notifyStatusUpdate s2 = (Returned tt, s')
       ∧ log (rt s') = (log (rt s2) ++ new)%list
       ∧ notificationsTo cb new = 0
       ∧ ∀ cb', cb' ≠ cb → cb' ∈ statusUpdateCallbacks (this s) →
                notificationsTo cb' new = 1)
  ∧ (cb ∉ statusUpdateCallbacks (this s) → s2 = s)
  ∧ (∀ cb', cb' ∈ errorCallbacks (this (onError cb s).2)
            ↔ cb' = cb ∨ cb' ∈ errorCallbacks (this s))
  ∧ (∀ cb', cb' ∈ errorCallbacks (this (unsubscribeError cb (onError cb s).2).2)
            ↔ cb' ≠ cb ∧ cb' ∈ errorCallbacks (this s))
  ∧ (cb ∉ errorCallbacks (this s) → (unsubscribeError cb (onError cb s).2).2 = s).
Proof.
  intros Hnd Hnde s1 s2.
  destruct s as [[ids sm sse ws poll scb ecb fpi se we] r]. simpl in Hnd, Hnde.
  subst s1 s2. unfold onStatusUpdate, unsubscribeStatus, onError, unsubscribeError,
    modifyThis, with_callbacks. simpl.
  split; [intros cb'; apply setAdd_elem|].
  split; [by rewrite setAdd_again|].
  split.
  { eexists _, _. split; [apply notifyStatusUpdate_eq|]. split; [done|]. simpl.
    rewrite setAdd_again.
    rewrite notificationsTo_fanout, filter_eq_length_le by (by apply setAdd_NoDup).
    rewrite decide_True; [done|]. apply setAdd_elem. by left. }
  split.
  { intros cb'. rewrite setDelete_elem, setAdd_elem. naive_solver. }
  split.
  { eexists _, _. split; [apply notifyStatusUpdate_eq|]. split; [done|]. simpl.
    assert (Hnd2 : NoDup (setDelete cb (setAdd cb scb)))
      by (by apply setDelete_NoDup, setAdd_NoDup).
    split.
    - rewrite notificationsTo_fanout, filter_eq_length_le by done.
      rewrite decide_False; [done|]. rewrite setDelete_elem. naive_solver.
    - intros cb' Hne Hin.
      rewrite notificationsTo_fanout, filter_eq_length_le by done.
      rewrite decide_True; [done|]. rewrite setDelete_elem, setAdd_elem. naive_solver. }
  split.
  { intros Hnot. by rewrite setDelete_setAdd. }
  split; [intros cb'; apply setAdd_elem|].
  split.
  { intros cb'. rewrite setDelete_elem, setAdd_elem. naive_solver. }
  intros Hnot. by rewrite setDelete_setAdd.
Qed.

Lemma subscription_round_trip_sample :
  NoDup (statusUpdateCallbacks (this subscribedManager))
  ∧ NoDup (errorCallbacks (this subscribedManager))
  ∧ let s1 := (onStatusUpdate 8 subscribedManager).2 in
    let s2 := (unsubscribeStatus 8 s1).2 in
    (∀ cb', cb' ∈ statusUpdateCallbacks (this s1)
            ↔ cb' = 8 ∨ cb' ∈ statusUpdateCallbacks (this subscribedManager))
    ∧ onStatusUpdate 8 s1 = (Returned tt, s1)
    ∧ (∃ s' new,
         notifyStatusUpdate (onStatusUpdate 8 s1).2 = (Returned tt, s')
         ∧ log (rt s') = (log (rt s1) ++ new)%list
         ∧ notificationsTo 8 new = 1)
    ∧ (∀ cb', cb' ∈ statusUpdateCallbacks (this s2)
              ↔ cb' ≠ 8 ∧ cb' ∈ statusUpdateCallbacks (this subscribedManager))
    ∧ (∃ s' new,
         notifyStatusUpdate s2 = (Returned tt, s')
         ∧ log (rt s') = (log (rt s2) ++ new)%list
         ∧ notificationsTo 8 new = 0
         ∧ ∀ cb', cb' ≠ 8 → cb' ∈ statusUpdateCallbacks (this subscribedManager) →
                  notificationsTo cb' new = 1)
    ∧ (8 ∉ statusUpdateCallbacks (this subscribedManager) → s2 = subscribedManager)
    ∧ (∀ cb', cb' ∈ errorCallbacks (this (onError 8 subscribedManager).2)
              ↔ cb' = 8 ∨ cb' ∈ errorCallbacks (this subscribedManager))
    ∧ (∀ cb', cb' ∈ errorCallbacks (this (unsubscribeError 8 (onError 8 subscribedManager).2).2)
              ↔ cb' ≠ 8 ∧ cb' ∈ errorCallbacks (this subscribedManager))
    ∧ (8 ∉ errorCallbacks (this subscribedManager) →
       (unsubscribeError 8 (onError 8 subscribedManager).2).2 = subscribedManager).
Proof.
  assert (Hnd : NoDup (statusUpdateCallbacks (this subscribedManager)))
    by (apply NoDup_singleton).
  assert (Hnde : NoDup (errorCallbacks (this subscribedManager)))
    by (apply NoDup_nil_2).
  split; [exact Hnd|]. split; [exact Hnde|].
  exact (subscription_round_trip subscribedManager 8 Hnd Hnde).
Defined.

(** *** What cleanup releases *)

Lemma cleanup_sockets s :
  sockets (rt (cleanup s).2)
  = let closed :=
      match sseConnection (this s) with
      | Some c => alter (λ k, {| socket_kind := socket_kind k; readyState := CLOSED |}) c
                    (sockets (rt s))
      | None => sockets (rt s)
      end in
    match wsConnection (this s) with
    | Some c =>
        match (match closed !! c with Some k => readyState k | None => CLOSED end) with
        | CONNECTING | OPEN =>
            alter (λ k, {| socket_kind := socket_kind k; readyState := CLOSING |}) c closed
        | CLOSING | CLOSED => closed
        end
    | None => closed
    end.
Proof.
  destruct s as [[ids sm [sse|] [ws|] [poll|] scb ecb fpi se we] r];
    unfold cleanup, closeWebSocket, closeEventSource, clearInterval, setReadyState,
      readyStateOf;
    unfold_monad; simpl; try reflexivity.
  all: match goal with
       | |- context [match ?m !! ?c with Some _ => _ | None => _ end] =>
           destruct (m !! c) as [[k []]|]
       end; reflexivity.
Qed.

Lemma sample_consistent : consistent sseLiveState.
Proof.
  eapply (keeps_run (configOf (this sseManager)) sseLive sseManager);
    [apply construct_good|vm_compute; reflexivity].
Qed.

(** X17: what [cleanup] releases and what it leaves. From a consistent
    state it returns normally in a consistent state; the event source it
    held is closed; the socket it held is no longer connecting or open;
    every other socket and every timer other than the poll timer held is as
    before (a reconnect timeout that is pending stays pending); the heap,
    and with it the store, the requests in flight and the log are
    untouched; and a second [cleanup] changes nothing. *)
Theorem cleanup_releases s :
  consistent s →
  let s1 := (cleanup s).2 in
  cleanup s = (Returned tt, s1)
  ∧ consistent s1
  ∧ (∀ c, sseConnection (this s) = Some c → readyStateOf (rt s1) c = CLOSED)
  ∧ (∀ c, wsConnection (this s) = Some c → isLive (readyStateOf (rt s1) c) = false)
  ∧ (∀ c, sseConnection (this s) ≠ Some c → wsConnection (this s) ≠ Some c →
          sockets (rt s1) !! c = sockets (rt s) !! c)
  ∧ (∀ id, pollInterval (this s) ≠ Some id → timers (rt s1) !! id = timers (rt s) !! id)
  ∧ heap (rt s1) = heap (rt s)
  ∧ pending (rt s1) = pending (rt s)
  ∧ log (rt s1) = log (rt s)
  ∧ cleanup s1 = (Returned tt, s1).
Proof.
  intros Hs s1.
  destruct (cleanup_frame s) as (Hheap & Hlog & Hpending & _).
  split.
  { pose proof (cleanup_returns s) as Hret. subst s1.
    destruct (cleanup s) as [o s']. simpl in Hret. by rewrite Hret. }
  split.
  { assert (good (configOf (this s)) s) as Hg by done.
    by apply keeps_cleanup in Hg as [? _]. }
  pose proof Hs as [_ _ _ _ _ Hsse Hws _].
  assert (Hdistinct : ∀ c c', sseConnection (this s) = Some c →
                              wsConnection (this s) = Some c' → c ≠ c').
  { intros c c' Hc Hc' <-. destruct (Hsse c Hc) as [st Hk], (Hws c Hc') as [st' Hk'].
    rewrite Hk in Hk'. discriminate. }
  split.
  { intros c Hc. destruct (Hsse c Hc) as [st Hk].
    unfold readyStateOf. subst s1. rewrite cleanup_sockets, Hc. cbv zeta.
    destruct (wsConnection (this s)) as [c'|] eqn:Hc'.
    - assert (c ≠ c') by (by eapply Hdistinct).
      destruct (match alter _ c (sockets (rt s)) !! c' with
                | Some k => readyState k | None => CLOSED end);
        rewrite ?lookup_alter_ne by done; rewrite lookup_alter_eq, Hk; done.
    - by rewrite lookup_alter_eq, Hk. }
  split.
  { intros c Hc. destruct (Hws c Hc) as [st Hk].
    unfold readyStateOf. subst s1. rewrite cleanup_sockets, Hc. cbv zeta.
    assert (Hclosed : match sseConnection (this s) with
                      | Some c0 => alter (λ k, {| socket_kind := socket_kind k;
                                                  readyState := CLOSED |}) c0 (sockets (rt s))
                      | None => sockets (rt s)
                      end !! c
                      = Some {| socket_kind := WebSocketSocket; readyState := st |}).
    { destruct (sseConnection (this s)) as [c0|] eqn:Hc0; [|done].
      rewrite lookup_alter_ne; [done|]. by eapply Hdistinct. }
    rewrite Hclosed. simpl.
    destruct st; rewrite ?lookup_alter_eq, Hclosed; done. }
  split.
  { intros c Hsse' Hws'. subst s1. rewrite cleanup_sockets. cbv zeta.
    assert (Hclosed : match sseConnection (this s) with
                      | Some c0 => alter (λ k, {| socket_kind := socket_kind k;
                                                  readyState := CLOSED |}) c0 (sockets (rt s))
                      | None => sockets (rt s)
                      end !! c = sockets (rt s) !! c).
    { destruct (sseConnection (this s)) as [c0|]; [|done].
      rewrite lookup_alter_ne; [done|]. congruence. }
    destruct (wsConnection (this s)) as [c'|]; [|done].
    destruct (match _ !! c' with Some k => readyState k | None => CLOSED end);
      rewrite ?lookup_alter_ne by congruence; done. }
  split.
  { intros id Hid. subst s1. rewrite cleanup_timers.
    destruct (pollInterval (this s)) as [p|]; [|done].
    rewrite lookup_delete_ne; [done|congruence]. }
  split; [done|]. split; [done|]. split; [done|].
  apply cleanup_idempotent.
Qed.

Lemma cleanup_releases_sample :
  consistent sseLiveState
  ∧ let s1 := (cleanup sseLiveState).2 in
    cleanup sseLiveState = (Returned tt, s1)
    ∧ consistent s1
    ∧ (∀ c, sseConnection (this sseLiveState) = Some c → readyStateOf (rt s1) c = CLOSED)
    ∧ (∀ c, wsConnection (this sseLiveState) = Some c →
            isLive (readyStateOf (rt s1) c) = false)
    ∧ (∀ c, sseConnection (this sseLiveState) ≠ Some c →
            wsConnection (this sseLiveState) ≠ Some c →
            sockets (rt s1) !! c = sockets (rt sseLiveState) !! c)
    ∧ (∀ id, pollInterval (this sseLiveState) ≠ Some id →
             timers (rt s1) !! id = timers (rt sseLiveState) !! id)
    ∧ heap (rt s1) = heap (rt sseLiveState)
    ∧ pending (rt s1) = pending (rt sseLiveState)
    ∧ log (rt s1) = log (rt sseLiveState)
    ∧ cleanup s1 = (Returned tt, s1).
Proof.
  split; [exact sample_consistent|].
  exact (cleanup_releases sseLiveState sample_consistent).
Defined.

(** *** initialize *)

Lemma parseBatch_frame entries :
  ∀ s, wf s → ∃ m s', parseBatch entries s = (Returned m, s') ∧ sameControl s s' ∧ wf s'.
Proof.
  induction entries as [|[k st] rest IH]; intros s Hwf.
  - exists ∅, s. split; [done|]. split; [apply sameControl_refl|done].
  - cbn [parseBatch]. unfold mbind, M_bind, bind. rewrite alloc_eq.
    set (s1 := {| this := this s; rt := _ |}).
    assert (Hwf1 : wf s1).
    { pose proof (snapshotLoc_not_store s Hwf) as Hne. destruct Hwf as [m Hm].
      exists m. unfold s1. simpl. by rewrite lookup_insert_ne. }
    destruct (IH s1 Hwf1) as (m & s' & Hrun & Hsame & Hwf').
    rewrite Hrun. eexists _, s'. split; [reflexivity|]. split; [|done].
    eapply sameControl_trans; [|exact Hsame]. by split.
Qed.

(** What [initialize] does once the first fetch has settled: one channel
    according to the flags, then the poll timer. *)
Lemma initialize_resume_view s :
  let s' := (initialize_resume s).2 in
  wsConnection (this s')
  = (if WS_ENABLED (this s) then Some (nextSocket (rt s)) else wsConnection (this s))
  ∧ sseConnection (this s')
    = (if WS_ENABLED (this s) then sseConnection (this s)
       else if SSE_ENABLED (this s) then Some (nextSocket (rt s))
       else sseConnection (this s))
  ∧ sockets (rt s')
    = (if WS_ENABLED (this s)
       then <[nextSocket (rt s) := connecting WebSocketSocket]> (sockets (rt s))
       else if SSE_ENABLED (this s)
       then <[nextSocket (rt s) := connecting EventSourceSocket]> (sockets (rt s))
       else sockets (rt s))
  ∧ pollInterval (this s') = Some (nextTimer (rt s))
  ∧ timers (rt s')
    = <[nextTimer (rt s) :=
          pollTimer (FALLBACK_POLL_INTERVAL (this s))
            (now (rt s) + FALLBACK_POLL_INTERVAL (this s))]> (timers (rt s))
  ∧ pending (rt s') = pending (rt s)
  ∧ heap (rt s') = heap (rt s)
  ∧ log (rt s') = log (rt s).
Proof.
  destruct s as [[ids sm sse ws poll scb ecb fpi [|] [|]] r];
    unfold initialize_resume, establishWebSocketConnection, establishSSEConnection,
      startFallbackPolling, newSocket, setInterval, setTimer;
    unfold_monad; simpl; repeat split; reflexivity.
Qed.

Lemma batch_settled_initialize q response s :
  wf s →
  pending (rt s) !! q = Some BatchThenInitialize →
  ∃ s3, (handle (BatchSettled q response) s).2 = (initialize_resume s3).2
        ∧ this s3 = this s
        ∧ now (rt s3) = now (rt s)
        ∧ timers (rt s3) = timers (rt s)
        ∧ nextTimer (rt s3) = nextTimer (rt s)
        ∧ sockets (rt s3) = sockets (rt s)
        ∧ nextSocket (rt s3) = nextSocket (rt s)
        ∧ pending (rt s3) = delete q (pending (rt s)).
Proof.
  intros Hwf Hq.
  unfold handle, mbind, M_bind, bind, get. cbv beta iota zeta. rewrite Hq.
  unfold modifyRt at 1. cbv beta iota.
  set (s2 := {| this := this s; rt := with_pending _ _ (rt s) |}).
  assert (Hwf2 : wf s2) by (destruct Hwf as [m Hm]; by exists m).
  destruct response as [entries|error].
  - destruct (parseBatch_frame entries s2 Hwf2) as (m & s2' & Hrun & Hsame & Hwf2').
    rewrite Hrun. unfold ret at 1. cbv beta iota.
    destruct (fetchAllStatus_resume_spec m s2' Hwf2')
      as (s3 & snaps & Hrun3 & Hsame3 & _).
    rewrite Hrun3. exists s3. split; [done|].
    pose proof (sameControl_trans _ _ _ Hsame Hsame3) as [H1 H2 H3 H4 H5 H6 H7 _ _].
    unfold s2 in H1, H2, H3, H4, H5, H6, H7. simpl in H1, H2, H3, H4, H5, H6, H7.
    repeat split; assumption.
  - unfold ret at 1. cbv beta iota. rewrite fetchAllStatus_resume_rejected.
    eexists. split; [reflexivity|]. repeat split; reflexivity.
Qed.

(** X18: [initialize] completes whether the first batch fetch succeeds or
    fails, whatever the response holds and whatever the subscribers do. A
    new manager that is initialised ends up with exactly one channel, a
    socket when [enableWebSocket] is set, else an event source unless
    [enableSSE] is false, else none, and with the poll timer armed with the
    period [fallbackPollInterval], or 30000 ms when that option is absent
    or 0; no request is left in flight. *)
Theorem initialize_completes options behaviour response :
  let viaSocket := default false (enableWebSocket options) in
  let viaStream := default true (enableSSE options) in
  let period := match fallbackPollInterval options with
                | Some 0%Z | None => 30000%Z
                | Some n => n
                end in
  ∃ s,
    run [Called CallInitialize; BatchSettled 1 response]
      (construct options (bootRuntime behaviour)) = Some s
    ∧ wsConnection (this s) = (if viaSocket then Some 1%positive else None)
    ∧ sseConnection (this s)
      = (if viaSocket then None else if viaStream then Some 1%positive else None)
    ∧ sockets (rt s)
      = (if viaSocket then {[1%positive := connecting WebSocketSocket]}
         else if viaStream then {[1%positive := connecting EventSourceSocket]}
         else ∅)
    ∧ pollInterval (this s) = Some 1%positive
    ∧ timers (rt s) = {[1%positive := pollTimer period period]}
    ∧ pending (rt s) = ∅.
Proof.
  intros viaSocket viaStream period.
  set (s0 := construct options (bootRuntime behaviour)).
  set (s1 := (handle (Called CallInitialize) s0).2).
  assert (Hwf1 : wf s1) by (eexists; apply lookup_insert_eq).
  assert (Hq : pending (rt s1) !! 1%positive = Some BatchThenInitialize)
    by apply lookup_insert_eq.
  destruct (batch_settled_initialize 1 response s1 Hwf1 Hq)
    as (s3 & Hrun & Hthis & Hnow & Htimers & HnextT & Hsockets & HnextS & Hpending).
  exists (handle (BatchSettled 1 response) s1).2. split.
  { change (run [Called CallInitialize; BatchSettled 1 response] s0)
      with (if enabled (BatchSettled 1 response) s1
            then Some (handle (BatchSettled 1 response) s1).2 else None).
    unfold enabled. by rewrite Hq. }
  rewrite Hrun.
  destruct (initialize_resume_view s3) as (Hws & Hsse & Hso & Hpoll & Hti & Hpe & _).
  rewrite Hws, Hsse, Hso, Hpoll, Hti, Hpe.
  rewrite Hthis, Hnow, Htimers, HnextT, Hsockets, HnextS, Hpending.
  change (WS_ENABLED (this s1)) with viaSocket.
  change (SSE_ENABLED (this s1)) with viaStream.
  change (FALLBACK_POLL_INTERVAL (this s1)) with period.
  change (now (rt s1)) with 0%Z. rewrite Z.add_0_l.
  change (nextSocket (rt s1)) with 1%positive.
  change (nextTimer (rt s1)) with 1%positive.
  change (sockets (rt s1)) with (∅ : gmap positive Socket).
  change (timers (rt s1)) with (∅ : gmap positive Timer).
  change (wsConnection (this s1)) with (@None positive).
  change (sseConnection (this s1)) with (@None positive).
  split; [done|]. split; [by destruct viaSocket, viaStream|].
  split; [by destruct viaSocket, viaStream|]. split; [done|]. split; [done|].
  change (pending (rt s1)) with (<[1%positive := BatchThenInitialize]> (∅ : gmap positive Continuation)).
  by rewrite delete_insert_eq, delete_empty.
Qed.

(** *** Reconnection *)

Lemma ws_closed_view s c :
  let s1 := (handle (WsClosed c) s).2 in
  let n := nextTimer (rt s) in
  let due := (now (rt s) + 5000)%Z in
  this s1
  = with_pollInterval
      (match pollInterval (this s) with Some _ => Some n | None => None end) (this s)
  ∧ sockets (rt s1)
    = alter (λ k, {| socket_kind := socket_kind k; readyState := CLOSED |}) c (sockets (rt s))
  ∧ nextSocket (rt s1) = nextSocket (rt s)
  ∧ timers (rt s1)
    = match pollInterval (this s) with
      | Some p => <[Pos.succ n := reconnectTimer due]>
                    (<[n := pollTimer 5000 due]> (delete p (timers (rt s))))
      | None => <[n := reconnectTimer due]> (timers (rt s))
      end.
Proof.
  destruct s as [[ids sm sse ws [p|] scb ecb fpi se we] r];
    unfold handle, ws_onclose, setReadyState, accelerateFallbackPolling, setTimeout,
      setInterval, setTimer, clearInterval;
    unfold_monad; simpl; repeat split; reflexivity.
Qed.

Lemma timeout_fired_reconnect s id due :
  timers (rt s) !! id = Some (reconnectTimer due) →
  (handle (TimerFired id) s).2
  = (reconnectAttempt
       {| this := this s;
          rt := with_timers (delete id (timers (rt s))) (nextTimer (rt s)) (rt s) |}).2.
Proof.
  intros Ht. unfold handle, mbind, M_bind, bind, get. cbv beta iota. rewrite Ht.
  reflexivity.
Qed.

Lemma reconnectAttempt_closed s c :
  wsConnection (this s) = Some c →
  readyStateOf (rt s) c = CLOSED →
  (reconnectAttempt s).2
  = {| this := with_connections (sseConnection (this s)) (Some (nextSocket (rt s))) (this s);
       rt := with_sockets
               (<[nextSocket (rt s) := connecting WebSocketSocket]> (sockets (rt s)))
               (Pos.succ (nextSocket (rt s))) (rt s) |}.
Proof.
  intros Hc Hst. unfold reconnectAttempt, mbind, M_bind, bind, get. cbv beta iota.
  rewrite Hc, Hst. reflexivity.
Qed.

Lemma wsLiveState_reached : run wsLive wsManager = Some wsLiveState.
Proof. vm_compute. reflexivity. Qed.

Lemma wsLiveState_consistent : consistent wsLiveState.
Proof.
  eapply (keeps_run (configOf (this wsManager)) wsLive wsManager);
    [apply construct_good|apply wsLiveState_reached].
Qed.

(** X19: a socket that closes is replaced. When the socket the manager
    holds closes, the close handler schedules one reconnect, a one-shot
    timer due 5000 ms later under an id not in use before; the manager goes
    on holding the closed socket meanwhile. When that timer fires, the
    manager opens a new socket, which it holds from then on in state
    connecting, and the timer is gone. A reconnect attempt that finds the
    held socket not closed does nothing, so no second socket is opened
    beside a live one. *)
Theorem socket_close_reconnects s c :
  consistent s →
  wsConnection (this s) = Some c →
  let s1 := (handle (WsClosed c) s).2 in
  (∃ id,
     timers (rt s) !! id = None
     ∧ timers (rt s1) !! id = Some (reconnectTimer (now (rt s) + 5000))
     ∧ readyStateOf (rt s1) c = CLOSED
     ∧ wsConnection (this s1) = Some c
     ∧ let s2 := (handle (TimerFired id) s1).2 in
       wsConnection (this s2) = Some (nextSocket (rt s))
       ∧ sockets (rt s) !! nextSocket (rt s) = None
       ∧ sockets (rt s2) !! nextSocket (rt s) = Some (connecting WebSocketSocket)
       ∧ readyStateOf (rt s2) c = CLOSED
       ∧ timers (rt s2) !! id = None)
  ∧ (readyStateOf (rt s) c ≠ CLOSED → reconnectAttempt s = (Returned tt, s)).
Proof.
  intros Hs Hc s1.
  pose proof Hs as [_ _ _ _ Htids _ Hws Hsids].
  destruct (Hws c Hc) as [st Hk].
  assert (Hfresh : ∀ id, (nextTimer (rt s) ≤ id)%positive → timers (rt s) !! id = None).
  { intros id Hle. apply eq_None_not_Some. intros Hsome. apply Htids in Hsome. lia. }
  assert (Hnew : sockets (rt s) !! nextSocket (rt s) = None).
  { apply eq_None_not_Some. intros Hsome. apply Hsids in Hsome. lia. }
  assert (Hne : c ≠ nextSocket (rt s)).
  { intros ->. rewrite Hnew in Hk. discriminate. }
  destruct (ws_closed_view s c) as (Hthis & Hsockets & HnextS & Htimers).
  fold s1 in Hthis, Hsockets, HnextS, Htimers.
  assert (Hclosed : readyStateOf (rt s1) c = CLOSED).
  { unfold readyStateOf. by rewrite Hsockets, lookup_alter_eq, Hk. }
  assert (Hheld : wsConnection (this s1) = Some c) by (by rewrite Hthis).
  split.
  - set (id := match pollInterval (this s) with
               | Some _ => Pos.succ (nextTimer (rt s))
               | None => nextTimer (rt s)
               end).
    assert (Hid : timers (rt s1) !! id = Some (reconnectTimer (now (rt s) + 5000))).
    { rewrite Htimers. unfold id. destruct (pollInterval (this s)); apply lookup_insert_eq. }
    exists id. split.
    { apply Hfresh. unfold id. destruct (pollInterval (this s)); lia. }
    split; [exact Hid|]. split; [exact Hclosed|]. split; [exact Hheld|].
    cbv zeta. rewrite (timeout_fired_reconnect s1 id _ Hid).
    rewrite (reconnectAttempt_closed _ c) by done. simpl.
    rewrite HnextS, Hsockets.
    split; [done|]. split; [exact Hnew|]. split; [apply lookup_insert_eq|].
    split; [|apply lookup_delete_eq].
    unfold readyStateOf. simpl.
    rewrite lookup_insert_ne by done. by rewrite lookup_alter_eq, Hk.
  - intros Hopen. unfold reconnectAttempt, mbind, M_bind, bind, get. cbv beta iota.
    rewrite Hc. by destruct (readyStateOf (rt s) c).
Qed.

Lemma socket_close_reconnects_sample :
  consistent wsLiveState
  ∧ wsConnection (this wsLiveState) = Some 1%positive
  ∧ let s1 := (handle (WsClosed 1) wsLiveState).2 in
    (∃ id,
       timers (rt wsLiveState) !! id = None
       ∧ timers (rt s1) !! id = Some (reconnectTimer (now (rt wsLiveState) + 5000))
       ∧ readyStateOf (rt s1) 1 = CLOSED
       ∧ wsConnection (this s1) = Some 1%positive
       ∧ let s2 := (handle (TimerFired id) s1).2 in
         wsConnection (this s2) = Some (nextSocket (rt wsLiveState))
         ∧ sockets (rt wsLiveState) !! nextSocket (rt wsLiveState) = None
         ∧ sockets (rt s2) !! nextSocket (rt wsLiveState) = Some (connecting WebSocketSocket)
         ∧ readyStateOf (rt s2) 1 = CLOSED
         ∧ timers (rt s2) !! id = None)
    ∧ (readyStateOf (rt wsLiveState) 1 ≠ CLOSED →
       reconnectAttempt wsLiveState = (Returned tt, wsLiveState)).
Proof.
  assert (Hc : wsConnection (this wsLiveState) = Some 1%positive)
    by (vm_compute; reflexivity).
  split; [exact wsLiveState_consistent|]. split; [exact Hc|].
  exact (socket_close_reconnects wsLiveState 1 wsLiveState_consistent Hc).
Defined.

End StatusTheory.
